(** * Batch-export stream transformer: a shallow embedding and its properties

    Embedding of [posthog/temporal/batch_exports/transformer.py]:
    the JSONL codec with its fallbacks, compression, the segment
    controller of [iter_transformed_record_batches], the construction
    factory and the producer/worker/consumer pipeline over shared memory.

    Conventions.
    - Python [bytes] are [list byte]; a Python [str] is a list of code
      points ([N]), so that lone surrogates can be represented.
    - A raised exception is the [Raise] case of [result].
    - The nesting limit of orjson, which the source tests for by its
      message, is modelled, and so is the [RecursionError] of the
      interpreter in [json.dumps]; the functions of the module itself
      are taken to run within the interpreter's stack.
    - Floating point values are not part of the value model. *)

From Stdlib.Strings Require Import String Ascii.
From Stdlib.Strings Require Byte.
From Stdlib.Init Require Import Byte.
From Stdlib Require Import List ZArith NArith Lia Bool.
Import ListNotations.

Set Implicit Arguments.
Set Warnings "-register-all,-abstract-large-number".

(* ================================================================= *)
(** * Part I. The embedding *)
(* ================================================================= *)

(** ** Bytes, strings, exceptions *)

Definition bytes := list byte.
Definition codepoint := N.
Definition pystr := list codepoint.

(** [u "..."] is the Python [str] literal, [b "..."] the [bytes] literal. *)
Definition u (s : string) : pystr := map N_of_ascii (list_ascii_of_string s).
Definition b (s : string) : bytes := list_byte_of_string s.

Definition byte_of_N (n : N) : byte :=
  match Byte.of_N n with Some x => x | None => x00 end.

Definition pystr_eqb (s t : pystr) : bool :=
  if list_eq_dec N.eq_dec s t then true else false.

Inductive exn : Type :=
| ValueError (msg : pystr)
| KeyError (key : pystr)
| TypeError (msg : string)
| JSONEncodeError (msg : string)
| UnicodeEncodeError
| UnicodeDecodeError
| BrotliError
| FileNotFoundError (name : nat)
| BufferError
| RecursionError.

Inductive result (A : Type) : Type :=
| Ok (a : A)
| Raise (e : exn).
Arguments Ok {A} a.
Arguments Raise {A} e.

Definition rbind {A B} (r : result A) (k : A -> result B) : result B :=
  match r with Ok a => k a | Raise e => Raise e end.

Declare Scope result_scope.
Delimit Scope result_scope with result.
Notation "x <- c ;; k" := (rbind c (fun x => k))
  (at level 61, c at next level, right associativity) : result_scope.
Notation "' p <- c ;; k" := (rbind c (fun x => let p := x in k))
  (at level 61, p pattern, c at next level, right associativity) : result_scope.
Open Scope result_scope.

Section MapM.
Variables (A B : Type) (f : A -> result B).

Fixpoint mapM (l : list A) : result (list B) :=
  match l with
  | [] => Ok []
  | a :: l' => y <- f a ;; ys <- mapM l' ;; Ok (y :: ys)
  end.
End MapM.

Definition is_ok {A} (r : result A) : bool :=
  match r with Ok _ => true | Raise _ => false end.

(** ** [str.lower()]

    Only the ASCII letters are lowered. Outside ASCII Python lowers more
    code points, but the only one that lowers to an ASCII letter is the
    Kelvin sign (to [k]), and no name the source compares with contains
    a [k]. *)

Definition lower_cp (c : codepoint) : codepoint :=
  if (65 <=? c)%N && (c <=? 90)%N then (c + 32)%N else c.

Definition lower (s : pystr) : pystr := map lower_cp s.

(** ** UTF-8 *)

Definition is_surrogate (c : codepoint) : bool :=
  (0xD800 <=? c)%N && (c <=? 0xDFFF)%N.

Definition utf8_encode_cp (c : codepoint) : bytes :=
  if (c <? 0x80)%N then [byte_of_N c]
  else if (c <? 0x800)%N then
    [byte_of_N (0xC0 + c / 64); byte_of_N (0x80 + c mod 64)]
  else if (c <? 0x10000)%N then
    [byte_of_N (0xE0 + c / 4096); byte_of_N (0x80 + (c / 64) mod 64);
     byte_of_N (0x80 + c mod 64)]
  else
    [byte_of_N (0xF0 + c / 262144); byte_of_N (0x80 + (c / 4096) mod 64);
     byte_of_N (0x80 + (c / 64) mod 64); byte_of_N (0x80 + c mod 64)].

Inductive errors_mode := Strict | Replace.

(** [s.encode("utf-8", errors)]: a surrogate cannot be encoded; with
    ["replace"] the encoder writes [?] in its place. *)
Fixpoint str_encode (errors : errors_mode) (s : pystr) : result bytes :=
  match s with
  | [] => Ok []
  | c :: s' =>
      if is_surrogate c then
        match errors with
        | Strict => Raise UnicodeEncodeError
        | Replace => r <- str_encode errors s' ;; Ok (x3f :: r)
        end
      else r <- str_encode errors s' ;; Ok (utf8_encode_cp c ++ r)
  end.

Definition is_cont (x : N) : bool := (0x80 <=? x)%N && (x <? 0xC0)%N.

(** [bs.decode("utf-8")], strict: overlong forms, surrogates, code points
    above U+10FFFF and truncated sequences are rejected. *)
Fixpoint bytes_decode (bs : bytes) : result pystr :=
  match bs with
  | [] => Ok []
  | b0 :: r0 =>
      let x0 := Byte.to_N b0 in
      if (x0 <? 0x80)%N then
        s <- bytes_decode r0 ;; Ok (x0 :: s)
      else if (x0 <? 0xC2)%N then Raise UnicodeDecodeError
      else if (x0 <? 0xE0)%N then
        match r0 with
        | b1 :: r1 =>
            let x1 := Byte.to_N b1 in
            if is_cont x1 then
              s <- bytes_decode r1 ;;
              Ok (((x0 - 0xC0) * 64 + (x1 - 0x80))%N :: s)
            else Raise UnicodeDecodeError
        | _ => Raise UnicodeDecodeError
        end
      else if (x0 <? 0xF0)%N then
        match r0 with
        | b1 :: b2 :: r2 =>
            let x1 := Byte.to_N b1 in
            let x2 := Byte.to_N b2 in
            let c := ((x0 - 0xE0) * 4096 + (x1 - 0x80) * 64 + (x2 - 0x80))%N in
            if is_cont x1 && is_cont x2 && (0x800 <=? c)%N
               && negb (is_surrogate c) then
              s <- bytes_decode r2 ;; Ok (c :: s)
            else Raise UnicodeDecodeError
        | _ => Raise UnicodeDecodeError
        end
      else if (x0 <? 0xF5)%N then
        match r0 with
        | b1 :: b2 :: b3 :: r3 =>
            let x1 := Byte.to_N b1 in
            let x2 := Byte.to_N b2 in
            let x3 := Byte.to_N b3 in
            let c := ((x0 - 0xF0) * 262144 + (x1 - 0x80) * 4096
                      + (x2 - 0x80) * 64 + (x3 - 0x80))%N in
            if is_cont x1 && is_cont x2 && is_cont x3
               && (0x10000 <=? c)%N && (c <=? 0x10FFFF)%N then
              s <- bytes_decode r3 ;; Ok (c :: s)
            else Raise UnicodeDecodeError
        | _ => Raise UnicodeDecodeError
        end
      else Raise UnicodeDecodeError
  end.

(** ** Python values of a row *)

(** The values [to_pylist] hands to the codec. Dictionaries keep their
    insertion order and have [str] keys; [PObj] is a value of a type the
    strict encoder does not know, carried with its [str(obj)]. *)
Inductive pyval : Type :=
| PNone
| PBool (x : bool)
| PInt (z : Z)
| PStr (s : pystr)
| PList (l : list pyval)
| PDict (d : list (pystr * pyval))
| PObj (repr : pystr).

Definition pydict := list (pystr * pyval).

Fixpoint dict_get (d : pydict) (k : pystr) : option pyval :=
  match d with
  | [] => None
  | (k', v) :: d' => if pystr_eqb k' k then Some v else dict_get d' k
  end.

(** [d[k] = v]: an existing key keeps its position. *)
Fixpoint dict_setitem (d : pydict) (k : pystr) (v : pyval) : pydict :=
  match d with
  | [] => [(k, v)]
  | (k', v') :: d' =>
      if pystr_eqb k' k then (k, v) :: d' else (k', v') :: dict_setitem d' k v
  end.

(** [del d[k]] *)
Fixpoint dict_delitem (d : pydict) (k : pystr) : result pydict :=
  match d with
  | [] => Raise (KeyError k)
  | (k', v') :: d' =>
      if pystr_eqb k' k then Ok d'
      else r <- dict_delitem d' k ;; Ok ((k', v') :: r)
  end.

(** [{k: v for k, v in items}] *)
Definition dict_of_items (items : list (pystr * pyval)) : pydict :=
  fold_left (fun d kv => dict_setitem d (fst kv) (snd kv)) items [].

(** ** The strict encoder: [orjson.dumps(v, default=str)]

    The model of the library call: compact separators, UTF-8 output,
    control characters escaped. It raises [JSONEncodeError] on a [str]
    holding a surrogate, on an integer outside 64 bits, and on containers
    nested deeper than its recursion limit, the first one met in a
    left-to-right traversal. A value of an unknown type goes through
    [default], here [str]. *)

Definition quote : codepoint := 34%N.
Definition backslash : codepoint := 92%N.

Definition hex_digit (n : N) : codepoint :=
  if (n <? 10)%N then (48 + n)%N else (87 + n)%N.

Definition escape_u (c : N) : pystr :=
  [backslash; 117%N; hex_digit (c / 4096); hex_digit ((c / 256) mod 16);
   hex_digit ((c / 16) mod 16); hex_digit (c mod 16)].

Definition short_escape (c : codepoint) : option pystr :=
  if (c =? quote)%N then Some [backslash; quote]
  else if (c =? backslash)%N then Some [backslash; backslash]
  else if (c =? 8)%N then Some [backslash; 98%N]
  else if (c =? 9)%N then Some [backslash; 116%N]
  else if (c =? 10)%N then Some [backslash; 110%N]
  else if (c =? 12)%N then Some [backslash; 102%N]
  else if (c =? 13)%N then Some [backslash; 114%N]
  else None.

Fixpoint dec_digits (fuel : nat) (n : N) (acc : pystr) : pystr :=
  match fuel with
  | O => acc
  | S fuel' =>
      let acc' := (48 + n mod 10)%N :: acc in
      if (n <? 10)%N then acc' else dec_digits fuel' (n / 10) acc'
  end.

(** [str(z)] for an integer *)
Definition int_str (z : Z) : pystr :=
  let n := Z.abs_N z in
  let ds := dec_digits (S (N.to_nat (N.log2 n))) n [] in
  if (z <? 0)%Z then 45%N :: ds else ds.

Definition ascii_bytes (s : pystr) : bytes := map byte_of_N s.

Fixpoint join {A} (sep : list A) (parts : list (list A)) : list A :=
  match parts with
  | [] => []
  | [p] => p
  | p :: rest => p ++ sep ++ join sep rest
  end.

Definition recursion_limit_msg : string := "Recursion limit reached".
Definition invalid_str_msg : string :=
  "str is not valid UTF-8: surrogates not allowed".
Definition int_range_msg : string := "Integer exceeds 64-bit range".

Definition orjson_escape (c : codepoint) : bytes :=
  match short_escape c with
  | Some e => ascii_bytes e
  | None => if (c <? 32)%N then ascii_bytes (escape_u c) else utf8_encode_cp c
  end.

Definition orjson_str (s : pystr) : result bytes :=
  if existsb is_surrogate s then Raise (JSONEncodeError invalid_str_msg)
  else Ok ([x22] ++ concat (map orjson_escape s) ++ [x22]).

Definition orjson_int (z : Z) : result bytes :=
  if ((- 2 ^ 63 <=? z) && (z <? 2 ^ 64))%Z then Ok (ascii_bytes (int_str z))
  else Raise (JSONEncodeError int_range_msg).

Fixpoint orjson_ser (budget : nat) (v : pyval) {struct v} : result bytes :=
  match v with
  | PNone => Ok (b "null")
  | PBool true => Ok (b "true")
  | PBool false => Ok (b "false")
  | PInt z => orjson_int z
  | PStr s => orjson_str s
  | PObj r => orjson_str r
  | PList l =>
      match budget with
      | O => Raise (JSONEncodeError recursion_limit_msg)
      | S budget' =>
          items <- mapM (orjson_ser budget') l ;;
          Ok (b "[" ++ join (b ",") items ++ b "]")
      end
  | PDict d =>
      match budget with
      | O => Raise (JSONEncodeError recursion_limit_msg)
      | S budget' =>
          items <- mapM (fun kv =>
                           k <- orjson_str (fst kv) ;;
                           x <- orjson_ser budget' (snd kv) ;;
                           Ok (k ++ b ":" ++ x)) d ;;
          Ok (b "{" ++ join (b ",") items ++ b "}")
      end
  end.

(** ** The permissive encoder: [json.dumps(v, default=str)]

    The standard library encoder with its defaults: [", "] and [": "]
    separators and [ensure_ascii], so every code point outside the
    printable ASCII range, a surrogate included, is written as an
    escape. The result is a [str]. The encoder has no nesting limit of
    its own: [json_text] is what it writes; the interpreter's limit is
    in [json_dumps], below. *)

Definition json_escape (c : codepoint) : pystr :=
  match short_escape c with
  | Some e => e
  | None =>
      if (32 <=? c)%N && (c <=? 126)%N then [c]
      else if (c <? 0x10000)%N then escape_u c
      else
        let n := (c - 0x10000)%N in
        escape_u (0xD800 + (n / 1024) mod 1024) ++ escape_u (0xDC00 + n mod 1024)
  end.

Definition json_str (s : pystr) : pystr :=
  [quote] ++ concat (map json_escape s) ++ [quote].

Fixpoint json_text (v : pyval) : pystr :=
  match v with
  | PNone => u "null"
  | PBool true => u "true"
  | PBool false => u "false"
  | PInt z => int_str z
  | PStr s => json_str s
  | PObj r => json_str r
  | PList l => u "[" ++ join (u ", ") (map json_text l) ++ u "]"
  | PDict d =>
      u "{" ++ join (u ", ")
                 (map (fun kv => json_str (fst kv) ++ u ": " ++ json_text (snd kv)) d)
        ++ u "}"
  end.

(** How deep the containers of a value are nested: one for a list or a
    dictionary, and one more for each level inside. *)
Fixpoint nesting (v : pyval) : nat :=
  match v with
  | PList l => S (fold_right (fun x acc => Nat.max (nesting x) acc) 0 l)
  | PDict d => S (fold_right (fun kv acc => Nat.max (nesting (snd kv)) acc) 0 d)
  | _ => 0
  end.

(** ** [replace_broken_unicode] *)

Definition replace_broken_unicode_str (s : pystr) : result pystr :=
  bs <- str_encode Replace s ;; bytes_decode bs.

Fixpoint replace_broken_unicode (obj : pyval) : result pyval :=
  match obj with
  | PStr s => s' <- replace_broken_unicode_str s ;; Ok (PStr s')
  | PList l => l' <- mapM replace_broken_unicode l ;; Ok (PList l')
  | PDict d =>
      items <- mapM (fun kv =>
                       k <- replace_broken_unicode_str (fst kv) ;;
                       x <- replace_broken_unicode (snd kv) ;;
                       Ok (k, x)) d ;;
      Ok (PDict (dict_of_items items))
  | _ => Ok obj
  end.

(** ** Record batches *)

(** A batch is columnar: named columns of [num_rows] values each. A batch
    with no column still has its row count. *)
Record RecordBatch : Type := {
  num_rows : nat;
  columns : list (pystr * list pyval)
}.

Definition column_names (rb : RecordBatch) : list pystr := map fst (columns rb).

(** [names.index(x)] *)
Fixpoint index (names : list pystr) (x : pystr) : result nat :=
  match names with
  | [] => Raise (ValueError (u "'" ++ x ++ u "' is not in list"))
  | n :: names' =>
      if pystr_eqb n x then Ok O else i <- index names' x ;; Ok (S i)
  end.

(** [names.pop(i)], for an index in range *)
Fixpoint pop (names : list pystr) (i : nat) : list pystr :=
  match names, i with
  | [], _ => []
  | _ :: names', O => names'
  | n :: names', S i' => n :: pop names' i'
  end.

(** [rb.select(names)]: a name must denote exactly one column; the
    [KeyError] carries pyarrow's message. *)
Definition field_indices (rb : RecordBatch) (name : pystr) : list (pystr * list pyval) :=
  filter (fun col => pystr_eqb (fst col) name) (columns rb).

Definition select_column (rb : RecordBatch) (name : pystr)
  : result (pystr * list pyval) :=
  match field_indices rb name with
  | [col] => Ok col
  | [] =>
      Raise (KeyError (u "Field " ++ [quote] ++ name ++ [quote]
                         ++ u " does not exist in schema"))
  | cols =>
      Raise (KeyError (u "Field " ++ [quote] ++ name ++ [quote] ++ u " exists "
                         ++ int_str (Z.of_nat (length cols))
                         ++ u " times in schema"))
  end.

Definition select (rb : RecordBatch) (names : list pystr) : result RecordBatch :=
  cols <- mapM (select_column rb) names ;;
  Ok {| num_rows := num_rows rb; columns := cols |}.

(** [rb.to_pylist()] *)
Definition row_at (rb : RecordBatch) (i : nat) : pydict :=
  dict_of_items (map (fun col => (fst col, nth i (snd col) PNone)) (columns rb)).

Definition to_pylist (rb : RecordBatch) : list pydict :=
  map (row_at rb) (seq 0 (num_rows rb)).

(** ** External libraries and the interpreter

    The compression libraries and the Arrow stream format are taken as
    they are: [gzip.compress], a [brotli.Compressor] object with its
    [process], [flush] and [finish], and what a
    [RecordBatchStreamReader] reads back from the stream a
    [RecordBatchStreamWriter] wrote. [stack_limit] is the nesting up to
    which the interpreter lets [json.dumps] recurse (about a thousand
    levels with the default recursion limit, less what the call stack
    already holds). *)
Class Libraries : Type := {
  gzip_compress : bytes -> bytes;
  brotli_state : Type;
  brotli_Compressor : brotli_state;
  brotli_process : brotli_state -> bytes -> result (bytes * brotli_state);
  brotli_flush : brotli_state -> result (bytes * brotli_state);
  brotli_finish : brotli_state -> result (bytes * brotli_state);
  ipc_roundtrip : RecordBatch -> RecordBatch;
  stack_limit : nat
}.

(** ** The transformer object *)

Definition Schema := list pystr.

Inductive transformer_class : Type :=
| JSONLStreamTransformer
| ParquetStreamTransformer (schema : Schema).

Section Transformer.
Context {libs : Libraries}.

Record StreamTransformer : Type := {
  class_of : transformer_class;
  compression : option pystr;
  include_inserted_at : bool;
  _brotli_compressor : option brotli_state
}.

Definition set_brotli (t : StreamTransformer) (c : option brotli_state)
  : StreamTransformer :=
  {| class_of := class_of t;
     compression := compression t;
     include_inserted_at := include_inserted_at t;
     _brotli_compressor := c |}.

(** [__init__]: an empty compression name counts as none. *)
Definition new_transformer (cls : transformer_class)
           (compression : option pystr) (include_inserted_at : bool)
  : StreamTransformer :=
  {| class_of := cls;
     compression :=
       match compression with
       | Some (c :: s) => Some (lower (c :: s))
       | _ => None
       end;
     include_inserted_at := include_inserted_at;
     _brotli_compressor := None |}.

Definition compression_is (t : StreamTransformer) (name : string) : bool :=
  match compression t with
  | Some c => pystr_eqb c (u name)
  | None => false
  end.

Definition compression_repr (t : StreamTransformer) : pystr :=
  match compression t with Some c => c | None => u "None" end.

(** The [brotli_compressor] property: created on first use. *)
Definition brotli_compressor (t : StreamTransformer)
  : brotli_state * StreamTransformer :=
  match _brotli_compressor t with
  | None => (brotli_Compressor, set_brotli t (Some brotli_Compressor))
  | Some c => (c, t)
  end.

Inductive content : Type :=
| CBytes (bs : bytes)
| CStr (s : pystr).

Definition compress (t : StreamTransformer) (c : content)
  : result (bytes * StreamTransformer) :=
  encoded <- match c with
             | CStr s => str_encode Strict s
             | CBytes bs => Ok bs
             end ;;
  match compression t with
  | None => Ok (encoded, t)
  | Some name =>
      if pystr_eqb name (u "gzip") then Ok (gzip_compress encoded, t)
      else if pystr_eqb name (u "brotli") then
        let (c0, t0) := brotli_compressor t in
        r1 <- brotli_process c0 encoded ;;
        r2 <- brotli_flush (snd r1) ;;
        Ok (fst r2, set_brotli t0 (Some (snd r2)))
      else Raise (ValueError (u "Unsupported compression: '" ++ name ++ u "'"))
  end.

(** [finalize] of the base class, run to its end. *)
Definition finalize (t : StreamTransformer)
  : result (list bytes * StreamTransformer) :=
  if compression_is t "brotli" then
    let (c0, t0) := brotli_compressor t in
    r <- brotli_finish c0 ;;
    Ok ([fst r], set_brotli t0 (Some (snd r)))
  else Ok ([], t).

(** [finish_brotli_compressor], run to its end. *)
Definition finish_brotli_compressor (t : StreamTransformer)
  : result (list bytes * StreamTransformer) :=
  if negb (compression_is t "brotli") then
    Raise (ValueError (u "Compression is '" ++ compression_repr t
                         ++ u "', not 'brotli'"))
  else
    let (c0, t0) := brotli_compressor t in
    r <- brotli_finish c0 ;;
    Ok ([fst r], set_brotli t0 None).

(** *** The JSONL codec *)

Section JSONL.
(** The nesting limit of the strict encoder. *)
Variable recursion_limit : nat.

Definition orjson_dumps (v : pyval) : result bytes :=
  orjson_ser recursion_limit v.

Definition subscript (v : pyval) (k : pystr) : result pyval :=
  match v with
  | PDict d =>
      match dict_get d k with
      | Some x => Ok x
      | None => Raise (KeyError k)
      end
  | _ => Raise (TypeError "object is not subscriptable by a str key")
  end.

(** [del d["properties"]["$web_vitals_INP_event"]["attribution"]["interactionTargetElement"]] *)
Definition del_interaction_target (d : pydict) : result pydict :=
  props <- subscript (PDict d) (u "properties") ;;
  inp <- subscript props (u "$web_vitals_INP_event") ;;
  attr <- subscript inp (u "attribution") ;;
  match props, inp, attr with
  | PDict dp, PDict di, PDict da =>
      da' <- dict_delitem da (u "interactionTargetElement") ;;
      Ok (dict_setitem d (u "properties")
            (PDict (dict_setitem dp (u "$web_vitals_INP_event")
                      (PDict (dict_setitem di (u "attribution") (PDict da'))))))
  | _, _, _ => Raise (TypeError "object does not support item deletion")
  end.

Definition is_web_vitals (d : pydict) : bool :=
  match dict_get d (u "event") with
  | Some (PStr s) => pystr_eqb s (u "$web_vitals")
  | _ => false
  end.

(** [json.dumps(v, default=str)]: the encoder recurses once for each
    level of nesting, and the interpreter raises [RecursionError] on a
    value nested deeper than its stack allows. Where the source logs the
    row with [%s] before the call, formatting the row recurses in the
    same way and raises the same error. *)
Definition json_dumps (v : pyval) : result pystr :=
  if nesting v <=? stack_limit then Ok (json_text v) else Raise RecursionError.

(** [json.dumps(d, default=str).encode("utf-8") + b"\n"] *)
Definition stdlib_line (d : pydict) : result bytes :=
  text <- json_dumps (PDict d) ;;
  dumped <- str_encode Strict text ;;
  Ok (dumped ++ [x0a]).

(** The [try ... except] of [_write_dict]: the line handed to [_write]. *)
Definition encode_row (d : pydict) : result bytes :=
  match orjson_dumps (PDict d) with
  | Ok dumped => Ok (dumped ++ [x0a])
  | Raise (JSONEncodeError msg) =>
      if String.eqb msg recursion_limit_msg then
        if is_web_vitals d then
          match del_interaction_target d with
          | Raise (KeyError _) => stdlib_line d
          | Raise e => Raise e
          | Ok d' =>
              dumped <- orjson_dumps (PDict d') ;;
              Ok (dumped ++ [x0a])
          end
        else stdlib_line d
      else
        cleaned_content <- replace_broken_unicode (PDict d) ;;
        dumped <- orjson_dumps cleaned_content ;;
        Ok (dumped ++ [x0a])
  | Raise e => Raise e
  end.

(** [json_dumps_bytes] *)
Definition json_dumps_bytes (d : pyval) : result bytes :=
  match orjson_dumps d with
  | Raise (JSONEncodeError _) =>
      cleaned_d <- replace_broken_unicode d ;;
      orjson_dumps cleaned_d
  | r => r
  end.

(** A generator is the list of its resumptions, each yielding one
    value and acting on the transformer. *)
Definition resumption : Type :=
  StreamTransformer -> result (bytes * StreamTransformer).
Definition generator : Type := list resumption.

Definition _write (c : content) : resumption := fun t => compress t c.

Definition _write_dict (d : pydict) : resumption :=
  fun t => line <- encode_row d ;; _write (CBytes line) t.

Definition write_batch (rb : RecordBatch) : generator :=
  flat_map (fun record_dict =>
              match record_dict with
              | [] => []
              | _ => [_write_dict record_dict]
              end) (to_pylist rb).

(** [transform_batch]: what runs before the first value is yielded
    may raise; then the rows are written one by one. *)
Definition transform_batch (t : StreamTransformer) (rb : RecordBatch)
  : result generator :=
  names <- (if include_inserted_at t then Ok (column_names rb)
            else i <- index (column_names rb) (u "_inserted_at") ;;
                 Ok (pop (column_names rb) i)) ;;
  selected <- select rb names ;;
  Ok (write_batch selected).

(** [list(gen)] *)
Fixpoint run_generator (g : generator) (t : StreamTransformer)
  : result (list bytes * StreamTransformer) :=
  match g with
  | [] => Ok ([], t)
  | r :: g' =>
      x <- r t ;;
      rest <- run_generator g' (snd x) ;;
      Ok (fst x :: fst rest, snd rest)
  end.
End JSONL.

(** *** The factory *)

Definition get_stream_transformer (format : pystr) (compression : option pystr)
           (schema : option Schema) (include_inserted_at : bool)
  : result StreamTransformer :=
  if pystr_eqb (lower format) (u "jsonlines") then
    Ok (new_transformer JSONLStreamTransformer compression include_inserted_at)
  else if pystr_eqb (lower format) (u "parquet") then
    match schema with
    | None => Raise (ValueError (u "Schema is required for Parquet"))
    | Some sch =>
        Ok (new_transformer (ParquetStreamTransformer sch) compression
              include_inserted_at)
    end
  else Raise (ValueError (u "Unsupported format: " ++ format)).
End Transformer.

(** ** The segment controller: [StreamTransformer.iter_transformed_record_batches]

    The method of the base class, over the [transform_batch] and
    [finalize] of whichever subclass [self] is. What it yields is kept
    in order, together with how the iteration ended. *)

Definition chunk : Type := bytes * bool.

Definition blen (c : bytes) : Z := Z.of_nat (length c).

(** An iteration over a state [T] that yields values of [O]: what was
    yielded so far, and either an exception or a value with the state. *)
Section Iteration.
Variables T O : Type.

Definition G (A : Type) : Type := T -> list O * result (A * T).

Definition gret {A} (a : A) : G A := fun t => ([], Ok (a, t)).

Definition gbind {A B} (m : G A) (k : A -> G B) : G B :=
  fun t =>
    match m t with
    | (out, Raise e) => (out, Raise e)
    | (out, Ok (a, t')) =>
        let (out', r) := k a t' in (out ++ out', r)
    end.

Definition gyield (c : O) : G unit := fun t => ([c], Ok (tt, t)).

Definition glift {A} (f : T -> result (A * T)) : G A := fun t => ([], f t).

Fixpoint gyield_all (cs : list O) : G unit :=
  match cs with
  | [] => gret tt
  | c :: cs' => gbind (gyield c) (fun _ => gyield_all cs')
  end.
End Iteration.

Arguments gret {T O A} a.
Arguments gbind {T O A B} m k.
Arguments gyield {T O} c.
Arguments glift {T O A} f.
Arguments gyield_all {T O} cs.

Declare Scope gen_scope.
Delimit Scope gen_scope with gen.
Notation "x <~ c ;; k" := (gbind c (fun x => k))
  (at level 61, c at next level, right associativity) : gen_scope.
Notation "c ;;; k" := (gbind c (fun _ => k))
  (at level 61, right associativity) : gen_scope.

Definition over_limit (max_file_size_bytes current_file_size : Z) : bool :=
  negb (max_file_size_bytes =? 0)%Z && (current_file_size >? max_file_size_bytes)%Z.

Section SegmentController.
Variable T : Type.
Variable transform_batch : T -> RecordBatch -> result (list (T -> result (bytes * T))).
Variable finalize : T -> result (list bytes * T).

Local Open Scope gen_scope.

Definition not_boundary (c : bytes) : chunk := (c, false).

(** The inner [for chunk in self.transform_batch(record_batch)] *)
Fixpoint for_chunks (max_file_size_bytes : Z)
         (g : list (T -> result (bytes * T))) (current_file_size : Z)
  : G T chunk Z :=
  match g with
  | [] => gret current_file_size
  | next :: g' =>
      c <~ glift next ;;
      gyield (c, false) ;;;
      let current_file_size := (current_file_size + blen c)%Z in
      if over_limit max_file_size_bytes current_file_size then
        fin <~ glift finalize ;;
        gyield_all (map not_boundary fin) ;;;
        gyield ([], true) ;;;
        for_chunks max_file_size_bytes g' 0%Z
      else for_chunks max_file_size_bytes g' current_file_size
  end.

(** The outer [async for record_batch in record_batches] *)
Fixpoint for_batches (max_file_size_bytes : Z)
         (record_batches : list RecordBatch) (current_file_size : Z)
  : G T chunk Z :=
  match record_batches with
  | [] => gret current_file_size
  | rb :: rest =>
      g <~ glift (fun t => g <- transform_batch t rb ;; Ok (g, t)) ;;
      size <~ for_chunks max_file_size_bytes g current_file_size ;;
      for_batches max_file_size_bytes rest size
  end.

Definition iter_transformed_record_batches
           (record_batches : list RecordBatch) (max_file_size_bytes : Z)
  : G T chunk unit :=
  for_batches max_file_size_bytes record_batches 0%Z ;;;
  fin <~ glift finalize ;;
  gyield_all (map not_boundary fin).
End SegmentController.

(** ** Shared memory

    The named regions of the operating system, and the calls made on
    them. A region's name is its index in the store; [close] releases a
    handle and leaves the region; [unlink] removes the name. *)

Inductive party : Type := Producer | Worker.

Inductive shm_call : Type :=
| ShmCreate (who : party) (name : nat)
| ShmOpen (who : party) (name : nat)
| ShmClose (who : party) (name : nat)
| ShmUnlink (who : party) (name : nat).

Record region : Type := {
  buf : RecordBatch;
  linked : bool
}.

Record shared_memory : Type := {
  regions : list region;
  calls : list shm_call
}.

(** [SharedMemory(create=True, size=size)] followed by the write of the
    serialized batch into its buffer *)
Definition shm_create (who : party) (rb : RecordBatch) (m : shared_memory)
  : nat * shared_memory :=
  let name := length (regions m) in
  (name, {| regions := regions m ++ [{| buf := rb; linked := true |}];
            calls := calls m ++ [ShmCreate who name] |}).

(** [SharedMemory(name=shm_name)] *)
Definition shm_open (who : party) (name : nat) (m : shared_memory)
  : result RecordBatch * shared_memory :=
  match nth_error (regions m) name with
  | Some r =>
      if linked r then
        (Ok (buf r), {| regions := regions m; calls := calls m ++ [ShmOpen who name] |})
      else (Raise (FileNotFoundError name), m)
  | None => (Raise (FileNotFoundError name), m)
  end.

Definition shm_close (who : party) (name : nat) (m : shared_memory)
  : shared_memory :=
  {| regions := regions m; calls := calls m ++ [ShmClose who name] |}.

Fixpoint set_unlinked (rs : list region) (name : nat) : list region :=
  match rs, name with
  | [], _ => []
  | r :: rs', O => {| buf := buf r; linked := false |} :: rs'
  | r :: rs', S n => r :: set_unlinked rs' n
  end.

Definition shm_unlink (who : party) (name : nat) (m : shared_memory)
  : shared_memory :=
  {| regions := set_unlinked (regions m) name;
     calls := calls m ++ [ShmUnlink who name] |}.

(** ** The parallel pipeline of [JSONLStreamTransformer] *)

Section Pipeline.
Context {libs : Libraries}.
Variable recursion_limit : nat.

(** [cast_record_batch_json_columns] is imported from
    [posthog.temporal.batch_exports.utils], which is not part of the
    sources at hand: it is a parameter here. *)
Variable cast_record_batch_json_columns : RecordBatch -> RecordBatch.

(** The worker. The region is opened by name; when the opening fails
    there is nothing to release. Once the region is open, the [finally]
    drops the names that refer to the batch and closes the handle, then
    unlinks the region. When the transformation has raised, the
    traceback of the exception in flight still refers to the batch, which
    lies in the buffer of the region: [close] raises [BufferError], which
    takes the place of the exception, the handle stays open and [unlink]
    is not reached. *)
Definition transform_record_batch_from_shared_memory
           (shm_name : nat) (transformer : StreamTransformer) (m : shared_memory)
  : result (list bytes) * shared_memory :=
  match shm_open Worker shm_name m with
  | (Raise e, m1) => (Raise e, m1)
  | (Ok stream, m1) =>
      let record_batch := ipc_roundtrip stream in
      let record_batch := cast_record_batch_json_columns record_batch in
      match (g <- transform_batch recursion_limit transformer record_batch ;;
             out <- run_generator g transformer ;;
             Ok (fst out)) with
      | Ok chunks =>
          (Ok chunks, shm_unlink Worker shm_name (shm_close Worker shm_name m1))
      | Raise _ => (Raise BufferError, m1)
      end
  end.

Definition max_workers : nat := 2.

Inductive future : Type :=
| Submitted (shm_name : nat)
| Finished (r : result (list bytes)).

Inductive producer_state : Type :=
| PNext
| PPut (fut : nat) (shm_name : nat)
| PDone
| PFailed (e : exn).

Inductive consumer_state : Type :=
| CGet
| CAwait (fut : nat)
| CDone
| CRaised (e : exn).

Record pipeline : Type := {
  record_batches : list RecordBatch;
  producer_task : producer_state;
  task_queue : list nat;
  futures : list future;
  memory : shared_memory;
  consumer : consumer_state;
  current_file_size : Z;
  yielded : list chunk
}.

Variable self : StreamTransformer.
Variable max_file_size_bytes : Z.

Definition start (batches : list RecordBatch) : pipeline :=
  {| record_batches := batches;
     producer_task := PNext;
     task_queue := [];
     futures := [];
     memory := {| regions := []; calls := [] |};
     consumer := CGet;
     current_file_size := 0%Z;
     yielded := [] |}.

(** Producer, up to [await task_queue.put(future)]: the batch is
    written to a new region and the job is handed to the executor. *)
Definition producer_submit (s : pipeline) : option pipeline :=
  match producer_task s, record_batches s with
  | PNext, record_batch :: rest =>
      let (name, m) := shm_create Producer record_batch (memory s) in
      Some {| record_batches := rest;
              producer_task := PPut (length (futures s)) name;
              task_queue := task_queue s;
              futures := futures s ++ [Submitted name];
              memory := m;
              consumer := consumer s;
              current_file_size := current_file_size s;
              yielded := yielded s |}
  | _, _ => None
  end.

(** Producer, from the [put], which waits for room in the queue, to the
    [finally] that closes the producer's handle. *)
Definition producer_put (s : pipeline) : option pipeline :=
  match producer_task s with
  | PPut fut name =>
      if length (task_queue s) <? max_workers then
        Some {| record_batches := record_batches s;
                producer_task := PNext;
                task_queue := task_queue s ++ [fut];
                futures := futures s;
                memory := shm_close Producer name (memory s);
                consumer := consumer s;
                current_file_size := current_file_size s;
                yielded := yielded s |}
      else None
  | _ => None
  end.

(** Producer: [async for record_batch in record_batches] raises, the
    iterator having failed in place of giving a batch or of ending. The
    task is done, with that exception. A failure between the creation of
    a region and the [put] is not part of the model. *)
Definition producer_raise (e : exn) (s : pipeline) : option pipeline :=
  match producer_task s with
  | PNext =>
      Some {| record_batches := record_batches s;
              producer_task := PFailed e;
              task_queue := task_queue s;
              futures := futures s;
              memory := memory s;
              consumer := consumer s;
              current_file_size := current_file_size s;
              yielded := yielded s |}
  | _ => None
  end.

(** Producer: the batches are exhausted. *)
Definition producer_return (s : pipeline) : option pipeline :=
  match producer_task s, record_batches s with
  | PNext, [] =>
      Some {| record_batches := [];
              producer_task := PDone;
              task_queue := task_queue s;
              futures := futures s;
              memory := memory s;
              consumer := consumer s;
              current_file_size := current_file_size s;
              yielded := yielded s |}
  | _, _ => None
  end.

Fixpoint set_future (fs : list future) (i : nat) (f : future) : list future :=
  match fs, i with
  | [], _ => []
  | _ :: fs', O => f :: fs'
  | x :: fs', S j => x :: set_future fs' j f
  end.

(** A worker process runs a submitted job to its end. *)
Definition worker_run (fut : nat) (s : pipeline) : option pipeline :=
  match nth_error (futures s) fut with
  | Some (Submitted name) =>
      let (r, m) :=
        transform_record_batch_from_shared_memory name self (memory s) in
      Some {| record_batches := record_batches s;
              producer_task := producer_task s;
              task_queue := task_queue s;
              futures := set_future (futures s) fut (Finished r);
              memory := m;
              consumer := consumer s;
              current_file_size := current_file_size s;
              yielded := yielded s |}
  | _ => None
  end.

(** Consumer: [task_queue.get_nowait()]; on an empty queue, once the
    producer is done, its exception is raised if it has one, and the
    loop ends otherwise. *)
Definition consumer_get (s : pipeline) : option pipeline :=
  match consumer s, task_queue s with
  | CGet, fut :: rest =>
      Some {| record_batches := record_batches s;
              producer_task := producer_task s;
              task_queue := rest;
              futures := futures s;
              memory := memory s;
              consumer := CAwait fut;
              current_file_size := current_file_size s;
              yielded := yielded s |}
  | CGet, [] =>
      match producer_task s with
      | PDone =>
          Some {| record_batches := record_batches s;
                  producer_task := producer_task s;
                  task_queue := [];
                  futures := futures s;
                  memory := memory s;
                  consumer := CDone;
                  current_file_size := current_file_size s;
                  yielded := yielded s |}
      | PFailed e =>
          Some {| record_batches := record_batches s;
                  producer_task := producer_task s;
                  task_queue := [];
                  futures := futures s;
                  memory := memory s;
                  consumer := CRaised e;
                  current_file_size := current_file_size s;
                  yielded := yielded s |}
      | _ => None
      end
  | _, _ => None
  end.

(** The [for chunk in chunks] of the consumer. *)
Fixpoint yield_chunks (chunks : list bytes) (size : Z) : list chunk * Z :=
  match chunks with
  | [] => ([], size)
  | c :: rest =>
      let size := (size + blen c)%Z in
      if over_limit max_file_size_bytes size then
        let (out, size') := yield_chunks rest 0%Z in
        ((c, false) :: ([], true) :: out, size')
      else
        let (out, size') := yield_chunks rest size in
        ((c, false) :: out, size')
  end.

(** Consumer: [chunks = await future], then the chunks are yielded. *)
Definition consumer_await (s : pipeline) : option pipeline :=
  match consumer s with
  | CAwait fut =>
      match nth_error (futures s) fut with
      | Some (Finished (Ok chunks)) =>
          let (out, size) := yield_chunks chunks (current_file_size s) in
          Some {| record_batches := record_batches s;
                  producer_task := producer_task s;
                  task_queue := task_queue s;
                  futures := futures s;
                  memory := memory s;
                  consumer := CGet;
                  current_file_size := size;
                  yielded := yielded s ++ out |}
      | Some (Finished (Raise e)) =>
          Some {| record_batches := record_batches s;
                  producer_task := producer_task s;
                  task_queue := task_queue s;
                  futures := futures s;
                  memory := memory s;
                  consumer := CRaised e;
                  current_file_size := current_file_size s;
                  yielded := yielded s |}
      | _ => None
      end
  | _ => None
  end.

(** One step of the pipeline: any task or worker that can move, moves. *)
Inductive action : Type :=
| ProducerSubmit | ProducerPut | ProducerReturn
| WorkerRun (fut : nat)
| ConsumerGet | ConsumerAwait
| ProducerRaise (e : exn).

Definition perform (a : action) (s : pipeline) : option pipeline :=
  match a with
  | ProducerSubmit => producer_submit s
  | ProducerPut => producer_put s
  | ProducerReturn => producer_return s
  | WorkerRun fut => worker_run fut s
  | ConsumerGet => consumer_get s
  | ConsumerAwait => consumer_await s
  | ProducerRaise e => producer_raise e s
  end.

Inductive step : pipeline -> pipeline -> Prop :=
| step_perform a s s' : perform a s = Some s' -> step s s'.

Inductive steps : pipeline -> pipeline -> Prop :=
| steps_refl s : steps s s
| steps_more s s' s'' : steps s s' -> step s' s'' -> steps s s''.

(** A schedule run from a state, as far as its actions are enabled. *)
Fixpoint run_schedule (sched : list action) (s : pipeline) : option pipeline :=
  match sched with
  | [] => Some s
  | a :: sched' =>
      match perform a s with
      | Some s' => run_schedule sched' s'
      | None => None
      end
  end.
End Pipeline.

(** ** A sample instance of the libraries

    Used to run the definitions on examples. Its bytes are not those of
    the real libraries. As with the brotli encoder, a finished compressor
    refuses further input, [finish] ends the stream with a non-empty
    trailer, and flushing or finishing a finished compressor writes
    nothing. The properties below are proved for every instance. *)

Definition sample_process (st : bytes * bool) (bs : bytes)
  : result (bytes * (bytes * bool)) :=
  if snd st then
    match bs with
    | [] => Ok ([], st)
    | _ => Raise BrotliError
    end
  else Ok ([], (fst st ++ bs, false)).

Definition sample_flush (st : bytes * bool) : result (bytes * (bytes * bool)) :=
  if snd st then Ok ([], st) else Ok (fst st, ([], false)).

Definition sample_finish (st : bytes * bool) : result (bytes * (bytes * bool)) :=
  if snd st then Ok ([], st) else Ok (fst st ++ [x03], ([], true)).

#[export] Instance sample_libs : Libraries := {|
  gzip_compress := fun bs => x1f :: x8b :: bs;
  brotli_state := bytes * bool;
  brotli_Compressor := ([], false);
  brotli_process := sample_process;
  brotli_flush := sample_flush;
  brotli_finish := sample_finish;
  ipc_roundtrip := fun rb => rb;
  stack_limit := 1000
|}.

(** The same, with a compressor that starts with three bytes of stream
    header to write: on the small rows of the examples its output has
    the sizes of the brotli encoder's, eleven bytes for a first row of
    eight and one byte for the trailer that follows a flush. *)
Definition framed_libs : Libraries := {|
  gzip_compress := fun bs => x1f :: x8b :: bs;
  brotli_state := bytes * bool;
  brotli_Compressor := ([x8b; x03; x80], false);
  brotli_process := sample_process;
  brotli_flush := sample_flush;
  brotli_finish := sample_finish;
  ipc_roundtrip := fun rb => rb;
  stack_limit := 1000
|}.

(* ================================================================= *)
(** * Notions used to state the properties *)
(* ================================================================= *)

(** The compression names [compress] knows, after [__init__] has
    normalised the name given. *)
Definition supported_compression (compression : option pystr) : bool :=
  match compression with
  | None | Some [] => true
  | Some name =>
      pystr_eqb (lower name) (u "gzip") || pystr_eqb (lower name) (u "brotli")
  end.

Definition without_column (name : pystr) (cols : list (pystr * list pyval))
  : list (pystr * list pyval) :=
  filter (fun col => negb (pystr_eqb (fst col) name)) cols.

(** What [replace_broken_unicode] amounts to: every surrogate of every
    [str], keys included, becomes [?]; nothing is removed. *)
Definition question_mark : codepoint := 63%N.

Definition scrub_str (s : pystr) : pystr :=
  map (fun c => if is_surrogate c then question_mark else c) s.

Fixpoint scrub (v : pyval) : pyval :=
  match v with
  | PStr s => PStr (scrub_str s)
  | PList l => PList (map scrub l)
  | PDict d =>
      PDict (dict_of_items (map (fun kv => (scrub_str (fst kv), scrub (snd kv))) d))
  | _ => v
  end.

(** Code points are at most U+10FFFF. *)
Definition valid_str (s : pystr) : Prop := Forall (fun c => (c <= 0x10FFFF)%N) s.

Fixpoint valid_val (v : pyval) : Prop :=
  match v with
  | PStr s => valid_str s
  | PObj r => valid_str r
  | PList l => fold_right (fun x acc => valid_val x /\ acc) True l
  | PDict d =>
      fold_right (fun kv acc => valid_str (fst kv) /\ valid_val (snd kv) /\ acc) True d
  | _ => True
  end.

(** What the strict encoder needs of a value once its text is valid:
    nesting within the budget, integers within 64 bits, and no surrogate
    in the [str()] of an object of unknown type. *)
Fixpoint encodable (budget : nat) (v : pyval) {struct v} : bool :=
  match v with
  | PInt z => ((- 2 ^ 63 <=? z) && (z <? 2 ^ 64))%Z
  | PObj r => negb (existsb is_surrogate r)
  | PList l =>
      match budget with
      | O => false
      | S budget' => forallb (encodable budget') l
      end
  | PDict d =>
      match budget with
      | O => false
      | S budget' => forallb (fun kv => encodable budget' (snd kv)) d
      end
  | _ => true
  end.

(** [n] lists around a value *)
Fixpoint nest (n : nat) (v : pyval) : pyval :=
  match n with
  | O => v
  | S n' => PList [nest n' v]
  end.

Definition ends_with_newline (line : bytes) : Prop :=
  exists body, line = body ++ [x0a].

Definition is_ascii (s : pystr) : bool := forallb (fun c => (c <? 128)%N) s.

Definition nonempty (d : pydict) : bool :=
  match d with [] => false | _ => true end.

(** The compression of a transformer whose scheme keeps no state. *)
Definition stateless_compress {libs : Libraries} (t : StreamTransformer)
  : option (bytes -> bytes) :=
  match compression t with
  | None => Some (fun bs => bs)
  | Some name => if pystr_eqb name (u "gzip") then Some gzip_compress else None
  end.

(** A [$web_vitals] event with the nested element the codec knows of,
    and a second property. *)
Definition web_vitals_row (attribution other : pyval) : pydict :=
  [(u "event", PStr (u "$web_vitals"));
   (u "properties",
    PDict [(u "$web_vitals_INP_event", PDict [(u "attribution", attribution)]);
           (u "$web_vitals_LCP_event", other)])].

(** The base-class iteration of a JSONL transformer. *)
Definition sequential {libs : Libraries} (recursion_limit : nat)
           (record_batches : list RecordBatch) (max_file_size_bytes : Z)
  : G StreamTransformer chunk unit :=
  iter_transformed_record_batches (transform_batch recursion_limit) finalize
    record_batches max_file_size_bytes.

(** ** The chunk stream with its chunks told apart

    The same iteration, every chunk marked with where it comes from: a
    fragment of a batch, which is counted; a trailer, from [finalize],
    which is not; a boundary. *)

Inductive emitted : Type :=
| Fragment (c : bytes)
| Trailer (c : bytes)
| Boundary.

Definition chunk_of (e : emitted) : chunk :=
  match e with
  | Fragment c => (c, false)
  | Trailer c => (c, false)
  | Boundary => ([], true)
  end.

Section MarkedController.
Variable T : Type.
Variable transform_batch : T -> RecordBatch -> result (list (T -> result (bytes * T))).
Variable finalize : T -> result (list bytes * T).

Local Open Scope gen_scope.

Fixpoint marked_chunks (max_file_size_bytes : Z)
         (g : list (T -> result (bytes * T))) (current_file_size : Z)
  : G T emitted Z :=
  match g with
  | [] => gret current_file_size
  | next :: g' =>
      c <~ glift next ;;
      gyield (Fragment c) ;;;
      let current_file_size := (current_file_size + blen c)%Z in
      if over_limit max_file_size_bytes current_file_size then
        fin <~ glift finalize ;;
        gyield_all (map Trailer fin) ;;;
        gyield Boundary ;;;
        marked_chunks max_file_size_bytes g' 0%Z
      else marked_chunks max_file_size_bytes g' current_file_size
  end.

Fixpoint marked_batches (max_file_size_bytes : Z)
         (record_batches : list RecordBatch) (current_file_size : Z)
  : G T emitted Z :=
  match record_batches with
  | [] => gret current_file_size
  | rb :: rest =>
      g <~ glift (fun t => g <- transform_batch t rb ;; Ok (g, t)) ;;
      size <~ marked_chunks max_file_size_bytes g current_file_size ;;
      marked_batches max_file_size_bytes rest size
  end.

Definition marked_iter (record_batches : list RecordBatch)
           (max_file_size_bytes : Z) : G T emitted unit :=
  marked_batches max_file_size_bytes record_batches 0%Z ;;;
  fin <~ glift finalize ;;
  gyield_all (map Trailer fin).

(** The iteration as the specification words it: the size is compared
    once the fragments of a batch are exhausted. *)
Fixpoint checked_per_batch (max_file_size_bytes : Z)
         (record_batches : list RecordBatch) (current_file_size : Z)
  : G T chunk Z :=
  match record_batches with
  | [] => gret current_file_size
  | rb :: rest =>
      g <~ glift (fun t => g <- transform_batch t rb ;; Ok (g, t)) ;;
      size <~ for_chunks finalize 0 g current_file_size ;;
      if over_limit max_file_size_bytes size then
        fin <~ glift finalize ;;
        gyield_all (map not_boundary fin) ;;;
        gyield ([], true) ;;;
        checked_per_batch max_file_size_bytes rest 0%Z
      else checked_per_batch max_file_size_bytes rest size
  end.
End MarkedController.

(** The shape of a marked stream for a limit [max], from a counter value:
    a fragment that does not take the counter over the limit is followed
    by the rest of the stream; one that does is followed by the trailers
    of [finalize] and one boundary, after which the counter is zero,
    unless [finalize] raised and the stream stops there; the stream may
    end with the trailers of the last [finalize]. *)
Inductive segmented (max : Z) : Z -> list emitted -> Prop :=
| segmented_end size fin : segmented max size (map Trailer fin)
| segmented_under size c rest :
    over_limit max (size + blen c) = false ->
    segmented max (size + blen c) rest ->
    segmented max size (Fragment c :: rest)
| segmented_over size c fin rest :
    over_limit max (size + blen c) = true ->
    segmented max 0 rest ->
    segmented max size (Fragment c :: map Trailer fin ++ Boundary :: rest)
| segmented_raised size c :
    over_limit max (size + blen c) = true ->
    segmented max size [Fragment c].

(** The fragments, trailers left out, of the runs between boundaries: the
    closed runs, each ended by a boundary, and the last, open one. *)
Fixpoint runs (tr : list emitted) (current : list bytes)
  : list (list bytes) * list bytes :=
  match tr with
  | [] => ([], current)
  | Fragment c :: tr' => runs tr' (current ++ [c])
  | Trailer _ :: tr' => runs tr' current
  | Boundary :: tr' => let (closed, last) := runs tr' [] in (current :: closed, last)
  end.

Definition total (cs : list bytes) : Z :=
  fold_right (fun c acc => (blen c + acc)%Z) 0%Z cs.

(** The non-boundary payload between boundaries, as the stream shows it. *)
Fixpoint payload_runs (out : list chunk) (current : Z) : list Z * Z :=
  match out with
  | [] => ([], current)
  | (c, false) :: out' => payload_runs out' (current + blen c)
  | (_, true) :: out' =>
      let (closed, last) := payload_runs out' 0 in (current :: closed, last)
  end.

(** A closed run went over the limit with its last fragment only. *)
Definition closed_by_last (max : Z) (run : list bytes) : Prop :=
  exists pre c,
    run = pre ++ [c]
    /\ (total pre <= max)%Z
    /\ (max < total run <= max + blen c)%Z.

(** Two rows, [{"a":1}] and [{"a":2}], of eight bytes each once written. *)
Definition two_rows : RecordBatch :=
  {| num_rows := 2; columns := [(u "a", [PInt 1; PInt 2])] |}.

Definition line_a (digit : byte) : bytes :=
  [x7b; x22; x61; x22; x3a; digit; x7d; x0a].

(** ** Notions for the pipeline *)

Definition party_eqb (p q : party) : bool :=
  match p, q with
  | Producer, Producer | Worker, Worker => true
  | _, _ => false
  end.

(** How many times [who] has unlinked the region [name]. *)
Definition unlinked_by (who : party) (name : nat) (calls : list shm_call) : nat :=
  length (filter (fun c => match c with
                           | ShmUnlink w n => party_eqb w who && (n =? name)
                           | _ => false
                           end) calls).

(** How many times [who] has closed its handle on the region [name]. *)
Definition closed_by (who : party) (name : nat) (calls : list shm_call) : nat :=
  length (filter (fun c => match c with
                           | ShmClose w n => party_eqb w who && (n =? name)
                           | _ => false
                           end) calls).

(** What the consumer yields for the chunk lists of successive jobs. *)
Fixpoint consume (max_file_size_bytes : Z) (results : list (list bytes)) (size : Z)
  : list chunk * Z :=
  match results with
  | [] => ([], size)
  | chunks :: rest =>
      let (out, size1) := yield_chunks max_file_size_bytes chunks size in
      let (out', size2) := consume max_file_size_bytes rest size1 in
      (out ++ out', size2)
  end.

Section PipelineNotions.
Context {libs : Libraries}.
Variable recursion_limit : nat.
Variable cast_record_batch_json_columns : RecordBatch -> RecordBatch.
Variable self : StreamTransformer.

(** [list(transformer.transform_batch(record_batch))] *)
Definition transformed (rb : RecordBatch) : result (list bytes) :=
  g <- transform_batch recursion_limit self rb ;;
  out <- run_generator g self ;;
  Ok (fst out).

(** The batch a worker works on, for the batch the producer wrote. *)
Definition received (rb : RecordBatch) : RecordBatch :=
  cast_record_batch_json_columns (ipc_roundtrip rb).

(** What the worker returns for the batch the producer wrote: the
    chunks, or the [BufferError] of its [close]. *)
Definition job_result (rb : RecordBatch) : result (list bytes) :=
  match transformed (received rb) with
  | Ok chunks => Ok chunks
  | Raise _ => Raise BufferError
  end.

(** The closes, and the unlinks, of a worker that has run on the batch. *)
Definition released (rb : RecordBatch) : nat :=
  if is_ok (transformed (received rb)) then 1 else 0.

(** The state of job [i], for batch [rb], is one of two: submitted, its
    region linked, the worker having neither closed nor unlinked; or
    finished with what the worker returns, the region closed and
    unlinked by the worker, once, when the transformation succeeded, and
    left as it was when it failed. *)
Definition job_state (i : nat) (rb : RecordBatch) (s : pipeline) : Prop :=
  (nth_error (futures s) i = Some (Submitted i)
   /\ nth_error (regions (memory s)) i = Some {| buf := rb; linked := true |}
   /\ unlinked_by Worker i (calls (memory s)) = 0
   /\ closed_by Worker i (calls (memory s)) = 0)
  \/ (nth_error (futures s) i = Some (Finished (job_result rb))
      /\ nth_error (regions (memory s)) i
         = Some {| buf := rb;
                   linked := negb (is_ok (transformed (received rb))) |}
      /\ unlinked_by Worker i (calls (memory s)) = released rb
      /\ closed_by Worker i (calls (memory s)) = released rb).

Definition awaited (c : consumer_state) : nat :=
  match c with
  | CAwait _ | CRaised _ => 1
  | _ => 0
  end.

Definition enqueued (s : pipeline) : nat :=
  match producer_task s with
  | PPut fut _ => fut
  | _ => length (futures s)
  end.

Variable max_file_size_bytes : Z.

(** What holds of every state the pipeline reaches from [start batches]:
    [done] jobs have been consumed, in the order of the batches. *)
Record invariant (batches : list RecordBatch) (s : pipeline) (done : nat)
  : Prop := {
  inv_input : record_batches s = skipn (length (futures s)) batches;
  inv_submitted : length (futures s) <= length batches;
  inv_regions : length (regions (memory s)) = length (futures s);
  inv_jobs : forall i rb, nth_error batches i = Some rb ->
                          i < length (futures s) -> job_state i rb s;
  inv_producer_unlinks :
    forall name, unlinked_by Producer name (calls (memory s)) = 0;
  inv_producer_closes :
    forall name, closed_by Producer name (calls (memory s))
                 = if name <? enqueued s then 1 else 0;
  inv_fresh : forall name, length (futures s) <= name ->
                           unlinked_by Worker name (calls (memory s)) = 0
                           /\ closed_by Worker name (calls (memory s)) = 0;
  inv_creator : forall who name, In (ShmCreate who name) (calls (memory s)) ->
                                 who = Producer;
  inv_queue : task_queue s
              = seq (done + awaited (consumer s))
                    (enqueued s - (done + awaited (consumer s)));
  inv_queue_bound : length (task_queue s) <= max_workers;
  inv_queue_le : (forall e, consumer s <> CRaised e) ->
                 done + awaited (consumer s) <= enqueued s;
  inv_done_le : done <= enqueued s;
  inv_put : forall fut name, producer_task s = PPut fut name ->
                             fut = name /\ S fut = length (futures s);
  inv_await : forall fut, consumer s = CAwait fut -> fut = done;
  inv_return : producer_task s = PDone -> record_batches s = [];
  inv_done : consumer s = CDone -> producer_task s = PDone /\ task_queue s = [];
  inv_consumed : forall i, i < done ->
                           exists chunks,
                             nth_error (futures s) i = Some (Finished (Ok chunks));
  inv_raised : forall e, consumer s = CRaised e ->
                         (nth_error (futures s) done = Some (Finished (Raise e))
                          /\ done < enqueued s)
                         \/ (producer_task s = PFailed e
                             /\ done = length (futures s)
                             /\ task_queue s = []);
  inv_yielded :
    exists results,
      mapM (fun rb => transformed (received rb)) (firstn done batches) = Ok results
      /\ consume max_file_size_bytes results 0 = (yielded s, current_file_size s)
}.
End PipelineNotions.

(** Nothing is in flight: the producer is between two batches, the queue
    is empty and the consumer is about to look at it. *)
Definition quiescent {libs : Libraries} (s : pipeline) : Prop :=
  producer_task s = PNext
  /\ task_queue s = []
  /\ consumer s = CGet
  /\ length (regions (memory s)) = length (futures s).

(** One batch taken through the pipeline on its own. *)
Definition one_batch (fut : nat) : list action :=
  [ProducerSubmit; ProducerPut; WorkerRun fut; ConsumerGet; ConsumerAwait].

Definition no_trailer (e : emitted) : Prop :=
  match e with Trailer _ => False | _ => True end.

(** ** [JSONLStreamTransformer.iter_transformed_record_batches]

    With brotli, the method of the base class; otherwise the pipeline,
    run until the consumer is done. *)
Inductive JSONL_iter_transformed_record_batches
          {libs : Libraries} (recursion_limit : nat)
          (cast_record_batch_json_columns : RecordBatch -> RecordBatch)
          (self : StreamTransformer) (max_file_size_bytes : Z)
          (record_batches : list RecordBatch) : list chunk -> Prop :=
| iter_super out t :
    compression_is self "brotli" = true ->
    sequential recursion_limit record_batches max_file_size_bytes self
    = (out, Ok (tt, t)) ->
    JSONL_iter_transformed_record_batches recursion_limit
      cast_record_batch_json_columns self max_file_size_bytes record_batches out
| iter_pipeline s :
    compression_is self "brotli" = false ->
    steps recursion_limit cast_record_batch_json_columns self max_file_size_bytes
          (start record_batches) s ->
    consumer s = CDone ->
    JSONL_iter_transformed_record_batches recursion_limit
      cast_record_batch_json_columns self max_file_size_bytes record_batches
      (yielded s).


(* ================================================================= *)
(** * More of the module, and what is said of it *)
(* ================================================================= *)

(** ** Well-formed values *)

(** No surrogate in any [str] of the value, keys included. *)
Fixpoint text_clean (v : pyval) : bool :=
  match v with
  | PStr s => negb (existsb is_surrogate s)
  | PList l => forallb text_clean l
  | PDict d =>
      forallb (fun kv => negb (existsb is_surrogate (fst kv)) && text_clean (snd kv)) d
  | _ => true
  end.

(** The keys of a dictionary are distinct, at every level. *)
Fixpoint unique_keys (v : pyval) : Prop :=
  match v with
  | PList l => fold_right (fun x acc => unique_keys x /\ acc) True l
  | PDict d =>
      NoDup (map fst d)
      /\ fold_right (fun kv acc => unique_keys (snd kv) /\ acc) True d
  | _ => True
  end.

Definition is_ascii_bytes (bs : bytes) : bool :=
  forallb (fun x => (Byte.to_N x <? 128)%N) bs.

(** ** Regions in use, and moves left *)

(** The regions that exist under a name. *)
Definition linked_regions (m : shared_memory) : nat :=
  length (filter linked (regions m)).

Definition is_submitted (f : future) : bool :=
  match f with
  | Submitted _ => true
  | Finished _ => false
  end.

(** The moves left to the producer, the workers and the consumer: five
    for a batch not yet submitted (submit, put, run, get, await); for the
    producer its return or its failure, and the put, get and await of the
    job it holds;
    two for a future of the queue; for the consumer the await of the job
    it holds and the last, empty, get; one for a job not yet run. *)
Definition moves_left (s : pipeline) : nat :=
  5 * length (record_batches s)
  + match producer_task s with
    | PNext => 1
    | PPut _ _ => 4
    | PDone | PFailed _ => 0
    end
  + 2 * length (task_queue s)
  + match consumer s with
    | CGet => 1
    | CAwait _ => 2
    | CDone | CRaised _ => 0
    end
  + length (filter is_submitted (futures s)).

(** ** [ParquetStreamTransformer]

    [pyarrow.parquet.ParquetWriter] over a file object: what a call
    writes to the file, and the writer after the call. The writer keeps
    count of what it has written by itself, so that emptying the file
    object between two calls does not change what it writes next. *)

Class ParquetLibrary : Type := {
  writer_state : Type;
  pq_ParquetWriter : Schema -> pystr -> option Z -> result (bytes * writer_state);
  pq_write_batch : writer_state -> RecordBatch -> result (bytes * writer_state);
  pq_close : writer_state -> result bytes
}.

Section Parquet.
Context {libs : Libraries} {pq : ParquetLibrary}.

(** The writer object, with the [schema] it was made for. *)
Record ParquetWriter : Type := {
  writer_schema : Schema;
  writer : writer_state
}.

(** The object: the attributes of the base class, and its own. The
    buffer is written at its end: it is emptied with its position set
    to zero, or replaced by a new one. *)
Record ParquetTransformer : Type := {
  base : StreamTransformer;
  schema : Schema;
  compression_level : option Z;
  _parquet_writer : option ParquetWriter;
  _parquet_buffer : bytes
}.

(** [__init__] *)
Definition new_parquet_transformer
           (schema : Schema) (compression : option pystr)
           (compression_level : option Z) (include_inserted_at : bool)
  : ParquetTransformer :=
  {| base := new_transformer (ParquetStreamTransformer schema) compression
                             include_inserted_at;
     schema := schema;
     compression_level := compression_level;
     _parquet_writer := None;
     _parquet_buffer := [] |}.

Definition set_parquet (t : ParquetTransformer) (b : StreamTransformer)
           (w : option ParquetWriter) (buffer : bytes) : ParquetTransformer :=
  {| base := b;
     schema := schema t;
     compression_level := compression_level t;
     _parquet_writer := w;
     _parquet_buffer := buffer |}.

(** ["none" if self.compression is None else self.compression] *)
Definition codec (b : StreamTransformer) : pystr :=
  match compression b with
  | None => u "none"
  | Some c => c
  end.

(** The [parquet_writer] property: created on first use, over the
    buffer. *)
Definition parquet_writer (t : ParquetTransformer)
  : result (ParquetWriter * ParquetTransformer) :=
  match _parquet_writer t with
  | Some w => Ok (w, t)
  | None =>
      r <- pq_ParquetWriter (schema t) (codec (base t)) (compression_level t) ;;
      let w := {| writer_schema := schema t; writer := snd r |} in
      Ok (w, set_parquet t (base t) (Some w) (_parquet_buffer t ++ fst r))
  end.

(** [write_batch]: a generator of one chunk, what the buffer holds once
    the batch is written; the buffer is emptied. *)
Definition parquet_write_batch (record_batch : RecordBatch)
  : list (ParquetTransformer -> result (bytes * ParquetTransformer)) :=
  [fun t =>
     r <- parquet_writer t ;;
     names <- (r' <- parquet_writer (snd r) ;; Ok (writer_schema (fst r'))) ;;
     selected <- select record_batch names ;;
     written <- pq_write_batch (writer (fst r)) selected ;;
     let data := _parquet_buffer (snd r) ++ fst written in
     Ok (data,
         set_parquet (snd r) (base (snd r))
                     (Some {| writer_schema := writer_schema (fst r);
                              writer := snd written |})
                     [])].

(** [transform_batch], inherited, over this [write_batch]. *)
Definition parquet_transform_batch (t : ParquetTransformer) (rb : RecordBatch)
  : result (list (ParquetTransformer -> result (bytes * ParquetTransformer))) :=
  names <- (if include_inserted_at (base t) then Ok (column_names rb)
            else i <- index (column_names rb) (u "_inserted_at") ;;
                 Ok (pop (column_names rb) i)) ;;
  selected <- select rb names ;;
  Ok (parquet_write_batch selected).

(** [finalize], run to its end: what the base class yields, then what
    closing the writer leaves in the buffer, unless it is empty. When it
    raises, what it had yielded is not kept. *)
Definition parquet_finalize (t : ParquetTransformer)
  : result (list bytes * ParquetTransformer) :=
  r <- finalize (base t) ;;
  match _parquet_writer t with
  | None => Ok (fst r, set_parquet t (snd r) None (_parquet_buffer t))
  | Some w =>
      footer <- pq_close (writer w) ;;
      let final_data := _parquet_buffer t ++ footer in
      Ok (fst r ++ match final_data with
                   | [] => []
                   | _ => [final_data]
                   end,
          set_parquet t (snd r) None [])
  end.

(** [iter_transformed_record_batches], inherited. *)
Definition parquet_iter (record_batches : list RecordBatch)
           (max_file_size_bytes : Z) : G ParquetTransformer chunk unit :=
  iter_transformed_record_batches parquet_transform_batch parquet_finalize
    record_batches max_file_size_bytes.

(** What a writer writes for batches written one after the other. *)
Fixpoint pq_write_all (w : writer_state) (batches : list RecordBatch)
  : result (bytes * writer_state) :=
  match batches with
  | [] => Ok ([], w)
  | rb :: rest =>
      r <- pq_write_batch w rb ;;
      r' <- pq_write_all (snd r) rest ;;
      Ok (fst r ++ fst r', snd r')
  end.

(** The file of a writer that is made, given the batches and closed,
    over a file object that is left alone. *)
Definition parquet_file (schema : Schema) (codec : pystr)
           (compression_level : option Z) (batches : list RecordBatch)
  : result bytes :=
  r <- pq_ParquetWriter schema codec compression_level ;;
  r' <- pq_write_all (snd r) batches ;;
  footer <- pq_close (snd r') ;;
  Ok (fst r ++ fst r' ++ footer).

(** The bytes between two boundaries are the file of the batches of a
    group; for no batch, there is no byte. *)
Definition holds_file (schema : Schema) (codec : pystr)
           (compression_level : option Z)
           (group : list RecordBatch) (segment : list bytes) : Prop :=
  match group with
  | [] => segment = []
  | _ => parquet_file schema codec compression_level group = Ok (concat segment)
  end.
End Parquet.

(** The batch as the writer is given it: the columns [transform_batch]
    keeps, then those of the schema. *)
Definition prepared (include_inserted_at : bool) (schema : Schema)
           (rb : RecordBatch) : result RecordBatch :=
  names <- (if include_inserted_at then Ok (column_names rb)
            else i <- index (column_names rb) (u "_inserted_at") ;;
                 Ok (pop (column_names rb) i)) ;;
  selected <- select rb names ;;
  select selected schema.

(** A file is being written: no writer yet and nothing written, or a
    writer that was given the batches [current], the file holding
    [written] so far. *)
Definition file_open {pq : ParquetLibrary} (schema : Schema) (codec : pystr)
           (compression_level : option Z) (w : option ParquetWriter)
           (current : list RecordBatch) (written : bytes) : Prop :=
  match w with
  | None => current = [] /\ written = []
  | Some w =>
      writer_schema w = schema
      /\ current <> []
      /\ exists header w0 body,
          pq_ParquetWriter schema codec compression_level = Ok (header, w0)
          /\ pq_write_all w0 current = Ok (body, writer w)
          /\ written = header ++ body
  end.

(** The file being written is ended by the batches of [group], which
    take the bytes of [segment]. *)
Definition file_closed {pq : ParquetLibrary} (schema : Schema) (codec : pystr)
           (compression_level : option Z)
           (current : list RecordBatch) (written : bytes)
           (group : list RecordBatch) (segment : list bytes) : Prop :=
  match current ++ group with
  | [] => segment = []
  | all => parquet_file schema codec compression_level all
           = Ok (written ++ concat segment)
  end.

(** The stream made of segments, a boundary between two of them. *)
Fixpoint joined (segments : list (list bytes)) : list chunk :=
  match segments with
  | [] => []
  | [segment] => map not_boundary segment
  | segment :: rest => map not_boundary segment ++ ([], true) :: joined rest
  end.

(** A sample writer: a four-byte magic number at both ends of the file,
    and a byte a batch, its number of rows. *)
Definition sample_magic : bytes := [x50; x41; x52; x31].

#[export] Instance sample_parquet : ParquetLibrary := {|
  writer_state := unit;
  pq_ParquetWriter := fun _ _ _ => Ok (sample_magic, tt);
  pq_write_batch := fun _ rb => Ok ([byte_of_N (N.of_nat (num_rows rb))], tt);
  pq_close := fun _ => Ok sample_magic
|}.

(** ** One brotli stream *)

(** What a compressor returns when it is given lines one by one and
    flushed after each. *)
Fixpoint brotli_flushes {libs : Libraries} (c : brotli_state) (lines : list bytes)
  : result (list bytes * brotli_state) :=
  match lines with
  | [] => Ok ([], c)
  | line :: rest =>
      r1 <- brotli_process c line ;;
      r2 <- brotli_flush (snd r1) ;;
      r <- brotli_flushes (snd r2) rest ;;
      Ok (fst r2 :: fst r, snd r)
  end.

(* ================================================================= *)
(** * Part II. Properties *)
(* ================================================================= *)

Unset Implicit Arguments.

(** ** Strings and results *)

Lemma pystr_eqb_eq (s t : pystr) : pystr_eqb s t = true <-> s = t.
Proof.
  unfold pystr_eqb. destruct (list_eq_dec N.eq_dec s t); split; congruence.
Qed.

Lemma pystr_eqb_refl (s : pystr) : pystr_eqb s s = true.
Proof. now apply pystr_eqb_eq. Qed.

Lemma pystr_eqb_neq (s t : pystr) : pystr_eqb s t = false <-> s <> t.
Proof.
  unfold pystr_eqb. destruct (list_eq_dec N.eq_dec s t); split; congruence.
Qed.

Lemma rbind_ok {A B} (r : result A) (k : A -> result B) (y : B) :
  rbind r k = Ok y -> exists a, r = Ok a /\ k a = Ok y.
Proof. destruct r; simpl; intros H; [eauto | discriminate]. Qed.

(** ** The factory (C2) *)

Section Factory.
Context {libs : Libraries}.

Lemma compress_unsupported (t : StreamTransformer) (name : pystr) (bs : bytes) :
  compression t = Some name ->
  name <> u "gzip" -> name <> u "brotli" ->
  compress t (CBytes bs)
  = Raise (ValueError (u "Unsupported compression: '" ++ name ++ u "'")).
Proof.
  intros Hc Hg Hb. unfold compress. simpl. rewrite Hc.
  apply pystr_eqb_neq in Hg, Hb. now rewrite Hg, Hb.
Qed.

Lemma new_transformer_compression cls c s incl :
  compression (new_transformer cls (Some (c :: s)) incl) = Some (lower (c :: s)).
Proof. reflexivity. Qed.
End Factory.

(** C2, as the code has it: an unsupported format, and the Parquet format
    without a schema, raise [ValueError] from the factory; a compression
    name is not looked at by the factory, which returns a transformer for
    any name, and an unsupported one raises [ValueError] from [compress],
    when the first row is written. *)
Theorem get_stream_transformer_errors
        {libs : Libraries} (format : pystr) (compression : option pystr)
        (schema : option Schema) (include_inserted_at : bool) :
  (lower format <> u "jsonlines" -> lower format <> u "parquet" ->
   get_stream_transformer format compression schema include_inserted_at
   = Raise (ValueError (u "Unsupported format: " ++ format)))
  /\ (lower format = u "parquet" -> schema = None ->
      get_stream_transformer format compression schema include_inserted_at
      = Raise (ValueError (u "Schema is required for Parquet")))
  /\ (lower format = u "jsonlines" ->
      exists t,
        get_stream_transformer format compression schema include_inserted_at = Ok t
        /\ class_of t = JSONLStreamTransformer
        /\ (supported_compression compression = false ->
            forall (limit : nat) (d : pydict) (line : bytes),
              encode_row limit d = Ok line ->
              exists msg, _write_dict limit d t = Raise (ValueError msg)))
  /\ (lower format = u "parquet" -> forall sch, schema = Some sch ->
      exists t,
        get_stream_transformer format compression schema include_inserted_at = Ok t
        /\ class_of t = ParquetStreamTransformer sch).
Proof.
  unfold get_stream_transformer. repeat split.
  - intros Hj Hp. apply pystr_eqb_neq in Hj, Hp. now rewrite Hj, Hp.
  - intros Hp ->. rewrite Hp. reflexivity.
  - intros Hj. rewrite Hj, pystr_eqb_refl. eexists. split; [reflexivity|].
    split; [reflexivity|].
    intros Hs limit d line Hline.
    destruct compression as [[|c s]|]; try discriminate.
    unfold supported_compression in Hs.
    apply orb_false_iff in Hs. destruct Hs as [Hg Hb].
    apply pystr_eqb_neq in Hg, Hb.
    unfold _write_dict, _write. rewrite Hline. simpl rbind.
    eexists. apply compress_unsupported; [reflexivity | assumption | assumption].
  - intros Hp sch ->. rewrite Hp. simpl. eexists. split; reflexivity.
Qed.

Lemma get_stream_transformer_errors_witness :
  @get_stream_transformer sample_libs (u "XML") (Some (u "gzip")) None false
  = Raise (ValueError (u "Unsupported format: XML"))
  /\ @get_stream_transformer sample_libs (u "Parquet") None None false
     = Raise (ValueError (u "Schema is required for Parquet"))
  /\ exists msg,
      rbind (@get_stream_transformer sample_libs (u "JSONLines") (Some (u "zstd")) None false)
            (_write_dict 255 [(u "a", PInt 1)])
      = Raise (ValueError msg).
Proof.
  pose proof (@get_stream_transformer_errors sample_libs (u "XML")
                (Some (u "gzip")) None false) as [H1 _].
  pose proof (@get_stream_transformer_errors sample_libs (u "Parquet")
                None None false) as [_ [H2 _]].
  pose proof (@get_stream_transformer_errors sample_libs (u "JSONLines")
                (Some (u "zstd")) None false) as [_ [_ [H3 _]]].
  split; [apply H1; vm_compute; discriminate|].
  split; [apply H2; reflexivity|].
  destruct (H3 eq_refl) as [t [Ht [_ Hw]]].
  rewrite Ht. simpl rbind.
  apply (Hw eq_refl 255%nat [(u "a", PInt 1)] (b "{" ++ [x22] ++ b "a" ++ [x22] ++ b ":1}" ++ [x0a])).
  vm_compute. reflexivity.
Defined.

(** C2 as stated fails: the factory accepts a compression name that
    [compress] does not know. *)
Lemma get_stream_transformer_accepts_unknown_compression :
  supported_compression (Some (u "zstd")) = false
  /\ @get_stream_transformer sample_libs (u "jsonlines") (Some (u "zstd")) None false
     = Ok {| class_of := JSONLStreamTransformer;
             compression := Some (u "zstd");
             include_inserted_at := false;
             _brotli_compressor := None |}.
Proof. split; vm_compute; reflexivity. Qed.

(** ** Dropping the [_inserted_at] column (C10) *)

Lemma index_absent (names : list pystr) (x : pystr) :
  ~ In x names ->
  index names x = Raise (ValueError (u "'" ++ x ++ u "' is not in list")).
Proof.
  induction names as [|n names IH]; simpl; intros Hn; [reflexivity|].
  destruct (pystr_eqb n x) eqn:E.
  - apply pystr_eqb_eq in E. exfalso. apply Hn. now left.
  - rewrite IH; [reflexivity | tauto].
Qed.

Lemma index_present (names : list pystr) (x : pystr) :
  In x names -> exists i, index names x = Ok i /\ nth_error names i = Some x.
Proof.
  induction names as [|n names IH]; simpl; intros Hin; [contradiction|].
  destruct (pystr_eqb n x) eqn:E.
  - apply pystr_eqb_eq in E. subst. exists O. now split.
  - destruct Hin as [->|Hin]; [now rewrite pystr_eqb_refl in E|].
    destruct (IH Hin) as [i [Hi Hn]]. exists (S i). rewrite Hi. now split.
Qed.

Lemma pop_index_columns (cols : list (pystr * list pyval)) (x : pystr) (i : nat) :
  NoDup (map fst cols) ->
  index (map fst cols) x = Ok i ->
  pop (map fst cols) i = map fst (without_column x cols).
Proof.
  revert i. induction cols as [|[n vs] cols IH]; simpl; intros i Hnd Hi;
    [discriminate|].
  inversion Hnd as [|? ? Hnotin Hnd']; subst.
  destruct (pystr_eqb n x) eqn:E; simpl.
  - injection Hi as <-. apply pystr_eqb_eq in E. subst n.
    clear IH Hnd. induction cols as [|[m ws] cols IH]; simpl; [reflexivity|].
    simpl in Hnotin.
    destruct (pystr_eqb m x) eqn:E'.
    + apply pystr_eqb_eq in E'. subst. tauto.
    + simpl. f_equal. apply IH.
      * tauto.
      * now inversion Hnd'.
  - destruct (index (map fst cols) x) as [j|] eqn:Hj; simpl in Hi; [|discriminate].
    injection Hi as <-. f_equal. now apply IH.
Qed.

Lemma field_indices_unique (rb : RecordBatch) (col : pystr * list pyval) :
  NoDup (column_names rb) -> In col (columns rb) ->
  field_indices rb (fst col) = [col].
Proof.
  unfold field_indices, column_names.
  induction (columns rb) as [|c cols IH]; simpl; intros Hnd Hin; [contradiction|].
  inversion Hnd as [|? ? Hnotin Hnd']; subst.
  destruct Hin as [->|Hin].
  - rewrite pystr_eqb_refl. f_equal.
    clear IH Hnd Hnd'. induction cols as [|c' cols IH]; simpl; [reflexivity|].
    simpl in Hnotin. destruct (pystr_eqb (fst c') (fst col)) eqn:E.
    + apply pystr_eqb_eq in E. tauto.
    + apply IH. tauto.
  - destruct (pystr_eqb (fst c) (fst col)) eqn:E.
    + apply pystr_eqb_eq in E. exfalso. apply Hnotin. rewrite E.
      now apply in_map.
    + now apply IH.
Qed.

Lemma select_sublist (rb : RecordBatch) (l : list (pystr * list pyval)) :
  NoDup (column_names rb) -> incl l (columns rb) ->
  select rb (map fst l) = Ok {| num_rows := num_rows rb; columns := l |}.
Proof.
  intros Hnd Hincl. unfold select.
  assert (H : mapM (select_column rb) (map fst l) = Ok l).
  { induction l as [|c l IH]; simpl; [reflexivity|].
    unfold select_column at 1.
    rewrite field_indices_unique by (auto; apply Hincl; now left). simpl.
    rewrite IH; [reflexivity|]. intros y Hy. apply Hincl. now right. }
  now rewrite H.
Qed.

Lemma without_column_names (x : pystr) (cols : list (pystr * list pyval)) :
  ~ In x (map fst (without_column x cols)).
Proof.
  unfold without_column. intros Hin. apply in_map_iff in Hin.
  destruct Hin as [c [Hc Hin]]. apply filter_In in Hin. destruct Hin as [_ Hf].
  subst. now rewrite pystr_eqb_refl in Hf.
Qed.

(** C10: without [include_inserted_at], a batch with no [_inserted_at]
    column makes [transform_batch] raise the [ValueError] of [list.index];
    a batch that has the column is written without it. *)
Theorem transform_batch_drops_inserted_at
        {libs : Libraries} (limit : nat) (t : StreamTransformer) (rb : RecordBatch) :
  include_inserted_at t = false ->
  (~ In (u "_inserted_at") (column_names rb) ->
   transform_batch limit t rb
   = Raise (ValueError (u "'_inserted_at' is not in list")))
  /\ (In (u "_inserted_at") (column_names rb) ->
      NoDup (column_names rb) ->
      let selected :=
        {| num_rows := num_rows rb;
           columns := without_column (u "_inserted_at") (columns rb) |} in
      transform_batch limit t rb = Ok (write_batch limit selected)
      /\ ~ In (u "_inserted_at") (column_names selected)).
Proof.
  intros Hinc. unfold transform_batch. rewrite Hinc. split.
  - intros Hn. now rewrite (index_absent _ _ Hn).
  - intros Hin Hnd.
    destruct (index_present _ _ Hin) as [i [Hi _]]. rewrite Hi. simpl rbind.
    unfold column_names in *.
    rewrite (pop_index_columns _ _ _ Hnd Hi).
    rewrite select_sublist.
    + split; [reflexivity|]. apply without_column_names.
    + exact Hnd.
    + intros c Hc. unfold without_column in Hc. now apply filter_In in Hc.
Qed.

Lemma transform_batch_drops_inserted_at_witness :
  let t := @new_transformer sample_libs JSONLStreamTransformer None false in
  transform_batch 255 t {| num_rows := 1; columns := [(u "a", [PInt 1])] |}
  = Raise (ValueError (u "'_inserted_at' is not in list"))
  /\ transform_batch 255 t
       {| num_rows := 1;
          columns := [(u "a", [PInt 1]); (u "_inserted_at", [PInt 7])] |}
     = Ok (write_batch 255 {| num_rows := 1; columns := [(u "a", [PInt 1])] |}).
Proof.
  intros t. split.
  - apply (@transform_batch_drops_inserted_at sample_libs 255 t
             {| num_rows := 1; columns := [(u "a", [PInt 1])] |} eq_refl).
    vm_compute. intros [H|[]]. discriminate.
  - apply (@transform_batch_drops_inserted_at sample_libs 255 t
             {| num_rows := 1;
                columns := [(u "a", [PInt 1]); (u "_inserted_at", [PInt 7])] |}
             eq_refl).
    + vm_compute. right. left. reflexivity.
    + repeat constructor; vm_compute; intuition discriminate.
Defined.

(** ** Finishing the brotli compressor (C5) *)

Section Brotli.
Context {libs : Libraries}.

Lemma finish_brotli_compressor_not_brotli (t : StreamTransformer) :
  compression_is t "brotli" = false ->
  finish_brotli_compressor t
  = Raise (ValueError (u "Compression is '" ++ compression_repr t
                         ++ u "', not 'brotli'")).
Proof. intros H. unfold finish_brotli_compressor. now rewrite H. Qed.

Lemma finalize_not_brotli (t : StreamTransformer) :
  compression_is t "brotli" = false -> finalize t = Ok ([], t).
Proof. intros H. unfold finalize. now rewrite H. Qed.

Lemma brotli_compressor_set (t : StreamTransformer) (c : option brotli_state) :
  fst (brotli_compressor (set_brotli t c))
  = match c with Some x => x | None => brotli_Compressor end.
Proof. unfold brotli_compressor. simpl. now destruct c. Qed.

Lemma brotli_compressor_snd (t : StreamTransformer) :
  snd (brotli_compressor t) = set_brotli t (Some (fst (brotli_compressor t))).
Proof.
  unfold brotli_compressor. destruct t as [cl co inc [c|]]; reflexivity.
Qed.
End Brotli.

(** C5, evaluated on the code: with brotli configured,
    [finish_brotli_compressor] flushes the compressor and discards it, so
    the next use creates a new one; [finalize] flushes it as well and
    keeps the finished object in place, so the next use gets that
    finished compressor, not a new one. *)
Theorem finalize_keeps_finished_compressor
        {libs : Libraries} (t : StreamTransformer) (out : bytes)
        (c c' : brotli_state) :
  compression_is t "brotli" = true ->
  fst (brotli_compressor t) = c ->
  brotli_finish c = Ok (out, c') ->
  (exists t', finalize t = Ok ([out], t')
              /\ _brotli_compressor t' = Some c'
              /\ fst (brotli_compressor t') = c')
  /\ (exists t'', finish_brotli_compressor t = Ok ([out], t'')
                  /\ _brotli_compressor t'' = None
                  /\ fst (brotli_compressor t'') = brotli_Compressor).
Proof.
  intros Hb Hc Hf. unfold finalize, finish_brotli_compressor. rewrite Hb. simpl negb.
  cbv iota.
  destruct (brotli_compressor t) as [c0 t0] eqn:E. simpl in Hc. subst c0.
  rewrite Hf. simpl rbind. split; eexists; (split; [reflexivity|]); split;
    try reflexivity; apply brotli_compressor_set.
Qed.

Lemma finalize_keeps_finished_compressor_witness :
  let t := @new_transformer sample_libs JSONLStreamTransformer (Some (u "brotli")) false in
  (exists t', finalize t = Ok ([[x03]], t')
              /\ _brotli_compressor t' = Some ([], true)
              /\ compress t' (CBytes [x41]) = Raise BrotliError)
  /\ (exists t'', finish_brotli_compressor t = Ok ([[x03]], t'')
                  /\ _brotli_compressor t'' = None
                  /\ is_ok (compress t'' (CBytes [x41])) = true).
Proof.
  intros t.
  destruct (@finalize_keeps_finished_compressor sample_libs t [x03]
              ([], false) ([], true) eq_refl eq_refl eq_refl)
    as [[t' [H1 [H2 H3]]] [t'' [H4 [H5 H6]]]].
  split.
  - exists t'. repeat split; try assumption.
    vm_compute in H1. injection H1 as <-. reflexivity.
  - exists t''. repeat split; try assumption.
    vm_compute in H4. injection H4 as <-. reflexivity.
Defined.

(** ** UTF-8: encoding with [replace], then decoding *)

Lemma to_N_byte_of_N (n : N) : (n < 256)%N -> Byte.to_N (byte_of_N n) = n.
Proof.
  intros H. unfold byte_of_N. destruct (Byte.of_N n) eqn:E.
  - now apply Byte.to_of_N.
  - apply Byte.of_N_None_iff in E. lia.
Qed.

Ltac Zify.zify_post_hook ::= Z.to_euclidean_division_equations.

Ltac decide_tests :=
  repeat match goal with
         | |- context [(?a <? ?c)%N] => destruct (N.ltb_spec a c); try lia
         | |- context [(?a <=? ?c)%N] => destruct (N.leb_spec a c); try lia
         end.

Lemma bytes_decode_encode_cp (c : codepoint) (rest : bytes) :
  (c <= 0x10FFFF)%N -> is_surrogate c = false ->
  bytes_decode (utf8_encode_cp c ++ rest)
  = (s <- bytes_decode rest ;; Ok (c :: s)).
Proof.
  intros Hmax Hs. unfold is_surrogate in Hs.
  unfold utf8_encode_cp.
  destruct (N.ltb_spec c 0x80); [|destruct (N.ltb_spec c 0x800);
                                  [|destruct (N.ltb_spec c 0x10000)]].
  - cbn [app bytes_decode]. rewrite to_N_byte_of_N by lia.
    decide_tests. reflexivity.
  - cbn [app bytes_decode]. rewrite !to_N_byte_of_N by lia.
    unfold is_cont. decide_tests. cbn [andb].
    replace ((192 + c / 64 - 192) * 64 + (128 + c mod 64 - 128))%N with c by lia.
    reflexivity.
  - cbn [app bytes_decode]. rewrite !to_N_byte_of_N by lia.
    unfold is_cont, is_surrogate.
    replace ((224 + c / 4096 - 224) * 4096 + (128 + (c / 64) mod 64 - 128) * 64
             + (128 + c mod 64 - 128))%N with c by lia.
    rewrite Hs. decide_tests. reflexivity.
  - cbn [app bytes_decode]. rewrite !to_N_byte_of_N by lia.
    unfold is_cont.
    replace ((240 + c / 262144 - 240) * 262144
             + (128 + (c / 4096) mod 64 - 128) * 4096
             + (128 + (c / 64) mod 64 - 128) * 64 + (128 + c mod 64 - 128))%N
      with c by lia.
    decide_tests. reflexivity.
Qed.

Lemma replace_broken_unicode_str_scrub (s : pystr) :
  valid_str s -> replace_broken_unicode_str s = Ok (scrub_str s).
Proof.
  unfold replace_broken_unicode_str.
  induction 1 as [|c s Hc Hs IH]; [reflexivity|].
  simpl. destruct (is_surrogate c) eqn:E.
  - destruct (str_encode Replace s) as [bs|] eqn:Hb; simpl in *; [|discriminate].
    now rewrite IH.
  - destruct (str_encode Replace s) as [bs|] eqn:Hb; simpl in *; [|discriminate].
    rewrite bytes_decode_encode_cp by assumption. now rewrite IH.
Qed.

Ltac Zify.zify_post_hook ::= idtac.

(** ** Induction on values *)

Lemma pyval_induction (P : pyval -> Prop) :
  P PNone ->
  (forall x, P (PBool x)) ->
  (forall z, P (PInt z)) ->
  (forall s, P (PStr s)) ->
  (forall l, Forall P l -> P (PList l)) ->
  (forall d, Forall (fun kv => P (snd kv)) d -> P (PDict d)) ->
  (forall r, P (PObj r)) ->
  forall v, P v.
Proof.
  intros HN HB HI HS HL HD HO. fix IH 1. intros [| x | z | s | l | d | r].
  - exact HN.
  - apply HB.
  - apply HI.
  - apply HS.
  - apply HL. induction l as [|v l IHl]; constructor; [apply IH | exact IHl].
  - apply HD. induction d as [|[k v] d IHd]; constructor; [apply IH | exact IHd].
  - apply HO.
Qed.

Lemma mapM_ok_map {A B} (f : A -> result B) (g : A -> B) (l : list A) :
  Forall (fun a => f a = Ok (g a)) l -> mapM f l = Ok (map g l).
Proof.
  induction 1 as [|a l Ha Hl IH]; simpl; [reflexivity|].
  now rewrite Ha, IH.
Qed.

(** ** [replace_broken_unicode] writes [?] for every surrogate *)

Lemma replace_broken_unicode_scrub (v : pyval) :
  valid_val v -> replace_broken_unicode v = Ok (scrub v).
Proof.
  induction v as [| x | z | s | l IH | d IH | r] using pyval_induction;
    intros Hv; try reflexivity.
  - simpl in *. now rewrite replace_broken_unicode_str_scrub.
  - simpl. rewrite (mapM_ok_map _ scrub); [reflexivity|].
    induction IH as [|v l Hvl _ IHl]; constructor; simpl in Hv.
    + apply Hvl. tauto.
    + apply IHl. tauto.
  - simpl.
    rewrite (mapM_ok_map _ (fun kv => (scrub_str (fst kv), scrub (snd kv))));
      [reflexivity|].
    induction IH as [|[k v] d Hvd _ IHd]; constructor; simpl in Hv.
    + simpl in *. rewrite replace_broken_unicode_str_scrub by tauto.
      simpl. rewrite Hvd by tauto. reflexivity.
    + apply IHd. tauto.
Qed.

Lemma scrub_str_length (s : pystr) : length (scrub_str s) = length s.
Proof. apply length_map. Qed.

Lemma scrub_str_clean (s : pystr) : existsb is_surrogate (scrub_str s) = false.
Proof.
  induction s as [|c s IH]; simpl; [reflexivity|].
  rewrite IH. destruct (is_surrogate c) eqn:E; [reflexivity | now rewrite E].
Qed.

(** ** The strict encoder on a sanitised value *)

Lemma mapM_all_ok {A B} (f : A -> result B) (l : list A) :
  Forall (fun a => exists y, f a = Ok y) l -> exists ys, mapM f l = Ok ys.
Proof.
  induction 1 as [|a l [y Hy] _ [ys Hys]]; simpl.
  - now exists [].
  - rewrite Hy, Hys. simpl. now eexists.
Qed.

Lemma dict_setitem_In (d : pydict) (k : pystr) (v : pyval) (kv : pystr * pyval) :
  In kv (dict_setitem d k v) -> kv = (k, v) \/ In kv d.
Proof.
  induction d as [|[k' v'] d IH]; simpl.
  - intros [<-|[]]. now left.
  - destruct (pystr_eqb k' k); simpl; intros [H|H]; auto.
    destruct (IH H); auto.
Qed.

Lemma dict_of_items_In (items : list (pystr * pyval)) (kv : pystr * pyval) :
  In kv (dict_of_items items) -> In kv items.
Proof.
  unfold dict_of_items.
  enough (H : forall acc, In kv (fold_left (fun d x => dict_setitem d (fst x) (snd x))
                                           items acc) ->
                          In kv acc \/ In kv items).
  { intros Hin. destruct (H [] Hin) as [[]|]; assumption. }
  induction items as [|[k v] items IH]; simpl; intros acc Hin; [now left|].
  destruct (IH _ Hin) as [H|H]; [|auto].
  apply dict_setitem_In in H. destruct H as [->|H]; auto.
Qed.

Lemma orjson_str_clean (s : pystr) :
  existsb is_surrogate s = false -> exists out, orjson_str s = Ok out.
Proof. intros H. unfold orjson_str. rewrite H. now eexists. Qed.

Lemma orjson_ser_scrub_ok (v : pyval) :
  forall budget, encodable budget v = true ->
                 exists out, orjson_ser budget (scrub v) = Ok out.
Proof.
  induction v as [| x | z | s | l IH | d IH | r] using pyval_induction;
    intros budget He; cbn [encodable scrub orjson_ser] in *.
  - now eexists.
  - destruct x; now eexists.
  - unfold orjson_int. rewrite He. now eexists.
  - apply orjson_str_clean, scrub_str_clean.
  - destruct budget as [|budget]; [discriminate|].
    destruct (mapM_all_ok (orjson_ser budget) (map scrub l)) as [ys Hys].
    { rewrite Forall_forall in *. intros y Hy. apply in_map_iff in Hy.
      destruct Hy as [x [<- Hx]]. apply IH; [assumption|].
      rewrite forallb_forall in He. now apply He. }
    rewrite Hys. simpl. now eexists.
  - destruct budget as [|budget]; [discriminate|].
    match goal with
    | |- context [mapM ?f ?l] => destruct (mapM_all_ok f l) as [ys Hys]
    end.
    { rewrite Forall_forall in *. intros kv Hkv.
      apply dict_of_items_In, in_map_iff in Hkv.
      destruct Hkv as [[k x] [<- Hx]]. simpl.
      destruct (orjson_str_clean _ (scrub_str_clean k)) as [ko ->]. simpl.
      rewrite forallb_forall in He.
      destruct (IH _ Hx budget (He _ Hx)) as [xo Hxo]. simpl in Hxo.
      rewrite Hxo. simpl. now eexists. }
    rewrite Hys. simpl. now eexists.
  - apply orjson_str_clean. now apply negb_true_iff in He.
Qed.

Lemma compress_none {libs : Libraries} (t : StreamTransformer) (bs : bytes) :
  compression t = None -> compress t (CBytes bs) = Ok (bs, t).
Proof. intros H. unfold compress. simpl. now rewrite H. Qed.

(** ** Invalid text in a row (C6) *)

(** C6, as the code has it: when the strict encoder fails on a row for
    another reason than its nesting limit (invalid text is one), every
    surrogate in the row's strings, keys included and through lists and
    dictionaries, is replaced by [?], and the strict encoder is run once
    more; its output followed by a newline is the line. That second run
    succeeds, and the row is written, whenever the row is otherwise
    encodable. *)
Theorem encode_row_sanitises_invalid_text
        {libs : Libraries} (limit : nat) (d : pydict) (msg : string) :
  valid_val (PDict d) ->
  orjson_dumps limit (PDict d) = Raise (JSONEncodeError msg) ->
  msg <> recursion_limit_msg ->
  replace_broken_unicode (PDict d) = Ok (scrub (PDict d))
  /\ encode_row limit d
     = (dumped <- orjson_dumps limit (scrub (PDict d)) ;; Ok (dumped ++ [x0a]))
  /\ (encodable limit (PDict d) = true ->
      exists dumped,
        orjson_dumps limit (scrub (PDict d)) = Ok dumped
        /\ encode_row limit d = Ok (dumped ++ [x0a])
        /\ forall t : StreamTransformer,
            compression t = None ->
            _write_dict limit d t = Ok (dumped ++ [x0a], t)).
Proof.
  intros Hv Hfail Hmsg.
  pose proof (replace_broken_unicode_scrub _ Hv) as Hs.
  assert (Hrow : encode_row limit d
                 = (dumped <- orjson_dumps limit (scrub (PDict d)) ;;
                    Ok (dumped ++ [x0a]))).
  { unfold encode_row. rewrite Hfail.
    apply String.eqb_neq in Hmsg. rewrite Hmsg. now rewrite Hs. }
  split; [exact Hs|]. split; [exact Hrow|].
  intros He. destruct (orjson_ser_scrub_ok _ _ He) as [dumped Hd].
  exists dumped. unfold orjson_dumps in *. split; [exact Hd|].
  rewrite Hrow, Hd. split; [reflexivity|].
  intros t Ht. unfold _write_dict. rewrite Hrow, Hd. simpl.
  unfold _write. now apply compress_none.
Qed.

Lemma encode_row_sanitises_invalid_text_witness :
  encode_row 255 [(u "a", PStr [120; 0xD83D; 121]%N)]
  = Ok (b "{" ++ [x22] ++ b "a" ++ [x22] ++ b ":" ++ [x22] ++ b "x?y" ++ [x22]
          ++ b "}" ++ [x0a]).
Proof.
  destruct (@encode_row_sanitises_invalid_text sample_libs 255
              [(u "a", PStr [120; 0xD83D; 121]%N)] invalid_str_msg)
    as [_ [_ H]].
  - simpl. repeat constructor; vm_compute; discriminate.
  - reflexivity.
  - vm_compute. discriminate.
  - destruct (H eq_refl) as [dumped [Hd [Hrow _]]].
    rewrite Hrow. vm_compute in Hd. injection Hd as <-. reflexivity.
Defined.

(** C6 as stated fails twice: a row with invalid text and a nesting the
    strict encoder refuses makes [_write_dict] raise; and what stands in
    for a surrogate is [?], not U+FFFD. *)
Lemma encode_row_invalid_text_counterexample :
  let deep := [(u "a", PStr [0xD83D%N]); (u "b", nest 300 PNone)] in
  orjson_dumps 255 (PDict deep) = Raise (JSONEncodeError invalid_str_msg)
  /\ encode_row 255 deep = Raise (JSONEncodeError recursion_limit_msg)
  /\ (forall t : @StreamTransformer sample_libs,
         _write_dict 255 deep t = Raise (JSONEncodeError recursion_limit_msg))
  /\ encode_row 255 [(u "a", PStr [0xD83D%N])]
     = Ok (b "{" ++ [x22] ++ b "a" ++ [x22] ++ b ":" ++ [x22] ++ [x3f] ++ [x22]
             ++ b "}" ++ [x0a])
  /\ utf8_encode_cp 0xFFFD%N = [xef; xbf; xbd].
Proof.
  cbv zeta. repeat split; vm_compute; reflexivity.
Qed.

(** ** The permissive encoder writes ASCII: within the stack, it gives a line *)

Ltac Zify.zify_post_hook ::= Z.to_euclidean_division_equations.

Lemma is_ascii_app (s t : pystr) :
  is_ascii (s ++ t) = is_ascii s && is_ascii t.
Proof. apply forallb_app. Qed.

Lemma is_ascii_concat (parts : list pystr) :
  forallb is_ascii parts = true -> is_ascii (concat parts) = true.
Proof.
  induction parts as [|p parts IH]; simpl; [reflexivity|].
  intros H. apply andb_true_iff in H. destruct H as [Hp Hr].
  rewrite is_ascii_app, Hp. now apply IH.
Qed.

Lemma is_ascii_join (sep : pystr) (parts : list pystr) :
  is_ascii sep = true -> forallb is_ascii parts = true ->
  is_ascii (join sep parts) = true.
Proof.
  intros Hsep. induction parts as [|p parts IH]; [reflexivity|].
  intros H. simpl in H. apply andb_true_iff in H. destruct H as [Hp Hr].
  destruct parts as [|q parts]; [exact Hp|].
  change (join sep (p :: q :: parts)) with (p ++ sep ++ join sep (q :: parts)).
  rewrite !is_ascii_app, Hp, Hsep. now apply IH.
Qed.

Lemma hex_digit_ascii (n : N) : (n < 16)%N -> (hex_digit n <? 128)%N = true.
Proof.
  intros H. unfold hex_digit. apply N.ltb_lt.
  destruct (N.ltb_spec n 10); lia.
Qed.

Lemma escape_u_ascii (c : N) : (c < 0x10000)%N -> is_ascii (escape_u c) = true.
Proof.
  intros H. unfold escape_u, is_ascii, forallb, backslash.
  rewrite !hex_digit_ascii by lia. reflexivity.
Qed.

Lemma short_escape_ascii (c : codepoint) (e : pystr) :
  short_escape c = Some e -> is_ascii e = true.
Proof.
  unfold short_escape.
  repeat match goal with
         | |- context [(?a =? ?x)%N] => destruct (a =? x)%N
         end; intros H; inversion H; reflexivity.
Qed.

Lemma json_escape_ascii (c : codepoint) : is_ascii (json_escape c) = true.
Proof.
  unfold json_escape. destruct (short_escape c) as [e|] eqn:E.
  - now apply short_escape_ascii in E.
  - destruct (N.leb_spec 32 c); destruct (N.leb_spec c 126); cbn [andb].
    + unfold is_ascii. simpl. rewrite andb_true_r. apply N.ltb_lt. lia.
    + destruct (N.ltb_spec c 0x10000); [now apply escape_u_ascii|].
      rewrite is_ascii_app, !escape_u_ascii by lia. reflexivity.
    + destruct (N.ltb_spec c 0x10000); [now apply escape_u_ascii | lia].
    + lia.
Qed.

Lemma json_str_ascii (s : pystr) : is_ascii (json_str s) = true.
Proof.
  unfold json_str. rewrite !is_ascii_app.
  rewrite is_ascii_concat; [reflexivity|].
  induction s as [|c s IH]; simpl; [reflexivity|].
  now rewrite json_escape_ascii.
Qed.

Lemma dec_digits_ascii (fuel : nat) :
  forall n acc, is_ascii acc = true -> is_ascii (dec_digits fuel n acc) = true.
Proof.
  induction fuel as [|fuel IH]; simpl; intros n acc Hacc; [exact Hacc|].
  assert (H : is_ascii ((48 + n mod 10)%N :: acc) = true).
  { unfold is_ascii in *. cbn [forallb]. rewrite Hacc, andb_true_r.
    apply N.ltb_lt. lia. }
  destruct (n <? 10)%N; [exact H | now apply IH].
Qed.

Lemma int_str_ascii (z : Z) : is_ascii (int_str z) = true.
Proof.
  unfold int_str. destruct (z <? 0)%Z.
  - change (is_ascii [45%N] && is_ascii
              (dec_digits (S (N.to_nat (N.log2 (Z.abs_N z)))) (Z.abs_N z) []) = true).
    now rewrite dec_digits_ascii.
  - now apply dec_digits_ascii.
Qed.

Ltac Zify.zify_post_hook ::= idtac.

Lemma json_text_ascii (v : pyval) : is_ascii (json_text v) = true.
Proof.
  induction v as [| x | z | s | l IH | d IH | r] using pyval_induction;
    cbn [json_text].
  - reflexivity.
  - destruct x; reflexivity.
  - apply int_str_ascii.
  - apply json_str_ascii.
  - rewrite !is_ascii_app. rewrite is_ascii_join; [reflexivity | reflexivity |].
    induction IH as [|v l Hv _ IHl]; cbn [map forallb];
      [reflexivity | now rewrite Hv].
  - rewrite !is_ascii_app. rewrite is_ascii_join; [reflexivity | reflexivity |].
    induction IH as [|[k v] d Hv _ IHd]; cbn [map forallb fst snd] in *;
      [reflexivity|].
    rewrite !is_ascii_app, json_str_ascii, Hv. exact IHd.
  - apply json_str_ascii.
Qed.

Lemma str_encode_ascii (s : pystr) :
  is_ascii s = true -> str_encode Strict s = Ok (ascii_bytes s).
Proof.
  induction s as [|c s IH]; simpl; [reflexivity|].
  intros H. apply andb_true_iff in H. destruct H as [Hc Hs].
  apply N.ltb_lt in Hc.
  assert (E : is_surrogate c = false).
  { unfold is_surrogate. destruct (N.leb_spec 0xD800 c); [lia | reflexivity]. }
  rewrite E, (IH Hs). simpl. unfold utf8_encode_cp.
  destruct (N.ltb_spec c 0x80); [reflexivity | lia].
Qed.

Lemma stdlib_line_ok {libs : Libraries} (d : pydict) :
  nesting (PDict d) <= stack_limit ->
  stdlib_line d = Ok (ascii_bytes (json_text (PDict d)) ++ [x0a]).
Proof.
  intros H. apply Nat.leb_le in H. unfold stdlib_line, json_dumps. rewrite H.
  cbn [rbind]. now rewrite str_encode_ascii by apply json_text_ascii.
Qed.

Lemma stdlib_line_too_deep {libs : Libraries} (d : pydict) :
  stack_limit < nesting (PDict d) -> stdlib_line d = Raise RecursionError.
Proof.
  intros H. apply Nat.leb_gt in H. unfold stdlib_line, json_dumps. now rewrite H.
Qed.

(** ** Rows nested too deeply (C7) *)

(** A row the strict encoder refuses for its nesting is handed to the
    permissive encoder when it is not a [$web_vitals] event, and when it
    is one whose path to the nested element lacks a key. *)
Lemma encode_row_recursion_fallback {libs : Libraries} (limit : nat) (d : pydict) :
  orjson_dumps limit (PDict d) = Raise (JSONEncodeError recursion_limit_msg) ->
  is_web_vitals d = false
  \/ (exists k, del_interaction_target d = Raise (KeyError k)) ->
  encode_row limit d = stdlib_line d.
Proof.
  intros Hfail Hshape. unfold encode_row. rewrite Hfail. simpl String.eqb.
  destruct Hshape as [Hw | [k Hk]].
  - now rewrite Hw.
  - rewrite Hk. now destruct (is_web_vitals d).
Qed.

(** When the nested element is there, it is deleted and the strict
    encoder is run once more, with nothing behind it. *)
Lemma encode_row_web_vitals_retry {libs : Libraries} (limit : nat) (d d' : pydict) :
  orjson_dumps limit (PDict d) = Raise (JSONEncodeError recursion_limit_msg) ->
  is_web_vitals d = true ->
  del_interaction_target d = Ok d' ->
  encode_row limit d
  = (dumped <- orjson_dumps limit (PDict d') ;; Ok (dumped ++ [x0a])).
Proof.
  intros Hfail Hw Hdel. unfold encode_row.
  rewrite Hfail. simpl String.eqb. now rewrite Hw, Hdel.
Qed.

(** C7, evaluated on the code: a [$web_vitals] row that has the nested
    element and is nested too deeply elsewhere as well is refused a
    second time by the strict encoder after the deletion, and
    [_write_dict] raises; a [$web_vitals] row whose [attribution] is not
    a dictionary raises [TypeError], which the handler does not catch. *)
Theorem encode_row_web_vitals_retry_raises :
  let row :=
    web_vitals_row (PDict [(u "interactionTargetElement", nest 300 PNone)])
                   (nest 300 PNone) in
  let odd := web_vitals_row PNone (nest 300 PNone) in
  orjson_dumps 255 (PDict row) = Raise (JSONEncodeError recursion_limit_msg)
  /\ is_web_vitals row = true
  /\ del_interaction_target row
     = Ok (web_vitals_row (PDict []) (nest 300 PNone))
  /\ encode_row 255 row = Raise (JSONEncodeError recursion_limit_msg)
  /\ (forall t : @StreamTransformer sample_libs,
         _write_dict 255 row t = Raise (JSONEncodeError recursion_limit_msg))
  /\ orjson_dumps 255 (PDict odd) = Raise (JSONEncodeError recursion_limit_msg)
  /\ encode_row 255 odd
     = Raise (TypeError "object does not support item deletion").
Proof. cbv zeta. repeat split; vm_compute; reflexivity. Qed.

(** ** One line per row (C8) *)

Lemma encode_row_newline {libs : Libraries} (limit : nat) (d : pydict) (line : bytes) :
  encode_row limit d = Ok line -> ends_with_newline line.
Proof.
  unfold encode_row, stdlib_line, ends_with_newline. intros H.
  repeat match type of H with
         | Ok _ = Ok _ => injection H as <-; eexists; reflexivity
         | Raise _ = Ok _ => discriminate H
         | rbind ?r _ = Ok _ =>
             let x := fresh "x" in
             let E := fresh "E" in
             apply rbind_ok in H; destruct H as [x [E H]]
         | context [match ?x with _ => _ end] => destruct x
         end.
Qed.

Lemma write_batch_rows (limit : nat) {libs : Libraries} (rb : RecordBatch) :
  write_batch limit rb = map (_write_dict limit) (filter nonempty (to_pylist rb)).
Proof.
  unfold write_batch. induction (to_pylist rb) as [|d rows IH]; [reflexivity|].
  simpl. rewrite IH. now destruct d.
Qed.

Lemma compress_stateless {libs : Libraries} (t : StreamTransformer)
      (f : bytes -> bytes) (bs : bytes) :
  stateless_compress t = Some f -> compress t (CBytes bs) = Ok (f bs, t).
Proof.
  unfold stateless_compress, compress. simpl.
  destruct (compression t) as [name|].
  - destruct (pystr_eqb name (u "gzip")); [|discriminate].
    now intros [= <-].
  - now intros [= <-].
Qed.

Lemma run_generator_stateless {libs : Libraries} (limit : nat)
      (t : StreamTransformer) (f : bytes -> bytes) (rows : list pydict) :
  stateless_compress t = Some f ->
  run_generator (map (_write_dict limit) rows) t
  = (lines <- mapM (encode_row limit) rows ;; Ok (map f lines, t)).
Proof.
  intros Hf. induction rows as [|d rows IH]; [reflexivity|].
  cbn [map run_generator mapM]. unfold _write_dict at 1, _write.
  destruct (encode_row limit d) as [line|e]; [|reflexivity].
  cbn [rbind]. rewrite (compress_stateless _ _ _ Hf). cbn [rbind snd fst].
  rewrite IH. destruct (mapM (encode_row limit) rows); reflexivity.
Qed.

Lemma mapM_length {A B} (f : A -> result B) (l : list A) (ys : list B) :
  mapM f l = Ok ys -> length ys = length l.
Proof.
  revert ys. induction l as [|a l IH]; simpl; intros ys H.
  - now injection H as <-.
  - destruct (f a); [|discriminate]. simpl in H.
    destruct (mapM f l); [|discriminate]. injection H as <-.
    simpl. f_equal. now apply IH.
Qed.

(** C8, as the code has it: [write_batch] skips the rows that are empty
    dictionaries and yields once for every other row, in order: the
    compression of that row's line, which ends with a newline. With a
    scheme that keeps no state and rows that all encode, the batch gives
    exactly one fragment per non-empty row. *)
Theorem write_batch_one_line_per_nonempty_row
        {libs : Libraries} (limit : nat) (rb : RecordBatch) :
  write_batch limit rb = map (_write_dict limit) (filter nonempty (to_pylist rb))
  /\ (forall d line, encode_row limit d = Ok line -> ends_with_newline line)
  /\ (forall (t : StreamTransformer) (f : bytes -> bytes) (lines : list bytes),
         stateless_compress t = Some f ->
         mapM (encode_row limit) (filter nonempty (to_pylist rb)) = Ok lines ->
         run_generator (write_batch limit rb) t = Ok (map f lines, t)
         /\ length (map f lines) = length (filter nonempty (to_pylist rb))
         /\ Forall ends_with_newline lines).
Proof.
  split; [apply write_batch_rows|]. split; [apply encode_row_newline|].
  intros t f lines Hf Hlines.
  rewrite write_batch_rows, (run_generator_stateless _ _ _ _ Hf), Hlines.
  split; [reflexivity|]. split.
  - rewrite length_map. now apply mapM_length in Hlines.
  - revert lines Hlines.
    induction (filter nonempty (to_pylist rb)) as [|d rows IH]; simpl;
      intros lines H.
    + injection H as <-. constructor.
    + destruct (encode_row limit d) as [line|] eqn:E; [|discriminate].
      simpl in H. destruct (mapM (encode_row limit) rows); [|discriminate].
      injection H as <-. constructor; [now apply encode_row_newline in E|].
      now apply IH.
Qed.

Lemma write_batch_one_line_per_nonempty_row_witness :
  let rb := {| num_rows := 2; columns := [(u "a", [PInt 1; PInt 2])] |} in
  let t := @new_transformer sample_libs JSONLStreamTransformer None true in
  run_generator (write_batch 255 rb) t
  = Ok ([b "{" ++ [x22] ++ b "a" ++ [x22] ++ b ":1}" ++ [x0a];
         b "{" ++ [x22] ++ b "a" ++ [x22] ++ b ":2}" ++ [x0a]], t).
Proof.
  intros rb t.
  destruct (@write_batch_one_line_per_nonempty_row sample_libs 255 rb)
    as [_ [_ H]].
  destruct (H t (fun bs => bs)
              [b "{" ++ [x22] ++ b "a" ++ [x22] ++ b ":1}" ++ [x0a];
               b "{" ++ [x22] ++ b "a" ++ [x22] ++ b ":2}" ++ [x0a]])
    as [Hrun _].
  - reflexivity.
  - vm_compute. reflexivity.
  - exact Hrun.
Defined.

(** C8 as stated fails: a row that is an empty dictionary gives no line.
    A batch whose only column is [_inserted_at] has two rows and yields
    nothing. *)
Lemma write_batch_skips_empty_rows :
  let t := @new_transformer sample_libs JSONLStreamTransformer None false in
  let rb := {| num_rows := 2; columns := [(u "_inserted_at", [PInt 1; PInt 2])] |} in
  length (to_pylist rb) = 2
  /\ transform_batch 255 t rb = Ok []
  /\ rbind (transform_batch 255 t rb) (fun g => run_generator g t) = Ok ([], t).
Proof. cbv zeta. repeat split; vm_compute; reflexivity. Qed.

(** ** Iterations *)

Section IterationLaws.
Context {T O : Type}.

Lemma gbind_glift {A B} (f : T -> result (A * T)) (k : A -> G T O B) (t : T) :
  gbind (glift f) k t
  = match f t with
    | Ok (a, t') => k a t'
    | Raise e => ([], Raise e)
    end.
Proof.
  unfold gbind, glift. destruct (f t) as [[a t']|e]; [|reflexivity].
  now destruct (k a t').
Qed.

Lemma gbind_gyield {B} (c : O) (k : unit -> G T O B) (t : T) :
  gbind (gyield c) k t = (c :: fst (k tt t), snd (k tt t)).
Proof. unfold gbind, gyield. now destruct (k tt t). Qed.

Lemma gyield_all_run (cs : list O) (t : T) :
  gyield_all cs t = (cs, Ok (tt, t)).
Proof.
  induction cs as [|c cs IH]; [reflexivity|].
  cbn [gyield_all]. rewrite gbind_gyield, IH. reflexivity.
Qed.

Lemma gbind_gyield_all {B} (cs : list O) (k : unit -> G T O B) (t : T) :
  gbind (gyield_all cs) k t = (cs ++ fst (k tt t), snd (k tt t)).
Proof. unfold gbind. rewrite gyield_all_run. now destruct (k tt t). Qed.

Lemma gbind_run {A B} (m : G T O A) (k : A -> G T O B) (t : T) :
  gbind m k t
  = match snd (m t) with
    | Ok (a, t') => (fst (m t) ++ fst (k a t'), snd (k a t'))
    | Raise e => (fst (m t), Raise e)
    end.
Proof.
  unfold gbind. destruct (m t) as [out [[a t']|e]]; simpl; [|reflexivity].
  now destruct (k a t').
Qed.
Lemma gbind_prefix {A B} (m : G T O A) (k : A -> G T O B) (t : T) :
  exists rest, fst (gbind m k t) = fst (m t) ++ rest.
Proof.
  rewrite gbind_run. destruct (snd (m t)) as [[a t']|e].
  - now eexists.
  - exists []. cbn [fst]. now rewrite app_nil_r.
Qed.
End IterationLaws.

(** ** The marked stream is the stream (C3, C4) *)

Section Controller.
Variable T : Type.
Variable transform_batch : T -> RecordBatch -> result (list (T -> result (bytes * T))).
Variable finalize : T -> result (list bytes * T).
Variable max : Z.

Lemma map_chunk_of_trailers (fin : list bytes) :
  map chunk_of (map Trailer fin) = map not_boundary fin.
Proof. rewrite map_map. reflexivity. Qed.

Lemma for_chunks_marked (g : list (T -> result (bytes * T))) :
  forall size t,
    for_chunks finalize max g size t
    = (map chunk_of (fst (marked_chunks finalize max g size t)),
       snd (marked_chunks finalize max g size t)).
Proof.
  induction g as [|next g IH]; intros size t; [reflexivity|].
  cbn [for_chunks marked_chunks].
  rewrite !gbind_glift. destruct (next t) as [[c t1]|e]; [|reflexivity].
  rewrite !gbind_gyield.
  destruct (over_limit max (size + blen c)).
  - rewrite !gbind_glift. destruct (finalize t1) as [[fin t2]|e]; [|reflexivity].
    rewrite !gbind_gyield_all, !gbind_gyield, IH. cbn [fst snd map].
    rewrite map_app, map_chunk_of_trailers. reflexivity.
  - rewrite IH. reflexivity.
Qed.

Lemma for_batches_marked (batches : list RecordBatch) :
  forall size t,
    for_batches transform_batch finalize max batches size t
    = (map chunk_of (fst (marked_batches transform_batch finalize max batches size t)),
       snd (marked_batches transform_batch finalize max batches size t)).
Proof.
  induction batches as [|rb rest IH]; intros size t; [reflexivity|].
  cbn [for_batches marked_batches].
  rewrite !gbind_glift.
  destruct (transform_batch t rb) as [g|e]; [|reflexivity]. cbn [rbind].
  rewrite !(gbind_run (for_chunks _ _ _ _)),
          !(gbind_run (marked_chunks _ _ _ _)).
  rewrite for_chunks_marked. cbn [fst snd].
  destruct (snd (marked_chunks finalize max g size t)) as [[size' t']|e];
    [|reflexivity].
  rewrite IH. cbn [fst snd]. now rewrite map_app.
Qed.

Lemma iter_marked (batches : list RecordBatch) (t : T) :
  iter_transformed_record_batches transform_batch finalize batches max t
  = (map chunk_of (fst (marked_iter transform_batch finalize batches max t)),
     snd (marked_iter transform_batch finalize batches max t)).
Proof.
  unfold iter_transformed_record_batches, marked_iter.
  rewrite !(gbind_run (for_batches _ _ _ _ _)),
          !(gbind_run (marked_batches _ _ _ _ _)).
  rewrite for_batches_marked. cbn [fst snd].
  destruct (snd (marked_batches transform_batch finalize max batches 0 t))
    as [[size' t']|e]; [|reflexivity].
  rewrite !gbind_glift. destruct (finalize t') as [[fin t'']|e];
    [|cbn [fst snd]; now rewrite !app_nil_r].
  rewrite !gyield_all_run. cbn [fst snd].
  now rewrite map_app, map_chunk_of_trailers.
Qed.

Lemma for_chunks_under (next : T -> result (bytes * T))
      (g : list (T -> result (bytes * T))) (size : Z) (t t1 : T) (c : bytes) :
  next t = Ok (c, t1) ->
  over_limit max (size + blen c) = false ->
  for_chunks finalize max (next :: g) size t
  = ((c, false) :: fst (for_chunks finalize max g (size + blen c) t1),
     snd (for_chunks finalize max g (size + blen c) t1)).
Proof.
  intros Hnext Hover. cbn [for_chunks].
  rewrite gbind_glift, Hnext, gbind_gyield, Hover. reflexivity.
Qed.

Lemma for_chunks_over (next : T -> result (bytes * T))
      (g : list (T -> result (bytes * T))) (size : Z) (t t1 t2 : T)
      (c : bytes) (fin : list bytes) :
  next t = Ok (c, t1) ->
  over_limit max (size + blen c) = true ->
  finalize t1 = Ok (fin, t2) ->
  for_chunks finalize max (next :: g) size t
  = ((c, false) :: map not_boundary fin ++ ([], true)
       :: fst (for_chunks finalize max g 0 t2),
     snd (for_chunks finalize max g 0 t2)).
Proof.
  intros Hnext Hover Hfin. cbn [for_chunks].
  rewrite gbind_glift, Hnext, gbind_gyield, Hover.
  rewrite gbind_glift, Hfin, gbind_gyield_all, gbind_gyield. reflexivity.
Qed.
End Controller.

Section Segments.
Variable T : Type.
Variable transform_batch : T -> RecordBatch -> result (list (T -> result (bytes * T))).
Variable finalize : T -> result (list bytes * T).
Variable max : Z.

Lemma segmented_nil (size : Z) : segmented max size [].
Proof. exact (segmented_end max size []). Qed.

Lemma marked_chunks_segmented (g : list (T -> result (bytes * T))) :
  forall size t,
    match snd (marked_chunks finalize max g size t) with
    | Ok (size', _) =>
        forall rest, segmented max size' rest ->
                     segmented max size
                               (fst (marked_chunks finalize max g size t) ++ rest)
    | Raise _ => segmented max size (fst (marked_chunks finalize max g size t))
    end.
Proof.
  induction g as [|next g IH]; intros size t; [intros rest H; exact H|].
  cbn [marked_chunks].
  rewrite gbind_glift. destruct (next t) as [[c t1]|e]; [|apply segmented_nil].
  rewrite gbind_gyield. cbn [fst snd].
  destruct (over_limit max (size + blen c)) eqn:Hover.
  - rewrite gbind_glift. destruct (finalize t1) as [[fin t2]|e].
    + rewrite gbind_gyield_all, gbind_gyield. cbn [fst snd].
      specialize (IH 0%Z t2).
      destruct (snd (marked_chunks finalize max g 0 t2)) as [[size' t']|e].
      * intros rest Hrest. cbn [app]. rewrite <- app_assoc. cbn [app].
        apply segmented_over; [exact Hover | now apply IH].
      * apply segmented_over; [exact Hover | exact IH].
    + now apply segmented_raised.
  - specialize (IH (size + blen c)%Z t1).
    destruct (snd (marked_chunks finalize max g (size + blen c) t1))
      as [[size' t']|e].
    + intros rest Hrest. cbn [app].
      apply segmented_under; [exact Hover | now apply IH].
    + apply segmented_under; [exact Hover | exact IH].
Qed.

Lemma marked_batches_segmented (batches : list RecordBatch) :
  forall size t,
    match snd (marked_batches transform_batch finalize max batches size t) with
    | Ok (size', _) =>
        forall rest,
          segmented max size' rest ->
          segmented max size
            (fst (marked_batches transform_batch finalize max batches size t) ++ rest)
    | Raise _ =>
        segmented max size
          (fst (marked_batches transform_batch finalize max batches size t))
    end.
Proof.
  induction batches as [|rb batches IH]; intros size t;
    [intros rest H; exact H|].
  cbn [marked_batches]. rewrite gbind_glift.
  destruct (transform_batch t rb) as [g|e]; [|apply segmented_nil].
  cbn [rbind]. rewrite gbind_run.
  pose proof (marked_chunks_segmented g size t) as Hg.
  destruct (snd (marked_chunks finalize max g size t)) as [[size1 t1]|e];
    [|exact Hg].
  cbn [fst snd]. specialize (IH size1 t1).
  destruct (snd (marked_batches transform_batch finalize max batches size1 t1))
    as [[size' t']|e].
  - intros rest Hrest. rewrite <- app_assoc. apply Hg. now apply IH.
  - apply Hg. exact IH.
Qed.

Lemma marked_iter_segmented (batches : list RecordBatch) (t : T) :
  segmented max 0 (fst (marked_iter transform_batch finalize batches max t)).
Proof.
  unfold marked_iter. rewrite gbind_run.
  pose proof (marked_batches_segmented batches 0%Z t) as H.
  destruct (snd (marked_batches transform_batch finalize max batches 0 t))
    as [[size' t']|e]; [|exact H].
  cbn [fst snd]. apply H.
  rewrite gbind_glift. destruct (finalize t') as [[fin t'']|e].
  - rewrite gyield_all_run. apply segmented_end.
  - apply segmented_nil.
Qed.

(** *** The runs of a segmented stream *)

Lemma total_app (a c : list bytes) : (total (a ++ c) = total a + total c)%Z.
Proof.
  unfold total. induction a as [|x a IH]; simpl; [reflexivity|].
  fold (total (a ++ c)) in *. fold (total a). unfold total in *. lia.
Qed.

Lemma runs_trailers (fin : list bytes) (tr : list emitted) (cur : list bytes) :
  runs (map Trailer fin ++ tr) cur = runs tr cur.
Proof. induction fin as [|c fin IH]; [reflexivity | exact IH]. Qed.

Lemma over_limit_false (size : Z) :
  (0 < max)%Z -> over_limit max size = false -> (size <= max)%Z.
Proof.
  unfold over_limit. intros Hmax H.
  destruct (Z.eqb_spec max 0); [lia|]. simpl in H.
  destruct (Z.gtb_spec size max); [discriminate | lia].
Qed.

Lemma over_limit_true (size : Z) :
  over_limit max size = true -> (max < size)%Z.
Proof.
  unfold over_limit. intros H. apply andb_true_iff in H. destruct H as [_ H].
  destruct (Z.gtb_spec size max); [lia | discriminate].
Qed.

Lemma segmented_runs (size : Z) (tr : list emitted) :
  (0 < max)%Z ->
  segmented max size tr ->
  forall cur, total cur = size -> (size <= max)%Z ->
              Forall (closed_by_last max) (fst (runs tr cur)).
Proof.
  intros Hmax. induction 1 as [size fin | size c rest Hover _ IH
                               | size c fin rest Hover _ IH | size c Hover];
    intros cur Hcur Hle.
  - rewrite <- (app_nil_r (map Trailer fin)), runs_trailers. constructor.
  - cbn [runs]. apply IH.
    + assert (Hc : total [c] = blen c) by (unfold total; simpl; lia).
      rewrite total_app, Hc. lia.
    + now apply over_limit_false.
  - cbn [runs]. rewrite runs_trailers. cbn [runs].
    specialize (IH [] eq_refl (Z.lt_le_incl _ _ Hmax)).
    destruct (runs rest []) as [closed last]. cbn [fst] in *.
    constructor; [|exact IH].
    exists cur, c. apply over_limit_true in Hover.
    assert (Hc : total [c] = blen c) by (unfold total; simpl; lia).
    rewrite total_app, Hc. repeat split; lia.
  - cbn [runs]. constructor.
Qed.

(** *** Without trailers, the payload of the stream is its fragments *)

Hypothesis finalize_silent : forall t fin t', finalize t = Ok (fin, t') -> fin = [].

Lemma marked_chunks_no_trailer (g : list (T -> result (bytes * T))) :
  forall size t, Forall no_trailer (fst (marked_chunks finalize max g size t)).
Proof.
  induction g as [|next g IH]; intros size t; [constructor|].
  cbn [marked_chunks].
  rewrite gbind_glift. destruct (next t) as [[c t1]|e]; [|constructor].
  rewrite gbind_gyield. cbn [fst]. constructor; [exact I|].
  destruct (over_limit max (size + blen c)); [|apply IH].
  rewrite gbind_glift. destruct (finalize t1) as [[fin t2]|e] eqn:Hfin;
    [|constructor].
  apply finalize_silent in Hfin. subst fin.
  rewrite gbind_gyield_all, gbind_gyield. cbn [fst map app].
  constructor; [exact I | apply IH].
Qed.

Lemma marked_iter_no_trailer (batches : list RecordBatch) (t : T) :
  Forall no_trailer (fst (marked_iter transform_batch finalize batches max t)).
Proof.
  unfold marked_iter. rewrite gbind_run.
  assert (H : forall size t0,
             Forall no_trailer
               (fst (marked_batches transform_batch finalize max batches size t0))).
  { induction batches as [|rb rest IH]; intros size t0; [constructor|].
    cbn [marked_batches]. rewrite gbind_glift.
    destruct (transform_batch t0 rb) as [g|e]; [|constructor].
    cbn [rbind]. rewrite gbind_run.
    pose proof (marked_chunks_no_trailer g size t0) as Hg.
    destruct (snd (marked_chunks finalize max g size t0)) as [[s1 t1]|e];
      [|exact Hg].
    cbn [fst]. apply Forall_app. split; [exact Hg | apply IH]. }
  specialize (H 0%Z t).
  destruct (snd (marked_batches transform_batch finalize max batches 0 t))
    as [[size' t']|e]; [|exact H].
  cbn [fst]. apply Forall_app. split; [exact H|].
  rewrite gbind_glift. destruct (finalize t') as [[fin t'']|e] eqn:Hfin;
    [|constructor].
  apply finalize_silent in Hfin. subst fin. constructor.
Qed.

Lemma payload_runs_no_trailer (tr : list emitted) :
  Forall no_trailer tr ->
  forall cur,
    payload_runs (map chunk_of tr) (total cur)
    = (map total (fst (runs tr cur)), total (snd (runs tr cur))).
Proof.
  induction 1 as [|e tr He _ IH]; intros cur; [reflexivity|].
  destruct e as [c | c | ]; cbn [map chunk_of payload_runs runs].
  - replace (total cur + blen c)%Z with (total (cur ++ [c])); [apply IH|].
    assert (Hc : total [c] = blen c) by (unfold total; simpl; lia).
    rewrite total_app, Hc. lia.
  - destruct He.
  - change 0%Z with (total []). rewrite IH.
    destruct (runs tr []) as [closed last]. reflexivity.
Qed.
End Segments.

(** The consumer of the pipeline cuts its stream as the base class does,
    with no trailers. *)
Lemma yield_chunks_segmented (max : Z) (chunks : list bytes) :
  forall size,
  exists marked,
    fst (yield_chunks max chunks size) = map chunk_of marked
    /\ Forall no_trailer marked
    /\ forall rest, segmented max (snd (yield_chunks max chunks size)) rest ->
                    segmented max size (marked ++ rest).
Proof.
  induction chunks as [|c chunks IH]; intros size.
  - exists []. repeat split; [constructor | now intros rest H].
  - cbn [yield_chunks]. destruct (over_limit max (size + blen c)) eqn:Hover.
    + destruct (IH 0%Z) as [marked [Hout [Hnt Hseg]]].
      destruct (yield_chunks max chunks 0) as [out size'].
      exists (Fragment c :: Boundary :: marked). cbn [fst snd] in *. split.
      * now rewrite Hout.
      * split; [repeat constructor; assumption|].
        intros rest Hrest.
        apply segmented_over with (fin := []); [exact Hover | now apply Hseg].
    + destruct (IH (size + blen c)%Z) as [marked [Hout [Hnt Hseg]]].
      destruct (yield_chunks max chunks (size + blen c)) as [out size'].
      exists (Fragment c :: marked). cbn [fst snd] in *. split.
      * now rewrite Hout.
      * split; [constructor; [exact I | assumption]|].
        intros rest Hrest. cbn [app].
        apply segmented_under; [exact Hover | now apply Hseg].
Qed.

Lemma consume_segmented (max : Z) (results : list (list bytes)) :
  forall size,
  exists marked,
    fst (consume max results size) = map chunk_of marked
    /\ Forall no_trailer marked
    /\ forall rest, segmented max (snd (consume max results size)) rest ->
                    segmented max size (marked ++ rest).
Proof.
  induction results as [|chunks results IH]; intros size.
  - exists []. repeat split; [constructor | now intros rest H].
  - cbn [consume].
    destruct (yield_chunks_segmented max chunks size) as [m1 [H1 [N1 S1]]].
    destruct (yield_chunks max chunks size) as [out size1].
    destruct (IH size1) as [m2 [H2 [N2 S2]]].
    destruct (consume max results size1) as [out' size2].
    cbn [fst snd] in *. exists (m1 ++ m2).
    split; [rewrite map_app; congruence|].
    split; [apply Forall_app; split; assumption|].
    intros rest Hrest. rewrite <- app_assoc. apply S1, S2, Hrest.
Qed.

(** The runs of what the consumer yields, from a counter of zero. *)
Lemma consume_runs (max : Z) (results : list (list bytes)) :
  (0 < max)%Z ->
  exists marked,
    fst (consume max results 0) = map chunk_of marked
    /\ Forall no_trailer marked
    /\ Forall (closed_by_last max) (fst (runs marked []))
    /\ fst (payload_runs (fst (consume max results 0)) 0)
       = map total (fst (runs marked [])).
Proof.
  intros Hmax.
  destruct (consume_segmented max results 0) as [marked [Hout [Hnt Hseg]]].
  exists marked. split; [exact Hout|]. split; [exact Hnt|]. split.
  - specialize (Hseg [] (segmented_end max _ [])). rewrite app_nil_r in Hseg.
    apply (segmented_runs max 0 marked Hmax Hseg [] eq_refl). lia.
  - rewrite Hout.
    pose proof (payload_runs_no_trailer marked Hnt []) as H.
    change (total []) with 0%Z in H. now rewrite H.
Qed.

Lemma over_limit_own (a c : Z) :
  (0 < a)%Z -> (0 < c)%Z ->
  over_limit a (0 + a) = false /\ over_limit a (0 + a + c) = true.
Proof.
  intros Ha Hc. unfold over_limit.
  destruct (Z.eqb_spec a 0); [lia|]. cbn [negb andb].
  split.
  - destruct (Z.gtb_spec (0 + a) a); [lia | reflexivity].
  - destruct (Z.gtb_spec (0 + a + c) a); [reflexivity | lia].
Qed.

Lemma compress_brotli {libs : Libraries} (t : StreamTransformer) (bs : bytes) :
  compression_is t "brotli" = true ->
  compress t (CBytes bs)
  = rbind (brotli_process (fst (brotli_compressor t)) bs)
          (fun r1 => rbind (brotli_flush (snd r1))
                           (fun r2 => Ok (fst r2, set_brotli t (Some (snd r2))))).
Proof.
  unfold compression_is, compress. cbn [rbind].
  destruct (compression t) as [name|] eqn:Hc; [|discriminate].
  intros H. pose proof H as Hname. apply pystr_eqb_eq in Hname. subst name.
  change (pystr_eqb (u "brotli") (u "gzip")) with false. cbn iota.
  rewrite H. unfold brotli_compressor.
  destruct (_brotli_compressor t); reflexivity.
Qed.

(** With brotli, whatever the bytes of the library: two rows whose
    fragments are not empty, against a limit of the length of the first.
    The second fragment takes the counter over the limit, and what
    [finish] returns comes before the boundary. *)
Lemma brotli_trailer_before_boundary {libs : Libraries}
      (p1 f1 p2 f2 tr : bytes) (c1 c2 c3 c4 c5 : brotli_state) :
  brotli_process brotli_Compressor (line_a x31) = Ok (p1, c1) ->
  brotli_flush c1 = Ok (f1, c2) ->
  brotli_process c2 (line_a x32) = Ok (p2, c3) ->
  brotli_flush c3 = Ok (f2, c4) ->
  brotli_finish c4 = Ok (tr, c5) ->
  (0 < blen f1)%Z -> (0 < blen f2)%Z ->
  exists rest,
    fst (sequential 255 [two_rows] (blen f1)
           (new_transformer JSONLStreamTransformer (Some (u "brotli")) true))
    = (f1, false) :: (f2, false) :: (tr, false) :: ([], true) :: rest.
Proof.
  intros H1 H2 H3 H4 H5 Hf1 Hf2.
  destruct (over_limit_own _ _ Hf1 Hf2) as [Hu Ho].
  set (t := new_transformer JSONLStreamTransformer (Some (u "brotli")) true).
  unfold sequential, iter_transformed_record_batches.
  destruct (gbind_prefix
              (for_batches (transform_batch 255) finalize (blen f1) [two_rows] 0)
              (fun _ => (fin <~ glift finalize ;;
                         gyield_all (map not_boundary fin))%gen) t)
    as [rest1 ->].
  cbn [for_batches]. rewrite gbind_glift.
  change (transform_batch 255 t two_rows)
    with (Ok [_write_dict 255 [(u "a", PInt 1)]; _write_dict 255 [(u "a", PInt 2)]]).
  cbn [rbind].
  match goal with
  | |- context [gbind ?m ?k t] => destruct (gbind_prefix m k t) as [rest2 ->]
  end.
  assert (Hw1 : _write_dict 255 [(u "a", PInt 1)] t
                = Ok (f1, set_brotli t (Some c2))).
  { unfold _write_dict.
    change (encode_row 255 [(u "a", PInt 1)]) with (Ok (line_a x31)).
    cbn [rbind]. unfold _write. rewrite compress_brotli by reflexivity.
    change (fst (brotli_compressor t)) with brotli_Compressor.
    rewrite H1. cbn [rbind snd]. rewrite H2. reflexivity. }
  assert (Hw2 : _write_dict 255 [(u "a", PInt 2)] (set_brotli t (Some c2))
                = Ok (f2, set_brotli (set_brotli t (Some c2)) (Some c4))).
  { unfold _write_dict.
    change (encode_row 255 [(u "a", PInt 2)]) with (Ok (line_a x32)).
    cbn [rbind]. unfold _write. rewrite compress_brotli by reflexivity.
    change (fst (brotli_compressor (set_brotli t (Some c2)))) with c2.
    rewrite H3. cbn [rbind snd]. rewrite H4. reflexivity. }
  assert (Hfin : finalize (set_brotli (set_brotli t (Some c2)) (Some c4))
                 = Ok ([tr], set_brotli (set_brotli (set_brotli t (Some c2))
                                                    (Some c4)) (Some c5))).
  { unfold finalize.
    change (compression_is (set_brotli (set_brotli t (Some c2)) (Some c4))
                           "brotli") with true.
    cbn [brotli_compressor set_brotli _brotli_compressor]. rewrite H5.
    reflexivity. }
  rewrite (for_chunks_under _ finalize (blen f1) _ _ _ _ _ _ Hw1 Hu).
  rewrite (for_chunks_over _ finalize (blen f1) _ _ _ _ _ _ _ _ Hw2 Ho Hfin).
  cbn [fst map not_boundary app for_chunks gret].
  eexists. reflexivity.
Qed.

(** C3, as the code has it: the stream is the marked stream with its
    marks erased, and the marked stream is segmented: the size is
    compared after every fragment that is yielded and counted, within a
    batch as well; when it is over the limit the output of [finalize]
    follows as non-boundary chunks, then one boundary chunk with an empty
    payload, and the count starts again from zero. The consumer of the
    pipeline cuts the chunks of a job in the same way, with nothing to
    finalize. *)
Theorem chunk_stream_segmented
        (T : Type)
        (transform_batch : T -> RecordBatch -> result (list (T -> result (bytes * T))))
        (finalize : T -> result (list bytes * T))
        (record_batches : list RecordBatch) (max_file_size_bytes : Z) (t : T) :
  let marked := marked_iter transform_batch finalize record_batches
                            max_file_size_bytes t in
  iter_transformed_record_batches transform_batch finalize record_batches
    max_file_size_bytes t
  = (map chunk_of (fst marked), snd marked)
  /\ segmented max_file_size_bytes 0 (fst marked)
  /\ chunk_of Boundary = ([], true)
  /\ (forall chunks size,
      exists marked',
        fst (yield_chunks max_file_size_bytes chunks size) = map chunk_of marked'
        /\ Forall no_trailer marked'
        /\ forall rest,
            segmented max_file_size_bytes
                      (snd (yield_chunks max_file_size_bytes chunks size)) rest ->
            segmented max_file_size_bytes size (marked' ++ rest)).
Proof.
  cbv zeta. split; [apply iter_marked|].
  split; [apply marked_iter_segmented|]. split; [reflexivity|].
  intros chunks size. apply yield_chunks_segmented.
Qed.

(** C3 as stated fails: the size is not compared once per batch. One
    batch of two rows with a limit of five bytes gives a boundary after
    each row, from the method of the base class and from the pipeline
    alike; comparing when the batch is exhausted would give one. *)
Lemma boundary_within_a_batch :
  let t := @new_transformer sample_libs JSONLStreamTransformer None true in
  fst (sequential 255 [two_rows] 5 t)
  = [(line_a x31, false); ([], true); (line_a x32, false); ([], true)]
  /\ (exists s,
        run_schedule 255 (fun rb => rb) t 5
                     (one_batch 0 ++ [ProducerReturn; ConsumerGet])
                     (start [two_rows]) = Some s
        /\ consumer s = CDone
        /\ yielded s
           = [(line_a x31, false); ([], true); (line_a x32, false); ([], true)])
  /\ fst (checked_per_batch (transform_batch 255) finalize 5 [two_rows] 0 t)
     = [(line_a x31, false); (line_a x32, false); ([], true)].
Proof.
  cbv zeta. split; [vm_compute; reflexivity|]. split.
  - eexists. split; [vm_compute; reflexivity|]. split; reflexivity.
  - vm_compute. reflexivity.
Qed.

(** ** The pipeline: what every reachable state satisfies *)

Lemma unlinked_by_app (who : party) (name : nat) (a c : list shm_call) :
  unlinked_by who name (a ++ c) = unlinked_by who name a + unlinked_by who name c.
Proof. unfold unlinked_by. now rewrite filter_app, length_app. Qed.

Lemma nth_error_set_unlinked_same (rs : list region) (i : nat) (r : region) :
  nth_error rs i = Some r ->
  nth_error (set_unlinked rs i) i = Some {| buf := buf r; linked := false |}.
Proof.
  revert i. induction rs as [|x rs IH]; intros [|i]; simpl; try discriminate.
  - now intros [= ->].
  - apply IH.
Qed.

Lemma nth_error_set_unlinked_other (rs : list region) (i j : nat) :
  i <> j -> nth_error (set_unlinked rs i) j = nth_error rs j.
Proof.
  revert i j. induction rs as [|x rs IH]; intros [|i] [|j] H; simpl;
    try reflexivity; try congruence.
  apply IH. congruence.
Qed.

Lemma length_set_unlinked (rs : list region) (i : nat) :
  length (set_unlinked rs i) = length rs.
Proof.
  revert i. induction rs as [|x rs IH]; intros [|i]; simpl; auto.
Qed.

Section FutureLists.
Context {libs : Libraries}.

Lemma nth_error_set_future_same (fs : list future) (i : nat) (f x : future) :
  nth_error fs i = Some x -> nth_error (set_future fs i f) i = Some f.
Proof.
  revert i. induction fs as [|y fs IH]; intros [|i]; simpl; try discriminate.
  - reflexivity.
  - apply IH.
Qed.

Lemma nth_error_set_future_other (fs : list future) (i j : nat) (f : future) :
  i <> j -> nth_error (set_future fs i f) j = nth_error fs j.
Proof.
  revert i j. induction fs as [|y fs IH]; intros [|i] [|j] H; simpl;
    try reflexivity; try congruence.
  apply IH. congruence.
Qed.

Lemma length_set_future (fs : list future) (i : nat) (f : future) :
  length (set_future fs i f) = length fs.
Proof.
  revert i. induction fs as [|y fs IH]; intros [|i]; simpl; auto.
Qed.
End FutureLists.

Lemma skipn_cons_nth {A} (l : list A) (n : nat) (x : A) (rest : list A) :
  skipn n l = x :: rest ->
  nth_error l n = Some x /\ skipn (S n) l = rest /\ n < length l.
Proof.
  revert n. induction l as [|y l IH]; intros [|n]; simpl; try discriminate.
  - intros [= -> ->]. repeat split. lia.
  - intros H. destruct (IH _ H) as [H1 [H2 H3]]. repeat split; auto. lia.
Qed.

Lemma firstn_snoc_nth {A} (l : list A) (n : nat) (x : A) :
  nth_error l n = Some x -> firstn (S n) l = firstn n l ++ [x].
Proof.
  revert n. induction l as [|y l IH]; intros [|n]; simpl; try discriminate.
  - now intros [= ->].
  - intros H. f_equal. now apply IH.
Qed.

Lemma mapM_snoc {A B} (f : A -> result B) (l : list A) (a : A)
      (ys : list B) (y : B) :
  mapM f l = Ok ys -> f a = Ok y -> mapM f (l ++ [a]) = Ok (ys ++ [y]).
Proof.
  revert ys. induction l as [|x l IH]; simpl; intros ys Hl Ha.
  - injection Hl as <-. now rewrite Ha.
  - destruct (f x); [|discriminate]. simpl in *.
    destruct (mapM f l) as [zs|]; [|discriminate]. injection Hl as <-.
    now rewrite (IH zs eq_refl Ha).
Qed.

Lemma consume_snoc (max : Z) (results : list (list bytes)) (chunks : list bytes) :
  forall size,
    consume max (results ++ [chunks]) size
    = (fst (consume max results size)
         ++ fst (yield_chunks max chunks (snd (consume max results size))),
       snd (yield_chunks max chunks (snd (consume max results size)))).
Proof.
  induction results as [|r results IH]; intros size; simpl.
  - destruct (yield_chunks max chunks size). simpl. now rewrite app_nil_r.
  - destruct (yield_chunks max r size) as [o s1]. rewrite IH.
    destruct (consume max results s1) as [o' s2]. simpl.
    now rewrite app_assoc.
Qed.

Lemma unlinked_by_snoc (who : party) (name : nat) (calls : list shm_call)
      (c : shm_call) :
  unlinked_by who name (calls ++ [c])
  = unlinked_by who name calls
    + match c with
      | ShmUnlink w n => if party_eqb w who && (n =? name) then 1 else 0
      | _ => 0
      end.
Proof.
  rewrite unlinked_by_app. f_equal. unfold unlinked_by. simpl.
  destruct c; try reflexivity.
  now destruct (party_eqb who0 who && (name0 =? name)).
Qed.

Lemma closed_by_snoc (who : party) (name : nat) (calls : list shm_call)
      (c : shm_call) :
  closed_by who name (calls ++ [c])
  = closed_by who name calls
    + match c with
      | ShmClose w n => if party_eqb w who && (n =? name) then 1 else 0
      | _ => 0
      end.
Proof.
  unfold closed_by. rewrite filter_app, length_app. f_equal. simpl.
  destruct c; try reflexivity.
  now destruct (party_eqb who0 who && (name0 =? name)).
Qed.

Section PipelineInvariant.
Context {libs : Libraries}.
Variable recursion_limit : nat.
Variable cast_record_batch_json_columns : RecordBatch -> RecordBatch.
Variable self : StreamTransformer.
Variable max_file_size_bytes : Z.
Variable batches : list RecordBatch.

Local Notation "'invariant'" :=
  (invariant recursion_limit cast_record_batch_json_columns self
             max_file_size_bytes batches).
Local Notation "'job_state'" :=
  (job_state recursion_limit cast_record_batch_json_columns self).
Local Notation "'result_of'" :=
  (job_result recursion_limit cast_record_batch_json_columns self).
Local Notation "'outcome'" :=
  (fun rb => transformed recursion_limit self
               (received cast_record_batch_json_columns rb)).

Lemma job_state_ext (i : nat) (rb : RecordBatch) (s s' : pipeline) :
  nth_error (futures s') i = nth_error (futures s) i ->
  nth_error (regions (memory s')) i = nth_error (regions (memory s)) i ->
  unlinked_by Worker i (calls (memory s')) = unlinked_by Worker i (calls (memory s)) ->
  closed_by Worker i (calls (memory s')) = closed_by Worker i (calls (memory s)) ->
  job_state i rb s -> job_state i rb s'.
Proof.
  intros Hf Hr Hu Hc [[H1 [H2 [H3 H4]]]|[H1 [H2 [H3 H4]]]]; [left | right];
    rewrite Hf, Hr, Hu, Hc; auto.
Qed.

Lemma job_result_ok (rb : RecordBatch) (chunks : list bytes) :
  result_of rb = Ok chunks ->
  transformed recursion_limit self (received cast_record_batch_json_columns rb)
  = Ok chunks.
Proof.
  unfold job_result.
  destruct (transformed recursion_limit self
              (received cast_record_batch_json_columns rb)); congruence.
Qed.

Lemma job_result_raise (rb : RecordBatch) (e : exn) :
  result_of rb = Raise e ->
  e = BufferError
  /\ exists e0,
      transformed recursion_limit self (received cast_record_batch_json_columns rb)
      = Raise e0.
Proof.
  unfold job_result.
  destruct (transformed recursion_limit self
              (received cast_record_batch_json_columns rb)) as [c|e0];
    [discriminate|].
  intros [= <-]. split; [reflexivity | now exists e0].
Qed.

Lemma invariant_start : invariant (start batches) 0.
Proof.
  constructor; cbn; try reflexivity; try lia; try discriminate;
    try (intros; lia); try (intros; contradiction).
  exists []. split; reflexivity.
Qed.

Lemma invariant_producer_submit (s s' : pipeline) (done : nat) :
  invariant s done -> producer_submit s = Some s' -> invariant s' done.
Proof.
  intros [Hin Hsub Hreg Hjobs Hpu Hpc Hfresh Hcre Hq Hqb Hqle Hdle Hput Haw Hret
              Hdone Hcons Hraised Hy] H.
  unfold producer_submit in H.
  destruct (producer_task s) eqn:Hp; try discriminate.
  destruct (record_batches s) as [|rb rest] eqn:Hrb; try discriminate.
  unfold shm_create in H. injection H as <-.
  symmetry in Hin. destruct (skipn_cons_nth _ _ _ _ Hin) as [Hnth [Hskip Hlt]].
  unfold enqueued in *. rewrite Hp in *.
  constructor; cbn [record_batches producer_task task_queue futures memory
                    consumer current_file_size yielded regions calls];
    rewrite ?length_app; cbn [length]; rewrite ?Nat.add_1_r.
  - now rewrite Hskip.
  - lia.
  - now rewrite Hreg.
  - intros i rb' Hi Hlt'.
    destruct (Nat.eq_dec i (length (futures s))) as [->|Hne].
    + rewrite Hnth in Hi. injection Hi as <-. left.
      cbn [futures memory regions calls].
      rewrite nth_error_app2 by lia. rewrite Nat.sub_diag. cbn [nth_error].
      rewrite Hreg. split; [reflexivity|].
      rewrite nth_error_app2 by lia. rewrite Hreg, Nat.sub_diag. cbn [nth_error].
      split; [reflexivity|].
      rewrite unlinked_by_snoc, closed_by_snoc.
      destruct (Hfresh (length (futures s)) (le_n _)) as [-> ->].
      split; reflexivity.
    + assert (Hi' : i < length (futures s)) by lia.
      apply (job_state_ext i rb' s); cbn [futures memory regions calls]; auto.
      * now rewrite nth_error_app1 by lia.
      * now rewrite nth_error_app1 by lia.
      * rewrite unlinked_by_snoc. apply Nat.add_0_r.
      * rewrite closed_by_snoc. apply Nat.add_0_r.
  - intros name. rewrite unlinked_by_snoc, Hpu. reflexivity.
  - intros name. rewrite closed_by_snoc, Hpc. apply Nat.add_0_r.
  - intros name Hn. rewrite unlinked_by_snoc, closed_by_snoc.
    destruct (Hfresh name ltac:(lia)) as [-> ->]. split; reflexivity.
  - intros who name Hin'. apply in_app_or in Hin'.
    destruct Hin' as [Hin'|[Heq|[]]]; [eauto | congruence].
  - exact Hq.
  - exact Hqb.
  - exact Hqle.
  - exact Hdle.
  - intros fut name [= <- <-]. split; congruence.
  - exact Haw.
  - discriminate.
  - intros Hc. destruct (Hdone Hc) as [Hd _]. congruence.
  - intros i Hi. destruct (Hcons i Hi) as [chunks Hc]. exists chunks.
    rewrite nth_error_app1 by lia. exact Hc.
  - intros e He. destruct (Hraised e He) as [[Hf Hlt']|[Hpf _]]; [|congruence].
    left. split; [|exact Hlt']. rewrite nth_error_app1 by lia. exact Hf.
  - exact Hy.
Qed.

Lemma invariant_producer_put (s s' : pipeline) (done : nat) :
  invariant s done -> producer_put s = Some s' -> invariant s' done.
Proof.
  intros [Hin Hsub Hreg Hjobs Hpu Hpc Hfresh Hcre Hq Hqb Hqle Hdle Hput Haw Hret
              Hdone Hcons Hraised Hy] H.
  unfold producer_put in H.
  destruct (producer_task s) as [|fut name| |] eqn:Hp; try discriminate.
  destruct (length (task_queue s) <? max_workers) eqn:Hroom; try discriminate.
  apply Nat.ltb_lt in Hroom.
  injection H as <-.
  destruct (Hput fut name eq_refl) as [<- Hn].
  unfold enqueued in *. rewrite Hp in *.
  constructor; unfold enqueued;
    cbn [record_batches producer_task task_queue futures memory
         consumer current_file_size yielded regions calls shm_close]; auto.
  - intros i rb Hi Hlt. apply (job_state_ext i rb s);
      cbn [futures memory regions calls shm_close]; auto.
    + rewrite unlinked_by_snoc. apply Nat.add_0_r.
    + rewrite closed_by_snoc. apply Nat.add_0_r.
  - intros name. rewrite unlinked_by_snoc, Hpu. reflexivity.
  - intros name. rewrite closed_by_snoc, Hpc. cbn [party_eqb andb].
    rewrite <- Hn.
    destruct (Nat.eqb_spec fut name) as [->|Hne].
    + rewrite Nat.ltb_irrefl.
      assert (E : (name <? S name) = true) by (apply Nat.ltb_lt; lia).
      now rewrite E.
    + destruct (Nat.ltb_spec name fut), (Nat.ltb_spec name (S fut)); lia.
  - intros name Hle. rewrite unlinked_by_snoc, closed_by_snoc.
    destruct (Hfresh name Hle) as [-> ->]. split; reflexivity.
  - intros who name Hin'. apply in_app_or in Hin'.
    destruct Hin' as [Hin'|[Heq|[]]]; [eauto | discriminate].
  - rewrite Hq.
    destruct (consumer s) eqn:Hc; cbn [awaited] in *.
    + specialize (Hqle ltac:(intros e; discriminate)).
      replace (length (futures s) - (done + 0)) with (S (fut - (done + 0))) by lia.
      rewrite seq_S. do 2 f_equal. lia.
    + specialize (Hqle ltac:(intros e; discriminate)).
      replace (length (futures s) - (done + 1)) with (S (fut - (done + 1))) by lia.
      rewrite seq_S. do 2 f_equal. lia.
    + destruct (Hdone eq_refl) as [Hd _]. discriminate.
    + destruct (Hraised e eq_refl) as [[_ Hlt]|[Hpf _]]; [|discriminate].
      replace (length (futures s) - (done + 1)) with (S (fut - (done + 1))) by lia.
      rewrite seq_S. do 2 f_equal. lia.
  - rewrite length_app. cbn [length]. lia.
  - intros Hne. specialize (Hqle Hne). lia.
  - lia.
  - discriminate.
  - discriminate.
  - intros Hc. destruct (Hdone Hc) as [Hd _]. discriminate.
  - intros e He. destruct (Hraised e He) as [[Hf Hlt]|[Hpf _]]; [|discriminate].
    left. split; [exact Hf | lia].
Qed.

Lemma invariant_producer_return (s s' : pipeline) (done : nat) :
  invariant s done -> producer_return s = Some s' -> invariant s' done.
Proof.
  intros [Hin Hsub Hreg Hjobs Hpu Hpc Hfresh Hcre Hq Hqb Hqle Hdle Hput Haw Hret
              Hdone Hcons Hraised Hy] H.
  unfold producer_return in H.
  destruct (producer_task s) eqn:Hp; try discriminate.
  destruct (record_batches s) eqn:Hrb; try discriminate.
  injection H as <-.
  unfold enqueued in *. rewrite Hp in *.
  constructor; unfold enqueued;
    cbn [record_batches producer_task task_queue futures memory
         consumer current_file_size yielded]; auto; try discriminate.
  - intros Hc. destruct (Hdone Hc) as [Hd _]. discriminate.
  - intros e He. destruct (Hraised e He) as [H|[Hpf _]]; [now left | discriminate].
Qed.

Lemma invariant_producer_raise (e : exn) (s s' : pipeline) (done : nat) :
  invariant s done -> producer_raise e s = Some s' -> invariant s' done.
Proof.
  intros [Hin Hsub Hreg Hjobs Hpu Hpc Hfresh Hcre Hq Hqb Hqle Hdle Hput Haw Hret
              Hdone Hcons Hraised Hy] H.
  unfold producer_raise in H.
  destruct (producer_task s) eqn:Hp; try discriminate.
  injection H as <-.
  unfold enqueued in *. rewrite Hp in *.
  constructor; unfold enqueued;
    cbn [record_batches producer_task task_queue futures memory
         consumer current_file_size yielded]; auto; try discriminate.
  - intros Hc. destruct (Hdone Hc) as [Hd _]. discriminate.
  - intros e0 He. destruct (Hraised e0 He) as [H|[Hpf _]]; [now left | discriminate].
Qed.

Lemma enqueued_le (s : pipeline) (done : nat) :
  invariant s done -> enqueued s <= length (futures s).
Proof.
  intros Hinv. unfold enqueued.
  destruct (producer_task s) as [|fut name| |] eqn:Hp; try lia.
  destruct (inv_put Hinv Hp). lia.
Qed.

Lemma submitted_batch (s : pipeline) (done i : nat) :
  invariant s done -> i < length (futures s) ->
  exists rb, nth_error batches i = Some rb /\ job_state i rb s.
Proof.
  intros Hinv Hi.
  destruct (nth_error batches i) as [rb|] eqn:E.
  - exists rb. split; [reflexivity|]. now apply (inv_jobs Hinv).
  - apply nth_error_None in E. pose proof (inv_submitted Hinv). lia.
Qed.

Lemma invariant_worker_run (fut : nat) (s s' : pipeline) (done : nat) :
  invariant s done -> worker_run recursion_limit cast_record_batch_json_columns
                                 self fut s = Some s' ->
  invariant s' done.
Proof.
  intros Hinv H.
  unfold worker_run in H.
  destruct (nth_error (futures s) fut) as [[name|r]|] eqn:Hf; try discriminate.
  assert (Hlt : fut < length (futures s))
    by (apply nth_error_Some; congruence).
  destruct (submitted_batch s done fut Hinv Hlt) as [rb [Hrb Hjob]].
  destruct Hjob as [[H1 [H2 [H3 H4]]]|[H1 _]]; [|congruence].
  rewrite H1 in Hf. injection Hf as <-.
  unfold transform_record_batch_from_shared_memory, shm_open in H.
  rewrite H2 in H. cbn [linked buf] in H.
  change (rbind (transform_batch recursion_limit self
                   (cast_record_batch_json_columns (ipc_roundtrip rb)))
                (fun g => rbind (run_generator g self) (fun out => Ok (fst out))))
    with (transformed recursion_limit self
            (received cast_record_batch_json_columns rb)) in H.
  destruct Hinv as [Hin Hsub Hreg Hjobs Hpu Hpc Hfresh Hcre Hq Hqb Hqle Hdle Hput
                        Haw Hret Hdone Hcons Hraised Hy].
  assert (Hnew : forall i, i < done ->
                           nth_error (futures s) i <> Some (Submitted fut)).
  { intros i Hi. destruct (Hcons i Hi) as [chunks ->]. discriminate. }
  assert (Hfd : fut <> done \/ forall e, consumer s <> CRaised e).
  { destruct (consumer s) eqn:Hc;
      try (right; intros e0; discriminate).
    left. intros ->. destruct (Hraised e eq_refl) as [[Hf _]|[_ [Hd _]]];
      [congruence | lia]. }
  unfold enqueued in *.
  destruct (transformed recursion_limit self
              (received cast_record_batch_json_columns rb)) as [chunks|e0] eqn:Hres;
    injection H as <-.
  - constructor; unfold enqueued;
      cbn [record_batches producer_task task_queue futures memory
           consumer current_file_size yielded regions calls shm_close shm_unlink];
      rewrite ?length_set_future, ?length_set_unlinked; auto.
    + intros i rb' Hi Hlt'.
      destruct (Nat.eq_dec fut i) as [<-|Hne].
      * rewrite Hrb in Hi. injection Hi as <-. right.
        cbn [futures memory regions calls shm_close shm_unlink].
        rewrite (nth_error_set_future_same _ _ _ _ H1).
        rewrite (nth_error_set_unlinked_same _ _ _ H2).
        rewrite !unlinked_by_snoc, !closed_by_snoc, H3, H4.
        unfold job_result, released. rewrite Hres.
        cbn [party_eqb andb is_ok negb buf]. rewrite Nat.eqb_refl.
        repeat split; reflexivity.
      * apply (job_state_ext i rb' s);
          cbn [futures memory regions calls shm_close shm_unlink]; auto.
        -- now apply nth_error_set_future_other.
        -- now apply nth_error_set_unlinked_other.
        -- rewrite !unlinked_by_snoc. cbn [party_eqb andb].
           apply Nat.eqb_neq in Hne. rewrite Hne. lia.
        -- rewrite !closed_by_snoc. cbn [party_eqb andb].
           apply Nat.eqb_neq in Hne. rewrite Hne. lia.
    + intros name. rewrite !unlinked_by_snoc, Hpu. reflexivity.
    + intros name. rewrite !closed_by_snoc, Hpc. cbn [party_eqb andb]. lia.
    + intros name Hle. rewrite !unlinked_by_snoc, !closed_by_snoc.
      destruct (Hfresh name Hle) as [-> ->]. cbn [party_eqb andb].
      assert (Hne : fut <> name) by lia.
      apply Nat.eqb_neq in Hne. rewrite Hne. split; reflexivity.
    + intros who name Hin'.
      repeat (apply in_app_or in Hin'; destruct Hin' as [Hin'|[Heq|[]]];
              [|discriminate]).
      eauto.
    + intros i Hi. destruct (Hcons i Hi) as [cs Hc]. exists cs.
      rewrite nth_error_set_future_other; [exact Hc|].
      intros <-. congruence.
    + intros e He. destruct (Hraised e He) as [[Hfe Hlt']|Hprod]; [|now right].
      left. split; [|exact Hlt'].
      rewrite nth_error_set_future_other; [exact Hfe|].
      intros <-. congruence.
  - constructor; unfold enqueued;
      cbn [record_batches producer_task task_queue futures memory
           consumer current_file_size yielded regions calls];
      rewrite ?length_set_future; auto.
    + intros i rb' Hi Hlt'.
      destruct (Nat.eq_dec fut i) as [<-|Hne].
      * rewrite Hrb in Hi. injection Hi as <-. right.
        cbn [futures memory regions calls].
        rewrite (nth_error_set_future_same _ _ _ _ H1).
        rewrite !unlinked_by_snoc, !closed_by_snoc, H3, H4, H2.
        unfold job_result, released. rewrite Hres.
        cbn [is_ok negb]. repeat split; reflexivity.
      * apply (job_state_ext i rb' s);
          cbn [futures memory regions calls]; auto.
        -- now apply nth_error_set_future_other.
        -- rewrite !unlinked_by_snoc. lia.
        -- rewrite !closed_by_snoc. lia.
    + intros name. rewrite !unlinked_by_snoc, Hpu. reflexivity.
    + intros name. rewrite !closed_by_snoc, Hpc. lia.
    + intros name Hle. rewrite !unlinked_by_snoc, !closed_by_snoc.
      destruct (Hfresh name Hle) as [-> ->]. split; reflexivity.
    + intros who name Hin'.
      apply in_app_or in Hin'; destruct Hin' as [Hin'|[Heq|[]]];
        [eauto | discriminate].
    + intros i Hi. destruct (Hcons i Hi) as [cs Hc]. exists cs.
      rewrite nth_error_set_future_other; [exact Hc|].
      intros <-. congruence.
    + intros e He. destruct (Hraised e He) as [[Hfe Hlt']|Hprod]; [|now right].
      left. split; [|exact Hlt'].
      rewrite nth_error_set_future_other; [exact Hfe|].
      intros <-. congruence.
Qed.

Lemma invariant_consumer_get (s s' : pipeline) (done : nat) :
  invariant s done -> consumer_get s = Some s' -> invariant s' done.
Proof.
  intros [Hin Hsub Hreg Hjobs Hpu Hpc Hfresh Hcre Hq Hqb Hqle Hdle Hput Haw Hret
              Hdone Hcons Hraised Hy] H.
  unfold consumer_get in H.
  destruct (consumer s) eqn:Hc; try discriminate.
  specialize (Hqle ltac:(intros e; discriminate)).
  cbn [awaited] in *. rewrite Nat.add_0_r in *.
  destruct (task_queue s) as [|fut rest] eqn:Hqueue.
  - assert (Hall : enqueued s - done = 0).
    { destruct (enqueued s - done); [reflexivity | discriminate]. }
    destruct (producer_task s) eqn:Hp; try discriminate; injection H as <-.
    + constructor; unfold enqueued in *;
        cbn [record_batches producer_task task_queue futures memory
             consumer current_file_size yielded awaited];
        rewrite ?Hp, ?Nat.add_0_r in *; auto; try discriminate.
    + constructor; unfold enqueued in *;
        cbn [record_batches producer_task task_queue futures memory
             consumer current_file_size yielded awaited];
        rewrite ?Hp in *; auto; try discriminate.
      * replace (length (futures s) - (done + 1)) with 0 by lia. reflexivity.
      * intros Hne. exfalso. exact (Hne e eq_refl).
      * intros e0 [= <-]. right. repeat split; auto; lia.
  - injection H as <-.
    destruct (enqueued s - done) as [|k] eqn:Hk; [discriminate|].
    cbn [seq] in Hq. injection Hq as -> ->.
    assert (Henq : enqueued
                     {| record_batches := record_batches s;
                        producer_task := producer_task s;
                        task_queue := seq (S done) k;
                        futures := futures s;
                        memory := memory s;
                        consumer := CAwait done;
                        current_file_size := current_file_size s;
                        yielded := yielded s |} = enqueued s) by reflexivity.
    constructor; rewrite ?Henq;
      cbn [record_batches producer_task task_queue futures memory
           consumer current_file_size yielded awaited]; auto; try discriminate.
    + f_equal; lia.
    + cbn [length] in Hqb. lia.
    + intros _. lia.
    + now intros fut [= <-].
Qed.

Lemma invariant_consumer_await (s s' : pipeline) (done : nat) :
  invariant s done -> consumer_await max_file_size_bytes s = Some s' ->
  exists done', invariant s' done'.
Proof.
  intros Hinv H.
  unfold consumer_await in H.
  destruct (consumer s) as [|fut| |] eqn:Hc; try discriminate.
  pose proof (inv_await Hinv Hc) as ->.
  pose proof (enqueued_le s done Hinv) as Henq.
  pose proof (inv_queue_le Hinv) as Hle. rewrite Hc in Hle. cbn [awaited] in Hle.
  specialize (Hle ltac:(intros e; discriminate)).
  destruct (submitted_batch s done done Hinv ltac:(lia)) as [rb [Hrb Hjob]].
  destruct (nth_error (futures s) done) as [[name|[chunks|e]]|] eqn:Hf;
    try discriminate.
  - destruct Hjob as [[H1 _]|[H1 _]]; rewrite Hf in H1; [discriminate|].
    injection H1 as H1. symmetry in H1. apply job_result_ok in H1.
    destruct (yield_chunks max_file_size_bytes chunks (current_file_size s))
      as [out size] eqn:Hyield.
    injection H as <-.
    destruct Hinv as [Hin Hsub Hreg Hjobs Hpu Hpc Hfresh Hcre Hq Hqb Hqle Hdle Hput
                          Haw Hret Hdone Hcons Hraised Hy].
    rewrite Hc in *. cbn [awaited] in *.
    exists (S done).
    assert (Hsame : forall q y z,
               enqueued
                 {| record_batches := record_batches s;
                    producer_task := producer_task s;
                    task_queue := q;
                    futures := futures s;
                    memory := memory s;
                    consumer := CGet;
                    current_file_size := z;
                    yielded := y |} = enqueued s) by reflexivity.
    constructor; rewrite ?Hsame;
      cbn [record_batches producer_task task_queue futures memory consumer
           current_file_size yielded awaited];
      auto; try discriminate; try lia; try (intros _; lia).
    + rewrite Hq. f_equal; lia.
    + intros i Hi. destruct (Nat.eq_dec i done) as [->|Hne].
      * now exists chunks.
      * apply Hcons. lia.
    + destruct Hy as [results [Hres Hcons']].
      exists (results ++ [chunks]). split.
      * rewrite (firstn_snoc_nth _ _ _ Hrb).
        apply mapM_snoc; [exact Hres | exact H1].
      * rewrite consume_snoc, Hcons'. cbn [fst snd]. now rewrite Hyield.
  - injection H as <-.
    destruct Hinv as [Hin Hsub Hreg Hjobs Hpu Hpc Hfresh Hcre Hq Hqb Hqle Hdle Hput
                          Haw Hret Hdone Hcons Hraised Hy].
    rewrite Hc in *. cbn [awaited] in *.
    exists done.
    assert (Hsame : enqueued
                      {| record_batches := record_batches s;
                         producer_task := producer_task s;
                         task_queue := task_queue s;
                         futures := futures s;
                         memory := memory s;
                         consumer := CRaised e;
                         current_file_size := current_file_size s;
                         yielded := yielded s |} = enqueued s) by reflexivity.
    constructor; rewrite ?Hsame;
      cbn [record_batches producer_task task_queue futures memory consumer
           current_file_size yielded awaited]; auto; try discriminate.
    intros e0 [= <-]. left. split; [exact Hf | lia].
Qed.

Lemma invariant_step (s s' : pipeline) (done : nat) :
  invariant s done ->
  step recursion_limit cast_record_batch_json_columns self max_file_size_bytes
       s s' ->
  exists done', invariant s' done'.
Proof.
  intros Hinv Hstep. inversion Hstep as [a s0 s1 H]; subst.
  destruct a; cbn [perform] in H.
  - exists done. eapply invariant_producer_submit; eauto.
  - exists done. eapply invariant_producer_put; eauto.
  - exists done. eapply invariant_producer_return; eauto.
  - exists done. eapply invariant_worker_run; eauto.
  - exists done. eapply invariant_consumer_get; eauto.
  - eapply invariant_consumer_await; eauto.
  - exists done. eapply invariant_producer_raise; eauto.
Qed.

Lemma invariant_reachable (s : pipeline) :
  steps recursion_limit cast_record_batch_json_columns self max_file_size_bytes
        (start batches) s ->
  exists done, invariant s done.
Proof.
  intros H. remember (start batches) as s0 eqn:Hs0.
  induction H as [s1|s1 s2 s3 _ IH Hstep]; subst.
  - exists 0. apply invariant_start.
  - destruct (IH eq_refl) as [done Hinv]. eapply invariant_step; eauto.
Qed.

Lemma all_consumed (s : pipeline) (done : nat) :
  invariant s done -> consumer s = CDone ->
  done = length batches /\ length (futures s) = length batches.
Proof.
  intros Hinv Hdone.
  destruct (inv_done Hinv Hdone) as [Hp Hq].
  pose proof (inv_return Hinv Hp) as Hrb.
  pose proof (inv_input Hinv) as Hin. rewrite Hrb in Hin.
  pose proof (inv_submitted Hinv) as Hsub.
  pose proof (inv_queue Hinv) as Hqueue.
  pose proof (inv_queue_le Hinv) as Hle.
  rewrite Hq, Hdone in Hqueue. rewrite Hdone in Hle. cbn [awaited] in *.
  specialize (Hle ltac:(intros e; discriminate)).
  unfold enqueued in *. rewrite Hp in *. rewrite Nat.add_0_r in *.
  symmetry in Hin. apply (f_equal (@length _)) in Hin.
  rewrite length_skipn in Hin. cbn [length] in Hin.
  destruct (length (futures s) - done) eqn:E; [lia | discriminate].
Qed.

End PipelineInvariant.

(** ** The pipeline runs to its end *)

Section Liveness.
Context {libs : Libraries}.
Variable recursion_limit : nat.
Variable cast_record_batch_json_columns : RecordBatch -> RecordBatch.
Variable self : StreamTransformer.
Variable max_file_size_bytes : Z.

Local Notation "'run'" :=
  (run_schedule recursion_limit cast_record_batch_json_columns self
                max_file_size_bytes).
Local Notation "'reaches'" :=
  (steps recursion_limit cast_record_batch_json_columns self max_file_size_bytes).

Lemma steps_cons (s s1 s2 : pipeline) :
  step recursion_limit cast_record_batch_json_columns self max_file_size_bytes
       s s1 ->
  reaches s1 s2 -> reaches s s2.
Proof.
  intros Hstep H. induction H as [x|x y z _ IH Hyz].
  - eapply steps_more; [apply steps_refl | exact Hstep].
  - eapply steps_more; [apply IH; exact Hstep | exact Hyz].
Qed.

Lemma steps_trans (s s1 s2 : pipeline) :
  reaches s s1 -> reaches s1 s2 -> reaches s s2.
Proof.
  intros H1 H2. induction H2 as [x|x y z _ IH Hyz]; [exact H1|].
  eapply steps_more; [apply IH; exact H1 | exact Hyz].
Qed.

Lemma run_schedule_steps (sched : list action) :
  forall s s', run sched s = Some s' -> reaches s s'.
Proof.
  induction sched as [|a sched IH]; simpl; intros s s' H.
  - injection H as <-. constructor.
  - destruct (perform recursion_limit cast_record_batch_json_columns self
                      max_file_size_bytes a s) as [s1|] eqn:Ha; [|discriminate].
    eapply steps_cons; [econstructor; exact Ha | now apply IH].
Qed.

Lemma run_one_batch (s : pipeline) (rb : RecordBatch) (rest : list RecordBatch)
      (chunks : list bytes) :
  quiescent s ->
  record_batches s = rb :: rest ->
  transformed recursion_limit self (received cast_record_batch_json_columns rb)
  = Ok chunks ->
  exists s', run (one_batch (length (futures s))) s = Some s'
             /\ quiescent s' /\ record_batches s' = rest.
Proof.
  intros [Hp [Hq [Hc Hlen]]] Hrb Hres.
  destruct s as [rbs p q fs [rs cs] c size out]. simpl in *. subst.
  unfold one_batch, run_schedule, perform.
  unfold producer_submit. cbn [producer_task record_batches memory shm_create
                               regions calls futures task_queue consumer
                               current_file_size yielded].
  unfold producer_put. cbn [producer_task task_queue length Nat.ltb Nat.leb
                            max_workers memory futures consumer
                            current_file_size yielded record_batches].
  unfold worker_run. cbn [futures].
  rewrite nth_error_app2 by lia. rewrite Nat.sub_diag. cbn [nth_error].
  unfold transform_record_batch_from_shared_memory, shm_open, shm_close.
  cbn [memory regions calls]. rewrite Hlen.
  rewrite nth_error_app2 by lia. rewrite Hlen, Nat.sub_diag.
  cbn [nth_error linked buf].
  unfold transformed, received in Hres. rewrite Hres.
  unfold consumer_get. cbn [consumer task_queue app].
  unfold consumer_await. cbn [consumer futures].
  erewrite nth_error_set_future_same
    by (rewrite nth_error_app2 by lia; rewrite Nat.sub_diag; reflexivity).
  cbn [current_file_size].
  destruct (yield_chunks max_file_size_bytes chunks size) as [o sz].
  eexists. split; [reflexivity|].
  unfold quiescent.
  cbn [producer_task task_queue consumer memory futures record_batches
       shm_unlink regions].
  rewrite length_set_unlinked, length_set_future, !length_app, Hlen.
  repeat split; reflexivity.
Qed.

Lemma pipeline_completes (batches : list RecordBatch) :
  forall (s : pipeline) (results : list (list bytes)),
    quiescent s ->
    record_batches s = batches ->
    mapM (fun rb => transformed recursion_limit self
                      (received cast_record_batch_json_columns rb)) batches
    = Ok results ->
    exists s', reaches s s' /\ consumer s' = CDone.
Proof.
  induction batches as [|rb rest IH]; intros s results Hq Hrb Hres.
  - destruct Hq as [Hp [Hqueue [Hc _]]].
    assert (H : exists s', run [ProducerReturn; ConsumerGet] s = Some s'
                           /\ consumer s' = CDone).
    { unfold run_schedule, perform, producer_return. rewrite Hp, Hrb.
      unfold consumer_get.
      cbn [consumer task_queue producer_task]. rewrite Hc, Hqueue.
      eexists. split; reflexivity. }
    destruct H as [s' [Hrun Hdone]]. exists s'.
    split; [now apply (run_schedule_steps _ _ _ Hrun) | exact Hdone].
  - cbn [mapM] in Hres. apply rbind_ok in Hres. destruct Hres as [chunks [Hc Hres]].
    apply rbind_ok in Hres. destruct Hres as [rs [Hrs _]].
    destruct (run_one_batch s rb rest chunks Hq Hrb Hc) as [s1 [Hrun [Hq1 Hrb1]]].
    destruct (IH s1 rs Hq1 Hrb1 Hrs) as [s' [Hsteps Hdone]].
    exists s'. split; [|exact Hdone].
    eapply steps_trans; [apply (run_schedule_steps _ _ _ Hrun) | exact Hsteps].
Qed.
End Liveness.

(** ** Who unlinks a region (C1) *)

Section Handoff.
Context {libs : Libraries}.
Variable recursion_limit : nat.
Variable cast_record_batch_json_columns : RecordBatch -> RecordBatch.

(** Once the worker has opened the region and the transformation has
    returned, it closes its handle and unlinks the region. *)
Lemma worker_unlinks (name : nat) (t : StreamTransformer) (m : shared_memory)
      (rb : RecordBatch) (chunks : list bytes) :
  fst (shm_open Worker name m) = Ok rb ->
  fst (transform_record_batch_from_shared_memory
         recursion_limit cast_record_batch_json_columns name t m) = Ok chunks ->
  calls (snd (transform_record_batch_from_shared_memory
                recursion_limit cast_record_batch_json_columns name t m))
  = calls m ++ [ShmOpen Worker name; ShmClose Worker name; ShmUnlink Worker name].
Proof.
  unfold transform_record_batch_from_shared_memory, shm_open.
  destruct (nth_error (regions m) name) as [r|]; [|discriminate].
  destruct (linked r); [|discriminate]. intros _.
  destruct (rbind (transform_batch recursion_limit t
                     (cast_record_batch_json_columns (ipc_roundtrip (buf r))))
                  (fun g => rbind (run_generator g t) (fun out => Ok (fst out))));
    [|discriminate].
  intros _. cbn [snd shm_unlink shm_close calls].
  now rewrite <- !app_assoc.
Qed.
End Handoff.

(** C1, as the code has it: in every state the pipeline reaches, regions
    are created by the producer only; the producer has unlinked none and
    has closed its handle, once, on the region of each job it has put in
    the queue, and on no other; no region has been unlinked more than
    once; and for every job that has finished with its chunks, the worker
    that opened the region has closed its handle and unlinked the region,
    once each, and the region is no longer linked. *)
Theorem worker_unlinks_exactly_once
        {libs : Libraries} (recursion_limit : nat)
        (cast_record_batch_json_columns : RecordBatch -> RecordBatch)
        (self : StreamTransformer) (max_file_size_bytes : Z)
        (batches : list RecordBatch) (s : pipeline) :
  steps recursion_limit cast_record_batch_json_columns self max_file_size_bytes
        (start batches) s ->
  (forall who name, In (ShmCreate who name) (calls (memory s)) -> who = Producer)
  /\ (forall name, unlinked_by Producer name (calls (memory s)) = 0)
  /\ (forall name, closed_by Producer name (calls (memory s))
                   = if name <? enqueued s then 1 else 0)
  /\ (forall name, unlinked_by Worker name (calls (memory s)) <= 1)
  /\ (forall fut chunks,
         nth_error (futures s) fut = Some (Finished (Ok chunks)) ->
         closed_by Worker fut (calls (memory s)) = 1
         /\ unlinked_by Worker fut (calls (memory s)) = 1
         /\ exists rb,
             nth_error (regions (memory s)) fut
             = Some {| buf := rb; linked := false |}).
Proof.
  intros Hsteps.
  destruct (invariant_reachable _ _ _ _ _ _ Hsteps) as [done Hinv].
  split; [exact (inv_creator Hinv)|]. split; [exact (inv_producer_unlinks Hinv)|].
  split; [exact (inv_producer_closes Hinv)|].
  split.
  - intros name. destruct (Nat.lt_ge_cases name (length (futures s))) as [Hlt|Hge].
    + destruct (submitted_batch _ _ _ _ _ _ _ _ Hinv Hlt) as [rb [_ Hjob]].
      destruct Hjob as [[_ [_ [H _]]]|[_ [_ [H _]]]]; rewrite H; [lia|].
      unfold released. destruct (is_ok _); lia.
    + destruct (inv_fresh Hinv Hge) as [-> _]. lia.
  - intros fut chunks Hf.
    assert (Hlt : fut < length (futures s)) by (apply nth_error_Some; congruence).
    destruct (submitted_batch _ _ _ _ _ _ _ _ Hinv Hlt) as [rb [_ Hjob]].
    destruct Hjob as [[H _]|[H [Hr [Hu Hc]]]]; [congruence|].
    rewrite Hf in H. injection H as H. symmetry in H.
    apply job_result_ok in H. unfold released in *. rewrite H in *.
    cbn [is_ok negb] in *.
    split; [exact Hc|]. split; [exact Hu|]. now exists rb.
Qed.

Lemma worker_unlinks_exactly_once_witness :
  let self := @new_transformer sample_libs JSONLStreamTransformer None true in
  exists s,
    run_schedule 255 (fun rb => rb) self 0
                 [ProducerSubmit; ProducerPut; WorkerRun 0] (start [two_rows])
    = Some s
    /\ nth_error (futures s) 0 = Some (Finished (Ok [line_a x31; line_a x32]))
    /\ closed_by Worker 0 (calls (memory s)) = 1
    /\ unlinked_by Worker 0 (calls (memory s)) = 1
    /\ closed_by Producer 0 (calls (memory s)) = 1
    /\ unlinked_by Producer 0 (calls (memory s)) = 0.
Proof.
  intros self. eexists. split; [vm_compute; reflexivity|].
  split; [reflexivity|].
  match goal with
  | |- closed_by Worker 0 (calls (memory ?s)) = 1 /\ _ =>
      destruct (@worker_unlinks_exactly_once sample_libs 255 (fun rb => rb) self 0
                  [two_rows] s) as [_ [Hp [Hpc [_ Hw]]]]
  end.
  - apply (run_schedule_steps 255 (fun rb => rb) self 0
             [ProducerSubmit; ProducerPut; WorkerRun 0]).
    vm_compute. reflexivity.
  - destruct (Hw 0 [line_a x31; line_a x32] eq_refl) as [Hc [Hu _]].
    split; [exact Hc|]. split; [exact Hu|].
    split; [exact (Hpc 0) | exact (Hp 0)].
Defined.

(** C1 as stated fails: the region the producer created is unlinked by
    the worker, and the producer only closes its handle. *)
Lemma region_unlinked_by_worker :
  let self := @new_transformer sample_libs JSONLStreamTransformer None true in
  exists s,
    run_schedule 255 (fun rb => rb) self 0
                 [ProducerSubmit; ProducerPut; WorkerRun 0] (start [two_rows])
    = Some s
    /\ calls (memory s)
       = [ShmCreate Producer 0; ShmClose Producer 0;
          ShmOpen Worker 0; ShmClose Worker 0; ShmUnlink Worker 0].
Proof. cbv zeta. eexists. split; vm_compute; reflexivity. Qed.

(** ** Segments and the limit (C4) *)

(** C4, as the code has it: for a limit above zero, every run of
    fragments that a boundary closes went over the limit with its last
    fragment only, so it exceeds the limit by at most the length of that
    fragment. In the method of the base class the bytes of [finalize]
    written before the boundary are not among the fragments; when
    [finalize] writes nothing, the fragments are the whole payload of the
    run. In the pipeline, whatever state it has reached, what the
    consumer has yielded is such a stream without trailers: the bound
    holds for the whole payload of every run a boundary has closed. *)
Theorem segment_overshoot_bounded
        {libs : Libraries} (T : Type)
        (transform_batch : T -> RecordBatch -> result (list (T -> result (bytes * T))))
        (finalize : T -> result (list bytes * T))
        (record_batches : list RecordBatch) (max_file_size_bytes : Z) (t : T)
        (recursion_limit : nat)
        (cast_record_batch_json_columns : RecordBatch -> RecordBatch)
        (self : StreamTransformer) (s : pipeline) :
  (0 < max_file_size_bytes)%Z ->
  let out := fst (iter_transformed_record_batches transform_batch finalize
                    record_batches max_file_size_bytes t) in
  let marked := fst (marked_iter transform_batch finalize record_batches
                       max_file_size_bytes t) in
  (out = map chunk_of marked
   /\ Forall (closed_by_last max_file_size_bytes) (fst (runs marked []))
   /\ ((forall t0 fin t1, finalize t0 = Ok (fin, t1) -> fin = []) ->
       fst (payload_runs out 0) = map total (fst (runs marked []))))
  /\ (steps recursion_limit cast_record_batch_json_columns self
            max_file_size_bytes (start record_batches) s ->
      exists fragments,
        yielded s = map chunk_of fragments
        /\ Forall no_trailer fragments
        /\ Forall (closed_by_last max_file_size_bytes) (fst (runs fragments []))
        /\ fst (payload_runs (yielded s) 0)
           = map total (fst (runs fragments []))).
Proof.
  intros Hmax. cbv zeta. split.
  - rewrite iter_marked. cbn [fst].
    split; [reflexivity|]. split.
    + apply (segmented_runs max_file_size_bytes 0
               _ Hmax (marked_iter_segmented _ _ _ _ _ _) [] eq_refl).
      lia.
    + intros Hsilent.
      pose proof (payload_runs_no_trailer _
                    (marked_iter_no_trailer _ transform_batch finalize
                       max_file_size_bytes Hsilent record_batches t) []) as H.
      change (total []) with 0%Z in H. now rewrite H.
  - intros Hsteps.
    destruct (invariant_reachable _ _ _ _ _ _ Hsteps) as [done Hinv].
    destruct (inv_yielded Hinv) as [results [_ Hcons]].
    destruct (consume_runs max_file_size_bytes results Hmax)
      as [fragments [Hout [Hnt [Hruns Hpay]]]].
    rewrite Hcons in Hout, Hpay. cbn [fst] in Hout, Hpay.
    exists fragments. repeat split; assumption.
Qed.

Lemma segment_overshoot_bounded_witness :
  let t := @new_transformer sample_libs JSONLStreamTransformer None true in
  (Forall (closed_by_last 8)
          (fst (runs (fst (marked_iter (transform_batch 255) finalize
                             [two_rows; two_rows] 8 t)) []))
   /\ fst (runs (fst (marked_iter (transform_batch 255) finalize
                        [two_rows; two_rows] 8 t)) [])
      = [[line_a x31; line_a x32]; [line_a x31; line_a x32]])
  /\ exists s fragments,
       run_schedule 255 (fun rb => rb) t 8
                    (one_batch 0 ++ one_batch 1 ++ [ProducerReturn; ConsumerGet])
                    (start [two_rows; two_rows]) = Some s
       /\ yielded s = map chunk_of fragments
       /\ Forall (closed_by_last 8) (fst (runs fragments []))
       /\ fst (payload_runs (yielded s) 0) = map total (fst (runs fragments []))
       /\ fst (payload_runs (yielded s) 0) = [16%Z; 16%Z].
Proof.
  intros t.
  destruct (run_schedule 255 (fun rb => rb) t 8
              (one_batch 0 ++ one_batch 1 ++ [ProducerReturn; ConsumerGet])
              (start [two_rows; two_rows])) as [s|] eqn:Hrun;
    [|vm_compute in Hrun; discriminate].
  destruct (@segment_overshoot_bounded sample_libs StreamTransformer
              (transform_batch 255) finalize [two_rows; two_rows] 8 t
              255 (fun rb => rb) t s eq_refl) as [[_ [Hseq _]] Hpar].
  split; [split; [exact Hseq | vm_compute; reflexivity]|].
  destruct (Hpar (run_schedule_steps 255 (fun rb => rb) t 8 _ _ _ Hrun))
    as [fragments [Hy [_ [Hruns Hpay]]]].
  exists s, fragments. repeat split; try assumption.
  vm_compute in Hrun. injection Hrun as <-. vm_compute. reflexivity.
Defined.

(** C4 as stated fails when [finalize] writes bytes: with brotli, the
    trailer comes before the boundary and is not counted. With a
    compressor whose first fragment carries three bytes of header, two
    rows against a limit of eleven: fragments of eleven and eight bytes,
    a trailer of one, so that the payload of the run is twenty bytes,
    more than the limit and the last fragment together. And so for
    every library: when the two rows give non-empty fragments and
    [finish] a non-empty trailer, with the length of the first fragment
    for limit the run exceeds the limit by the last fragment and the
    trailer. *)
Lemma trailer_not_counted :
  (let t := @new_transformer framed_libs JSONLStreamTransformer
              (Some (u "brotli")) true in
   let out := fst (@sequential framed_libs 255 [two_rows] 11 t) in
   out = [(x8b :: x03 :: x80 :: line_a x31, false); (line_a x32, false);
          ([x03], false); ([], true); ([], false)]
   /\ fst (payload_runs out 0) = [20%Z]
   /\ (11 + blen (line_a x32) < 20)%Z)
  /\ (forall (libs : Libraries) (p1 f1 p2 f2 tr : bytes)
             (c1 c2 c3 c4 c5 : brotli_state),
        brotli_process brotli_Compressor (line_a x31) = Ok (p1, c1) ->
        brotli_flush c1 = Ok (f1, c2) ->
        brotli_process c2 (line_a x32) = Ok (p2, c3) ->
        brotli_flush c3 = Ok (f2, c4) ->
        brotli_finish c4 = Ok (tr, c5) ->
        (0 < blen f1)%Z -> (0 < blen f2)%Z -> (0 < blen tr)%Z ->
        let out := fst (sequential 255 [two_rows] (blen f1)
                          (new_transformer JSONLStreamTransformer
                             (Some (u "brotli")) true)) in
        exists rest more,
          out = (f1, false) :: (f2, false) :: (tr, false) :: ([], true) :: rest
          /\ fst (payload_runs out 0)
             = (0 + blen f1 + blen f2 + blen tr)%Z :: more
          /\ (blen f1 + blen f2 < 0 + blen f1 + blen f2 + blen tr)%Z).
Proof.
  split; [cbv zeta; repeat split; vm_compute; reflexivity|].
  intros libs p1 f1 p2 f2 tr c1 c2 c3 c4 c5 H1 H2 H3 H4 H5 Hf1 Hf2 Htr.
  cbv zeta.
  destruct (brotli_trailer_before_boundary p1 f1 p2 f2 tr c1 c2 c3 c4 c5
              H1 H2 H3 H4 H5 Hf1 Hf2) as [rest ->].
  exists rest. cbn [payload_runs].
  destruct (payload_runs rest 0) as [closed last].
  exists closed. repeat split. lia.
Qed.

(** What keeping the finished compressor leads to: with brotli, the rows
    that follow a boundary are fed to the compressor [finalize] has
    finished. *)
Example brotli_stream_after_boundary :
  let t := @new_transformer sample_libs JSONLStreamTransformer
             (Some (u "brotli")) true in
  sequential 255 [two_rows; two_rows] 8 t
  = ([(line_a x31, false); (line_a x32, false); ([x03], false); ([], true)],
     Raise BrotliError).
Proof. vm_compute. reflexivity. Qed.

(** ** The parallel path yields what the sequential path yields (C9) *)

Section Parallel.
Context {libs : Libraries}.
Variable recursion_limit : nat.
Variable max_file_size_bytes : Z.
Variable self : StreamTransformer.
Hypothesis not_brotli : compression_is self "brotli" = false.

Lemma compress_keeps_state (c : content) (x : bytes) (t' : StreamTransformer) :
  compress self c = Ok (x, t') -> t' = self.
Proof.
  unfold compress. intros H. apply rbind_ok in H. destruct H as [enc [_ H]].
  unfold compression_is in not_brotli.
  destruct (compression self) as [name|]; [|now injection H as _ <-].
  destruct (pystr_eqb name (u "gzip")); [now injection H as _ <-|].
  rewrite not_brotli in H. discriminate.
Qed.

Lemma for_chunks_rows (rows : list pydict) :
  forall size chunks t',
    run_generator (map (_write_dict recursion_limit) rows) self = Ok (chunks, t') ->
    t' = self
    /\ for_chunks finalize max_file_size_bytes
                  (map (_write_dict recursion_limit) rows) size self
       = (fst (yield_chunks max_file_size_bytes chunks size),
          Ok (snd (yield_chunks max_file_size_bytes chunks size), self)).
Proof.
  induction rows as [|d rows IH]; intros size chunks t' H.
  - injection H as <- <-. split; reflexivity.
  - cbn [map run_generator] in H. apply rbind_ok in H.
    destruct H as [[c t1] [Hd H]]. cbn [fst snd] in H.
    apply rbind_ok in H. destruct H as [[cs t2] [Hrest H]].
    cbn [fst snd] in H. injection H as <- <-.
    assert (t1 = self) as ->.
    { unfold _write_dict, _write in Hd. apply rbind_ok in Hd.
      destruct Hd as [line [_ Hd]]. now apply compress_keeps_state in Hd. }
    destruct (IH 0%Z cs t2 Hrest) as [-> IH0].
    destruct (IH (size + blen c)%Z cs self Hrest) as [_ IH1].
    split; [reflexivity|].
    cbn [map for_chunks yield_chunks].
    rewrite gbind_glift, Hd, gbind_gyield.
    destruct (over_limit max_file_size_bytes (size + blen c)).
    + rewrite gbind_glift, (finalize_not_brotli _ not_brotli).
      cbn [map]. rewrite gbind_gyield_all, gbind_gyield, IH0. cbn [fst snd app].
      now destruct (yield_chunks max_file_size_bytes cs 0).
    + rewrite IH1. cbn [fst snd].
      now destruct (yield_chunks max_file_size_bytes cs (size + blen c)).
Qed.

Lemma transform_batch_rows (rb : RecordBatch) (g : generator) :
  transform_batch recursion_limit self rb = Ok g ->
  exists rows, g = map (_write_dict recursion_limit) rows.
Proof.
  unfold transform_batch. intros H.
  apply rbind_ok in H. destruct H as [names [_ H]].
  apply rbind_ok in H. destruct H as [selected [_ H]].
  injection H as <-. eexists. apply write_batch_rows.
Qed.

Lemma for_batches_consume (batches : list RecordBatch) :
  forall results size,
    mapM (transformed recursion_limit self) batches = Ok results ->
    for_batches (transform_batch recursion_limit) finalize max_file_size_bytes
                batches size self
    = (fst (consume max_file_size_bytes results size),
       Ok (snd (consume max_file_size_bytes results size), self)).
Proof.
  induction batches as [|rb batches IH]; intros results size H.
  - injection H as <-. reflexivity.
  - cbn [mapM] in H. apply rbind_ok in H. destruct H as [chunks [Hrb H]].
    apply rbind_ok in H. destruct H as [rest [Hrest H]]. injection H as <-.
    unfold transformed in Hrb. apply rbind_ok in Hrb.
    destruct Hrb as [g [Hg Hrb]]. apply rbind_ok in Hrb.
    destruct Hrb as [[cs t'] [Hrun Hrb]]. cbn [fst] in Hrb. injection Hrb as <-.
    destruct (transform_batch_rows _ _ Hg) as [rows ->].
    destruct (for_chunks_rows rows size cs t' Hrun) as [-> Hfor].
    cbn [for_batches consume].
    rewrite gbind_glift, Hg. cbn [rbind]. rewrite gbind_run, Hfor. cbn [fst snd].
    rewrite (IH rest _ Hrest).
    destruct (yield_chunks max_file_size_bytes cs size) as [out size1].
    cbn [fst snd].
    now destruct (consume max_file_size_bytes rest size1).
Qed.

Lemma sequential_consume (batches : list RecordBatch) (results : list (list bytes)) :
  mapM (transformed recursion_limit self) batches = Ok results ->
  sequential recursion_limit batches max_file_size_bytes self
  = (fst (consume max_file_size_bytes results 0), Ok (tt, self)).
Proof.
  intros H. unfold sequential, iter_transformed_record_batches.
  rewrite gbind_run, (for_batches_consume _ _ _ H). cbn [fst snd].
  rewrite gbind_glift, (finalize_not_brotli _ not_brotli).
  cbn [map gyield_all gret fst snd]. now rewrite app_nil_r.
Qed.
End Parallel.

Lemma mapM_map {A B C} (f : B -> result C) (g : A -> B) (l : list A) :
  mapM f (map g l) = mapM (fun a => f (g a)) l.
Proof.
  induction l as [|a l IH]; simpl; [reflexivity | now rewrite IH].
Qed.

Lemma map_id_on {A} (g : A -> A) (l : list A) :
  (forall a, In a l -> g a = a) -> map g l = l.
Proof.
  induction l as [|a l IH]; simpl; intros H; [reflexivity|].
  rewrite H by now left. f_equal. apply IH. intros x Hx. apply H. now right.
Qed.

(** C9, as the code has it: whatever the order in which the workers
    finish, what the consumer has yielded at any point is the chunks of
    the first jobs in the order the batches were submitted, with the
    boundaries of the segment controller. Once the consumer is done
    these are all the jobs, and what was yielded is what the sequential
    path yields for the batches the workers received, and for the
    batches themselves when a worker receives the batch that was
    written. When every job succeeds the consumer does get done. *)
Theorem parallel_output_in_submission_order
        {libs : Libraries} (recursion_limit : nat)
        (cast_record_batch_json_columns : RecordBatch -> RecordBatch)
        (self : StreamTransformer) (max_file_size_bytes : Z)
        (batches : list RecordBatch) :
  compression_is self "brotli" = false ->
  (forall s : pipeline,
      steps recursion_limit cast_record_batch_json_columns self
            max_file_size_bytes (start batches) s ->
      exists done results,
        done <= length batches
        /\ mapM (fun rb => transformed recursion_limit self
                             (received cast_record_batch_json_columns rb))
                (firstn done batches)
           = Ok results
        /\ yielded s = fst (consume max_file_size_bytes results 0))
  /\ (forall s : pipeline,
      steps recursion_limit cast_record_batch_json_columns self
            max_file_size_bytes (start batches) s ->
      consumer s = CDone ->
      (exists results,
          mapM (fun rb => transformed recursion_limit self
                            (received cast_record_batch_json_columns rb)) batches
          = Ok results
          /\ yielded s = fst (consume max_file_size_bytes results 0))
      /\ sequential recursion_limit
                    (map (received cast_record_batch_json_columns) batches)
                    max_file_size_bytes self
         = (yielded s, Ok (tt, self))
      /\ ((forall rb, In rb batches ->
                      received cast_record_batch_json_columns rb = rb) ->
          sequential recursion_limit batches max_file_size_bytes self
          = (yielded s, Ok (tt, self))))
  /\ (forall results,
         mapM (fun rb => transformed recursion_limit self
                           (received cast_record_batch_json_columns rb)) batches
         = Ok results ->
         exists s : pipeline,
           steps recursion_limit cast_record_batch_json_columns self
                 max_file_size_bytes (start batches) s
           /\ consumer s = CDone).
Proof.
  intros Hnb. split; [|split].
  - intros s Hsteps.
    destruct (invariant_reachable _ _ _ _ _ _ Hsteps) as [done Hinv].
    destruct (inv_yielded Hinv) as [results [Hres Hcons]].
    exists done, results. split; [|split; [exact Hres | now rewrite Hcons]].
    pose proof (enqueued_le _ _ _ _ _ _ _ Hinv).
    pose proof (inv_done_le Hinv). pose proof (inv_submitted Hinv). lia.
  - intros s Hsteps Hdone.
    destruct (invariant_reachable _ _ _ _ _ _ Hsteps) as [done Hinv].
    destruct (all_consumed _ _ _ _ _ _ _ Hinv Hdone) as [Hdn _].
    destruct (inv_yielded Hinv) as [results [Hres Hcons]].
    rewrite Hdn, firstn_all in Hres.
    assert (Hy : yielded s = fst (consume max_file_size_bytes results 0))
      by now rewrite Hcons.
    assert (Hseq : sequential recursion_limit
                     (map (received cast_record_batch_json_columns) batches)
                     max_file_size_bytes self
                   = (yielded s, Ok (tt, self))).
    { rewrite Hy. apply sequential_consume; [exact Hnb|]. now rewrite mapM_map. }
    split; [exists results; now split|]. split; [exact Hseq|].
    intros Hid. now rewrite (map_id_on _ _ Hid) in Hseq.
  - intros results Hres.
    apply (pipeline_completes recursion_limit cast_record_batch_json_columns self
             max_file_size_bytes batches (start batches) results);
      [repeat split | reflexivity | exact Hres].
Qed.

(** Two batches whose workers finish in the reverse order. *)
Lemma parallel_output_in_submission_order_witness :
  let self := @new_transformer sample_libs JSONLStreamTransformer None true in
  let other := {| num_rows := 1; columns := [(u "a", [PInt 3])] |} in
  exists s,
    run_schedule 255 (fun rb => rb) self 8
      [ProducerSubmit; ProducerPut; ProducerSubmit; ProducerPut;
       WorkerRun 1; WorkerRun 0; ConsumerGet; ConsumerAwait;
       ConsumerGet; ConsumerAwait; ProducerReturn; ConsumerGet]
      (start [two_rows; other])
    = Some s
    /\ yielded s
       = [(line_a x31, false); (line_a x32, false); ([], true); (line_a x33, false)]
    /\ sequential 255 [two_rows; other] 8 self = (yielded s, Ok (tt, self)).
Proof.
  intros self other. eexists. split; [vm_compute; reflexivity|].
  split; [reflexivity|].
  destruct (@parallel_output_in_submission_order sample_libs 255 (fun rb => rb)
              self 8 [two_rows; other] eq_refl) as [_ [Hsafe _]].
  match goal with
  | |- _ = (yielded ?s, _) => destruct (Hsafe s) as [_ [_ H]]
  end.
  - apply (run_schedule_steps 255 (fun rb => rb) self 8
             [ProducerSubmit; ProducerPut; ProducerSubmit; ProducerPut;
              WorkerRun 1; WorkerRun 0; ConsumerGet; ConsumerAwait;
              ConsumerGet; ConsumerAwait; ProducerReturn; ConsumerGet]).
    vm_compute. reflexivity.
  - reflexivity.
  - apply H. intros rb _. reflexivity.
Defined.

(** C9 as stated fails on a batch that cannot be transformed: the
    sequential path yields the rows written before the one that fails,
    the pipeline yields nothing of a batch whose job failed. One batch
    of two rows, the second nested deeper than either encoder goes. *)
Lemma parallel_yields_nothing_of_failed_batch :
  let self := @new_transformer sample_libs JSONLStreamTransformer None true in
  let rb := {| num_rows := 2;
               columns := [(u "a", [PList []; nest 1100 PNone])] |} in
  sequential 255 [rb] 0 self
  = ([([x7b; x22; x61; x22; x3a; x5b; x5d; x7d; x0a], false)],
     Raise RecursionError)
  /\ exists s,
       run_schedule 255 (fun rb => rb) self 0 (one_batch 0) (start [rb]) = Some s
       /\ consumer s = CRaised BufferError
       /\ yielded s = [].
Proof.
  cbv zeta. split; [vm_compute; reflexivity|].
  eexists. split; [vm_compute; reflexivity|]. split; reflexivity.
Qed.

(** The method of [JSONLStreamTransformer], on either path. *)
Lemma JSONL_iter_sequential
      {libs : Libraries} (recursion_limit : nat)
      (cast_record_batch_json_columns : RecordBatch -> RecordBatch)
      (self : StreamTransformer) (max_file_size_bytes : Z)
      (batches : list RecordBatch) (out : list chunk) :
  JSONL_iter_transformed_record_batches recursion_limit
    cast_record_batch_json_columns self max_file_size_bytes batches out ->
  (forall rb, In rb batches -> received cast_record_batch_json_columns rb = rb) ->
  fst (sequential recursion_limit batches max_file_size_bytes self) = out.
Proof.
  intros [out' t Hb Hseq | s Hnb Hsteps Hdone] Hid.
  - now rewrite Hseq.
  - destruct (invariant_reachable _ _ _ _ _ _ Hsteps) as [done Hinv].
    pose proof (sequential_consume recursion_limit max_file_size_bytes self Hnb)
      as Hcons.
    destruct (all_consumed _ _ _ _ _ _ _ Hinv Hdone) as [Hdn _].
    destruct (inv_yielded Hinv) as [results [Hres Hy]].
    rewrite Hdn, firstn_all in Hres.
    rewrite <- (map_id_on _ _ Hid), (Hcons _ results) by now rewrite mapM_map.
    now rewrite Hy.
Qed.


(* ================================================================= *)
(** * Part III. Further properties of the module *)
(* ================================================================= *)

(** ** Dictionaries *)

Lemma dict_setitem_keys_absent (d : pydict) (k : pystr) (v : pyval) :
  ~ In k (map fst d) -> dict_setitem d k v = d ++ [(k, v)].
Proof.
  induction d as [|[k' v'] d IH]; simpl; intros H; [reflexivity|].
  destruct (pystr_eqb k' k) eqn:E.
  - apply pystr_eqb_eq in E. tauto.
  - rewrite IH by tauto. reflexivity.
Qed.

Lemma dict_setitem_keys_present (d : pydict) (k : pystr) (v : pyval) :
  In k (map fst d) -> map fst (dict_setitem d k v) = map fst d.
Proof.
  induction d as [|[k' v'] d IH]; simpl; intros H; [contradiction|].
  destruct (pystr_eqb k' k) eqn:E; simpl.
  - apply pystr_eqb_eq in E. now subst.
  - apply pystr_eqb_neq in E. f_equal. apply IH. destruct H; congruence.
Qed.

Lemma dict_setitem_keys_nodup (d : pydict) (k : pystr) (v : pyval) :
  NoDup (map fst d) -> NoDup (map fst (dict_setitem d k v)).
Proof.
  intros H. destruct (in_dec (list_eq_dec N.eq_dec) k (map fst d)) as [Hin|Hnin].
  - now rewrite dict_setitem_keys_present.
  - rewrite dict_setitem_keys_absent by assumption.
    rewrite map_app. simpl. apply NoDup_app; [exact H | repeat constructor; auto|].
    intros x Hx [<-|[]]. contradiction.
Qed.

Lemma dict_setitem_length (d : pydict) (k : pystr) (v : pyval) :
  length (dict_setitem d k v) <= S (length d).
Proof.
  induction d as [|[k' v'] d IH]; simpl; [lia|].
  destruct (pystr_eqb k' k); simpl; lia.
Qed.

Lemma dict_of_items_from (items acc : list (pystr * pyval)) :
  NoDup (map fst (acc ++ items)) ->
  fold_left (fun d kv => dict_setitem d (fst kv) (snd kv)) items acc = acc ++ items.
Proof.
  revert acc. induction items as [|[k v] items IH]; intros acc H; simpl.
  - now rewrite app_nil_r.
  - rewrite dict_setitem_keys_absent.
    + rewrite IH; rewrite <- app_assoc; [reflexivity | exact H].
    + rewrite map_app in H. simpl in H. apply NoDup_remove_2 in H.
      intros Hin. apply H. apply in_or_app. now left.
Qed.

Lemma dict_of_items_distinct (items : list (pystr * pyval)) :
  NoDup (map fst items) -> dict_of_items items = items.
Proof. intros H. unfold dict_of_items. now rewrite dict_of_items_from. Qed.

Lemma dict_of_items_keys_nodup (items : list (pystr * pyval)) :
  NoDup (map fst (dict_of_items items)).
Proof.
  unfold dict_of_items.
  enough (H : forall acc, NoDup (map fst acc) ->
                          NoDup (map fst (fold_left
                                            (fun d kv => dict_setitem d (fst kv) (snd kv))
                                            items acc))).
  { apply H. constructor. }
  induction items as [|[k v] items IH]; intros acc Hacc; simpl; [exact Hacc|].
  apply IH. now apply dict_setitem_keys_nodup.
Qed.

Lemma dict_of_items_length (items : list (pystr * pyval)) :
  length (dict_of_items items) <= length items.
Proof.
  unfold dict_of_items.
  enough (H : forall acc,
             length (fold_left (fun d kv => dict_setitem d (fst kv) (snd kv)) items acc)
             <= length acc + length items).
  { apply (H []). }
  induction items as [|[k v] items IH]; intros acc; simpl; [lia|].
  specialize (IH (dict_setitem acc k v)).
  pose proof (dict_setitem_length acc k v). lia.
Qed.

(** ** [replace_broken_unicode] *)

Lemma fold_conj_Forall {A} (P : A -> Prop) (l : list A) :
  fold_right (fun x acc => P x /\ acc) True l <-> Forall P l.
Proof.
  induction l as [|x l IH]; simpl; split; intros H.
  - constructor.
  - exact I.
  - destruct H as [Hx Hl]. constructor; [exact Hx | now apply IH].
  - inversion H; subst. split; [assumption | now apply IH].
Qed.

Lemma valid_val_list (l : list pyval) :
  valid_val (PList l) <-> Forall valid_val l.
Proof. apply (fold_conj_Forall valid_val). Qed.

Lemma valid_val_dict (d : pydict) :
  valid_val (PDict d)
  <-> Forall (fun kv => valid_str (fst kv) /\ valid_val (snd kv)) d.
Proof.
  rewrite <- fold_conj_Forall. simpl.
  induction d as [|kv d IH]; simpl; tauto.
Qed.

Lemma unique_keys_list (l : list pyval) :
  unique_keys (PList l) <-> Forall unique_keys l.
Proof. apply (fold_conj_Forall unique_keys). Qed.

Lemma unique_keys_dict (d : pydict) :
  unique_keys (PDict d)
  <-> NoDup (map fst d) /\ Forall (fun kv => unique_keys (snd kv)) d.
Proof.
  rewrite <- (fold_conj_Forall (fun kv => unique_keys (snd kv))). reflexivity.
Qed.

Lemma scrub_str_fixed (s : pystr) :
  existsb is_surrogate s = false -> scrub_str s = s.
Proof.
  induction s as [|c s IH]; simpl; intros H; [reflexivity|].
  apply orb_false_iff in H. destruct H as [Hc Hs].
  now rewrite Hc, IH.
Qed.

Lemma scrub_str_valid (s : pystr) : valid_str s -> valid_str (scrub_str s).
Proof.
  unfold valid_str, scrub_str. intros H. apply Forall_map.
  apply (Forall_impl _ (P := fun c => (c <= 0x10FFFF)%N)); [|exact H].
  intros c Hc. destruct (is_surrogate c); [unfold question_mark; lia | exact Hc].
Qed.

Lemma scrub_fixed (v : pyval) :
  text_clean v = true -> unique_keys v -> scrub v = v.
Proof.
  induction v as [| x | z | s | l IH | d IH | r] using pyval_induction;
    intros Hc Hu; try reflexivity.
  - simpl in *. apply negb_true_iff in Hc. now rewrite scrub_str_fixed.
  - apply unique_keys_list in Hu. cbn [scrub text_clean] in *. f_equal.
    rewrite forallb_forall in Hc. rewrite Forall_forall in *.
    rewrite <- (map_id l) at 2. apply map_ext_in.
    intros x Hx. apply IH; auto.
  - apply unique_keys_dict in Hu. destruct Hu as [Hnd Hu].
    cbn [scrub text_clean] in *. f_equal.
    rewrite forallb_forall in Hc. rewrite Forall_forall in *.
    assert (Hmap : map (fun kv => (scrub_str (fst kv), scrub (snd kv))) d = d).
    { rewrite <- (map_id d) at 2. apply map_ext_in.
      intros [k x] Hx. specialize (Hc _ Hx). cbn [fst snd] in *.
      apply andb_true_iff in Hc. destruct Hc as [Hk Hxc].
      apply negb_true_iff in Hk.
      rewrite scrub_str_fixed by assumption.
      pose proof (IH _ Hx Hxc (Hu _ Hx)) as Hfix. cbn [snd] in Hfix.
      now rewrite Hfix. }
    rewrite Hmap. now apply dict_of_items_distinct.
Qed.

Lemma scrub_clean (v : pyval) : text_clean (scrub v) = true.
Proof.
  induction v as [| x | z | s | l IH | d IH | r] using pyval_induction;
    try reflexivity; cbn [scrub text_clean].
  - now rewrite scrub_str_clean.
  - rewrite forallb_forall. intros y Hy. apply in_map_iff in Hy.
    destruct Hy as [x [<- Hx]]. rewrite Forall_forall in IH. now apply IH.
  - rewrite forallb_forall. intros kv Hkv.
    apply dict_of_items_In, in_map_iff in Hkv.
    destruct Hkv as [[k x] [<- Hx]]. simpl.
    rewrite scrub_str_clean. simpl.
    rewrite Forall_forall in IH. now apply (IH _ Hx).
Qed.

Lemma scrub_unique_keys (v : pyval) : unique_keys (scrub v).
Proof.
  induction v as [| x | z | s | l IH | d IH | r] using pyval_induction;
    try exact I; cbn [scrub].
  - apply unique_keys_list. apply Forall_map. exact IH.
  - apply unique_keys_dict. split; [apply dict_of_items_keys_nodup|].
    rewrite Forall_forall. intros kv Hkv.
    apply dict_of_items_In, in_map_iff in Hkv.
    destruct Hkv as [[k x] [<- Hx]]. simpl.
    rewrite Forall_forall in IH. now apply (IH _ Hx).
Qed.

Lemma scrub_valid (v : pyval) : valid_val v -> valid_val (scrub v).
Proof.
  induction v as [| x | z | s | l IH | d IH | r] using pyval_induction;
    intros Hv; try exact Hv; cbn [scrub].
  - now apply scrub_str_valid.
  - apply valid_val_list in Hv. apply valid_val_list. apply Forall_map.
    rewrite Forall_forall in *. auto.
  - apply valid_val_dict in Hv. apply valid_val_dict.
    rewrite Forall_forall in *. intros kv Hkv.
    apply dict_of_items_In, in_map_iff in Hkv.
    destruct Hkv as [[k x] [<- Hx]]. simpl.
    destruct (Hv _ Hx) as [Hk Hxv]. split; [now apply scrub_str_valid|].
    now apply (IH _ Hx).
Qed.

(** X1: what [replace_broken_unicode] returns holds no surrogate in any
    [str], keys included, and has distinct keys; sanitising it once more
    changes nothing. *)
Theorem replace_broken_unicode_cleans (v : pyval) :
  valid_val v ->
  exists v',
    replace_broken_unicode v = Ok v'
    /\ text_clean v' = true
    /\ unique_keys v'
    /\ replace_broken_unicode v' = Ok v'.
Proof.
  intros Hv. exists (scrub v).
  split; [now apply replace_broken_unicode_scrub|].
  split; [apply scrub_clean|]. split; [apply scrub_unique_keys|].
  rewrite replace_broken_unicode_scrub by now apply scrub_valid.
  f_equal. apply scrub_fixed; [apply scrub_clean | apply scrub_unique_keys].
Qed.

Lemma replace_broken_unicode_cleans_witness :
  exists v',
    replace_broken_unicode
      (PDict [(u "k" ++ [0xDC00%N], PList [PStr [0xD83D%N; 97%N]; PInt 5])])
    = Ok v'
    /\ text_clean v' = true
    /\ replace_broken_unicode v' = Ok v'.
Proof.
  destruct (replace_broken_unicode_cleans
              (PDict [(u "k" ++ [0xDC00%N], PList [PStr [0xD83D%N; 97%N]; PInt 5])]))
    as [v' [H1 [H2 [_ H3]]]].
  - simpl. unfold valid_str. repeat constructor; vm_compute; discriminate.
  - exists v'. auto.
Defined.

(** X2: a value with no surrogate in its strings, and distinct keys in
    its dictionaries, comes back from [replace_broken_unicode] as it
    was. *)
Theorem replace_broken_unicode_keeps_clean (v : pyval) :
  valid_val v -> text_clean v = true -> unique_keys v ->
  replace_broken_unicode v = Ok v.
Proof.
  intros Hv Hc Hu. rewrite replace_broken_unicode_scrub by assumption.
  f_equal. now apply scrub_fixed.
Qed.

Lemma replace_broken_unicode_keeps_clean_witness :
  replace_broken_unicode
    (PDict [(u "event", PStr (u "pageview")); (u "n", PList [PInt 1; PNone])])
  = Ok (PDict [(u "event", PStr (u "pageview")); (u "n", PList [PInt 1; PNone])]).
Proof.
  apply replace_broken_unicode_keeps_clean.
  - simpl. unfold valid_str. repeat constructor; vm_compute; discriminate.
  - reflexivity.
  - simpl. repeat split. repeat constructor; simpl; intuition discriminate.
Defined.

(** X3: [replace_broken_unicode] keeps the shape of a value: a [str]
    keeps its length, each surrogate giving way to one [?]; a list keeps
    its length; a dictionary never gains an entry, and keeps every entry,
    in order, when its keys are still distinct once sanitised (two keys
    that become equal are merged, the later value winning); anything
    else is returned as it is. *)
Theorem replace_broken_unicode_shape (v v' : pyval) :
  valid_val v ->
  replace_broken_unicode v = Ok v' ->
  match v, v' with
  | PStr s, PStr s' =>
      length s' = length s
      /\ forall i c, nth_error s i = Some c ->
                     nth_error s' i = Some (if is_surrogate c then question_mark else c)
  | PList l, PList l' => length l' = length l
  | PDict d, PDict d' =>
      length d' <= length d
      /\ (NoDup (map (fun kv => scrub_str (fst kv)) d) ->
          map fst d' = map (fun kv => scrub_str (fst kv)) d)
  | _, _ => v' = v
  end.
Proof.
  intros Hv H. rewrite replace_broken_unicode_scrub in H by assumption.
  injection H as <-. destruct v as [| x | z | s | l | d | r]; cbn [scrub];
    try reflexivity.
  - split; [apply scrub_str_length|].
    intros i c Hi. unfold scrub_str. now rewrite nth_error_map, Hi.
  - apply length_map.
  - split.
    + etransitivity; [apply dict_of_items_length|]. now rewrite length_map.
    + intros Hnd. rewrite dict_of_items_distinct; rewrite map_map; simpl;
        [reflexivity | exact Hnd].
Qed.

Lemma replace_broken_unicode_shape_witness :
  replace_broken_unicode (PDict [([0xD800%N], PInt 1); (u "?", PInt 2)])
  = Ok (PDict [(u "?", PInt 2)])
  /\ (1 <= 2)%nat.
Proof.
  split; [vm_compute; reflexivity|].
  pose proof (replace_broken_unicode_shape
                (PDict [([0xD800%N], PInt 1); (u "?", PInt 2)])
                (PDict [(u "?", PInt 2)])) as H.
  simpl in H. apply H.
  - unfold valid_str. repeat constructor; vm_compute; discriminate.
  - reflexivity.
Defined.

(** ** The strict encoder on values that are encodable *)

Lemma mapM_ok_or_raise {A B} (f : A -> result B) (e : exn) (l : list A) :
  Forall (fun a => (exists y, f a = Ok y) \/ f a = Raise e) l ->
  (exists ys, mapM f l = Ok ys) \/ mapM f l = Raise e.
Proof.
  induction 1 as [|a l Ha _ IH]; simpl; [left; now eexists|].
  destruct Ha as [[y ->]| ->]; [|now right]. simpl.
  destruct IH as [[ys ->]| ->]; [left; now eexists | now right].
Qed.

Lemma orjson_str_ok_or_invalid (s : pystr) :
  (exists out, orjson_str s = Ok out)
  \/ orjson_str s = Raise (JSONEncodeError invalid_str_msg).
Proof.
  unfold orjson_str. destruct (existsb is_surrogate s); [now right|].
  left. now eexists.
Qed.

Lemma orjson_ser_encodable (v : pyval) :
  forall budget,
    encodable budget v = true ->
    (exists out, orjson_ser budget v = Ok out)
    \/ orjson_ser budget v = Raise (JSONEncodeError invalid_str_msg).
Proof.
  induction v as [| x | z | s | l IH | d IH | r] using pyval_induction;
    intros budget He; cbn [encodable orjson_ser] in *.
  - left. now eexists.
  - left. destruct x; now eexists.
  - left. unfold orjson_int. rewrite He. now eexists.
  - apply orjson_str_ok_or_invalid.
  - destruct budget as [|budget]; [discriminate|].
    destruct (mapM_ok_or_raise (orjson_ser budget)
                               (JSONEncodeError invalid_str_msg) l) as [[ys ->]| ->].
    + rewrite Forall_forall in *. rewrite forallb_forall in He. auto.
    + left. simpl. now eexists.
    + now right.
  - destruct budget as [|budget]; [discriminate|].
    match goal with
    | |- context [mapM ?f d] =>
        destruct (mapM_ok_or_raise f (JSONEncodeError invalid_str_msg) d)
        as [[ys ->]| ->]
    end.
    + rewrite Forall_forall in *. rewrite forallb_forall in He.
      intros [k x] Hx. cbn [fst snd].
      destruct (orjson_str_ok_or_invalid k) as [[ko ->]| ->]; [|now right].
      simpl. destruct (IH _ Hx budget (He _ Hx)) as [[xo Hxo]|Hxo];
        cbn [snd] in Hxo; rewrite Hxo; [left; now eexists | now right].
    + left. simpl. now eexists.
    + now right.
  - left. apply orjson_str_clean. now apply negb_true_iff in He.
Qed.

(** X4: [json_dumps_bytes] returns the strict encoder's output when
    there is one, and otherwise encodes the sanitised value; it does not
    raise on a value that is encodable apart from its text. *)
Theorem json_dumps_bytes_total (limit : nat) (v : pyval) :
  valid_val v -> encodable limit v = true ->
  exists out,
    json_dumps_bytes limit v = Ok out
    /\ (orjson_dumps limit v = Ok out
        \/ (orjson_dumps limit v = Raise (JSONEncodeError invalid_str_msg)
            /\ orjson_dumps limit (scrub v) = Ok out)).
Proof.
  intros Hv He. unfold json_dumps_bytes, orjson_dumps.
  destruct (orjson_ser_encodable v limit He) as [[out Hout]|Hraise].
  - exists out. rewrite Hout. split; [reflexivity | now left].
  - destruct (orjson_ser_scrub_ok v limit He) as [out Hout].
    exists out. rewrite Hraise, (replace_broken_unicode_scrub _ Hv). simpl.
    split; [exact Hout | right; now split].
Qed.

Lemma json_dumps_bytes_total_witness :
  json_dumps_bytes 255 (PList [PStr [0xD83D%N]; PInt 7])
  = Ok ([x5b; x22; x3f; x22; x2c; x37; x5d]).
Proof.
  destruct (json_dumps_bytes_total 255 (PList [PStr [0xD83D%N]; PInt 7]))
    as [out [H [H1|[_ H2]]]].
  - simpl. unfold valid_str. repeat constructor; vm_compute; discriminate.
  - reflexivity.
  - vm_compute in H1. discriminate.
  - rewrite H. vm_compute in H2. now symmetry.
Defined.

(** X5: a row that is encodable apart from its text is always written:
    [encode_row] gives a line that ends with a newline, the strict
    encoding of the row or of the sanitised row, and with a compression
    that keeps no state [_write_dict] yields the compression of that
    line and leaves the transformer as it was. *)
Theorem encode_row_total
        {libs : Libraries} (limit : nat) (d : pydict) :
  valid_val (PDict d) -> encodable limit (PDict d) = true ->
  exists dumped,
    encode_row limit d = Ok (dumped ++ [x0a])
    /\ (orjson_dumps limit (PDict d) = Ok dumped
        \/ orjson_dumps limit (scrub (PDict d)) = Ok dumped)
    /\ forall (t : StreamTransformer) (f : bytes -> bytes),
        stateless_compress t = Some f ->
        _write_dict limit d t = Ok (f (dumped ++ [x0a]), t).
Proof.
  intros Hv He.
  assert (H : exists dumped,
             encode_row limit d = Ok (dumped ++ [x0a])
             /\ (orjson_dumps limit (PDict d) = Ok dumped
                 \/ orjson_dumps limit (scrub (PDict d)) = Ok dumped)).
  { unfold encode_row, orjson_dumps.
    destruct (orjson_ser_encodable _ limit He) as [[out Hout]|Hraise].
    - exists out. rewrite Hout. split; [reflexivity | now left].
    - destruct (orjson_ser_scrub_ok _ limit He) as [out Hout].
      exists out. rewrite Hraise. simpl String.eqb. cbv iota.
      rewrite (replace_broken_unicode_scrub _ Hv). cbn [rbind].
      rewrite Hout. split; [reflexivity | now right]. }
  destruct H as [dumped [Hrow Hor]]. exists dumped.
  split; [exact Hrow|]. split; [exact Hor|].
  intros t f Hf. unfold _write_dict, _write. rewrite Hrow. simpl rbind.
  now apply compress_stateless.
Qed.

Lemma encode_row_total_witness :
  exists dumped,
    encode_row 255 [(u "a", PStr [0xD83D%N]); (u "b", nest 200 (PInt 1))]
    = Ok (dumped ++ [x0a]).
Proof.
  destruct (@encode_row_total sample_libs 255
              [(u "a", PStr [0xD83D%N]); (u "b", nest 200 (PInt 1))])
    as [dumped [H _]].
  - apply valid_val_dict. repeat constructor; vm_compute; discriminate.
  - vm_compute. reflexivity.
  - now exists dumped.
Defined.

(** ** Rows beyond the nesting limit *)

Lemma ascii_bytes_ascii (s : pystr) :
  is_ascii s = true -> is_ascii_bytes (ascii_bytes s) = true.
Proof.
  unfold is_ascii, is_ascii_bytes, ascii_bytes.
  induction s as [|c s IH]; simpl; intros H; [reflexivity|].
  apply andb_true_iff in H. destruct H as [Hc Hs].
  rewrite (IH Hs), andb_true_r.
  apply N.ltb_lt in Hc. rewrite to_N_byte_of_N by lia. now apply N.ltb_lt.
Qed.

(** X6: a row the strict encoder refuses for its nesting, and that is
    not a [$web_vitals] event (or is one whose path to the nested element
    lacks a key), goes to the encoder of the standard library. Nested no
    deeper than the interpreter lets that encoder recurse, the row is
    written whatever its text: the line is the standard library's
    encoding of the row, in ASCII only, followed by a newline. Nested
    deeper, the row is not written and [RecursionError] is raised. *)
Theorem deep_row_written_by_stdlib
        {libs : Libraries} (limit : nat) (d : pydict) :
  orjson_dumps limit (PDict d) = Raise (JSONEncodeError recursion_limit_msg) ->
  is_web_vitals d = false
  \/ (exists k, del_interaction_target d = Raise (KeyError k)) ->
  (nesting (PDict d) <= stack_limit ->
   exists line,
     encode_row limit d = Ok line
     /\ line = ascii_bytes (json_text (PDict d)) ++ [x0a]
     /\ is_ascii_bytes line = true)
  /\ (stack_limit < nesting (PDict d) ->
      encode_row limit d = Raise RecursionError).
Proof.
  intros Hfail Hshape.
  assert (Hrow : encode_row limit d = stdlib_line d).
  { unfold encode_row. rewrite Hfail. simpl String.eqb.
    destruct Hshape as [Hw | [k Hk]].
    - now rewrite Hw.
    - rewrite Hk. now destruct (is_web_vitals d). }
  rewrite Hrow. split.
  - intros Hdepth. eexists. split; [|split; [reflexivity|]].
    + now apply stdlib_line_ok.
    + unfold is_ascii_bytes. rewrite forallb_app.
      fold (is_ascii_bytes (ascii_bytes (json_text (PDict d)))).
      rewrite ascii_bytes_ascii by apply json_text_ascii. reflexivity.
  - apply stdlib_line_too_deep.
Qed.

Lemma deep_row_written_by_stdlib_witness :
  (exists line,
      encode_row 255 [(u "event", PStr (u "$pageview"));
                      (u "x", nest 300 (PStr [0xD83D%N]))]
      = Ok line
      /\ is_ascii_bytes line = true)
  /\ encode_row 255 [(u "event", PStr (u "$pageview"));
                     (u "x", nest 1100 (PStr [0xD83D%N]))]
     = Raise RecursionError.
Proof.
  split.
  - destruct (@deep_row_written_by_stdlib sample_libs 255
                [(u "event", PStr (u "$pageview"));
                 (u "x", nest 300 (PStr [0xD83D%N]))])
      as [Hok _].
    + vm_compute. reflexivity.
    + left. vm_compute. reflexivity.
    + destruct Hok as [line [H [_ Ha]]].
      * apply Nat.leb_le. vm_compute. reflexivity.
      * exists line. now split.
  - apply (@deep_row_written_by_stdlib sample_libs 255
             [(u "event", PStr (u "$pageview"));
              (u "x", nest 1100 (PStr [0xD83D%N]))]).
    + vm_compute. reflexivity.
    + left. vm_compute. reflexivity.
    + apply Nat.ltb_lt. vm_compute. reflexivity.
Defined.

(** ** Deleting the nested element of a [$web_vitals] event *)

Lemma dict_get_setitem_same (d : pydict) (k : pystr) (v : pyval) :
  dict_get (dict_setitem d k v) k = Some v.
Proof.
  induction d as [|[k' v'] d IH]; simpl.
  - now rewrite pystr_eqb_refl.
  - destruct (pystr_eqb k' k) eqn:E; simpl.
    + now rewrite pystr_eqb_refl.
    + now rewrite E.
Qed.

Lemma dict_get_setitem_other (d : pydict) (k k' : pystr) (v : pyval) :
  k' <> k -> dict_get (dict_setitem d k v) k' = dict_get d k'.
Proof.
  intros Hne. induction d as [|[k0 v0] d IH]; simpl.
  - destruct (pystr_eqb k k') eqn:E; [|reflexivity].
    apply pystr_eqb_eq in E. congruence.
  - destruct (pystr_eqb k0 k) eqn:E; simpl.
    + apply pystr_eqb_eq in E. subst k0.
      destruct (pystr_eqb k k') eqn:E'; [|reflexivity].
      apply pystr_eqb_eq in E'. congruence.
    + now rewrite IH.
Qed.

Lemma dict_get_In (d : pydict) (k : pystr) (v : pyval) :
  dict_get d k = Some v -> In k (map fst d).
Proof.
  induction d as [|[k' v'] d IH]; simpl; [discriminate|].
  destruct (pystr_eqb k' k) eqn:E.
  - apply pystr_eqb_eq in E. now left.
  - intros H. right. now apply IH.
Qed.

Lemma dict_get_not_In (d : pydict) (k : pystr) :
  ~ In k (map fst d) -> dict_get d k = None.
Proof.
  induction d as [|[k' v'] d IH]; simpl; [reflexivity|].
  intros H. destruct (pystr_eqb k' k) eqn:E.
  - apply pystr_eqb_eq in E. tauto.
  - apply IH. tauto.
Qed.

Lemma dict_delitem_get_other (d d' : pydict) (k k' : pystr) :
  dict_delitem d k = Ok d' -> k' <> k -> dict_get d' k' = dict_get d k'.
Proof.
  revert d'. induction d as [|[k0 v0] d IH]; simpl; intros d' H Hne;
    [discriminate|].
  destruct (pystr_eqb k0 k) eqn:E.
  - injection H as <-. apply pystr_eqb_eq in E. subst k0.
    destruct (pystr_eqb k k') eqn:E'; [|reflexivity].
    apply pystr_eqb_eq in E'. congruence.
  - destruct (dict_delitem d k) as [r|]; [|discriminate]. injection H as <-.
    simpl. now rewrite (IH r eq_refl Hne).
Qed.

Lemma dict_delitem_get_same (d d' : pydict) (k : pystr) :
  dict_delitem d k = Ok d' -> NoDup (map fst d) -> dict_get d' k = None.
Proof.
  revert d'. induction d as [|[k0 v0] d IH]; simpl; intros d' H Hnd;
    [discriminate|].
  inversion Hnd as [|? ? Hnotin Hnd']; subst.
  destruct (pystr_eqb k0 k) eqn:E.
  - injection H as <-. apply pystr_eqb_eq in E. subst k0.
    now apply dict_get_not_In.
  - destruct (dict_delitem d k) as [r|]; [|discriminate]. injection H as <-.
    simpl. rewrite E. now apply IH.
Qed.

Lemma dict_delitem_shorter (d d' : pydict) (k : pystr) :
  dict_delitem d k = Ok d' -> S (length d') = length d.
Proof.
  revert d'. induction d as [|[k0 v0] d IH]; simpl; intros d' H; [discriminate|].
  destruct (pystr_eqb k0 k).
  - now injection H as <-.
  - destruct (dict_delitem d k) as [r|]; [|discriminate]. injection H as <-.
    simpl. f_equal. now apply IH.
Qed.

Lemma subscript_dict (v x : pyval) (k : pystr) :
  subscript v k = Ok x -> exists d, v = PDict d /\ dict_get d k = Some x.
Proof.
  unfold subscript. destruct v; try discriminate.
  destruct (dict_get d k) eqn:E; [|discriminate].
  intros [= <-]. now exists d.
Qed.

(** X7: when the deletion of the nested element succeeds the row had
    dictionaries all along the path and the element under [attribution];
    in the row that results the element is gone, [attribution] is one
    entry shorter and keeps its other entries, and every other key of the
    row, [event] among them, has the value it had. *)
Theorem del_interaction_target_effect (d d' : pydict) :
  del_interaction_target d = Ok d' ->
  exists dp di da dp' di' da',
    dict_get d (u "properties") = Some (PDict dp)
    /\ dict_get dp (u "$web_vitals_INP_event") = Some (PDict di)
    /\ dict_get di (u "attribution") = Some (PDict da)
    /\ dict_get d' (u "properties") = Some (PDict dp')
    /\ dict_get dp' (u "$web_vitals_INP_event") = Some (PDict di')
    /\ dict_get di' (u "attribution") = Some (PDict da')
    /\ S (length da') = length da
    /\ (NoDup (map fst da) -> dict_get da' (u "interactionTargetElement") = None)
    /\ (forall k, k <> u "interactionTargetElement" ->
                  dict_get da' k = dict_get da k)
    /\ (forall k, k <> u "attribution" -> dict_get di' k = dict_get di k)
    /\ (forall k, k <> u "$web_vitals_INP_event" -> dict_get dp' k = dict_get dp k)
    /\ (forall k, k <> u "properties" -> dict_get d' k = dict_get d k)
    /\ map fst d' = map fst d
    /\ is_web_vitals d' = is_web_vitals d.
Proof.
  unfold del_interaction_target. intros H.
  apply rbind_ok in H. destruct H as [props [Hp H]].
  apply rbind_ok in H. destruct H as [inp [Hi H]].
  apply rbind_ok in H. destruct H as [attr [Ha H]].
  apply subscript_dict in Hp. destruct Hp as [d0 [Hd0 Hp]]. injection Hd0 as <-.
  apply subscript_dict in Hi. destruct Hi as [dp [-> Hi]].
  apply subscript_dict in Ha. destruct Ha as [di [-> Ha]].
  destruct attr as [| | | | |da|]; try discriminate.
  apply rbind_ok in H. destruct H as [da' [Hdel H]]. injection H as <-.
  exists dp, di, da.
  exists (dict_setitem dp (u "$web_vitals_INP_event")
            (PDict (dict_setitem di (u "attribution") (PDict da')))).
  exists (dict_setitem di (u "attribution") (PDict da')), da'.
  repeat split; try assumption; try apply dict_get_setitem_same.
  - now apply dict_delitem_shorter in Hdel.
  - intros Hnd. now apply (dict_delitem_get_same _ _ _ Hdel).
  - intros k Hk. now apply (dict_delitem_get_other _ _ _ _ Hdel).
  - intros k Hk. now apply dict_get_setitem_other.
  - intros k Hk. now apply dict_get_setitem_other.
  - intros k Hk. now apply dict_get_setitem_other.
  - apply dict_setitem_keys_present. now apply dict_get_In in Hp.
  - unfold is_web_vitals. rewrite dict_get_setitem_other; [reflexivity|].
    vm_compute. discriminate.
Qed.

Lemma del_interaction_target_effect_witness :
  let row := web_vitals_row
               (PDict [(u "interactionTargetElement", nest 300 PNone);
                       (u "loadState", PStr (u "complete"))])
               (PInt 1) in
  exists d',
    del_interaction_target row = Ok d'
    /\ is_web_vitals d' = true
    /\ dict_get d' (u "event") = Some (PStr (u "$web_vitals")).
Proof.
  intros row.
  destruct (del_interaction_target row) as [d'|e] eqn:E;
    [|vm_compute in E; discriminate].
  exists d'. split; [reflexivity|].
  destruct (del_interaction_target_effect row d' E)
    as [dp [di [da [dp' [di' [da' H]]]]]].
  decompose [and] H.
  split.
  - match goal with Hw : is_web_vitals d' = _ |- _ => rewrite Hw end.
    reflexivity.
  - match goal with
    | Ho : forall k, k <> u "properties" -> dict_get d' k = _ |- _ =>
        rewrite Ho by (vm_compute; discriminate)
    end.
    reflexivity.
Defined.

(** ** Rows and columns of a batch *)

Lemma dict_setitem_nonempty (d : pydict) (k : pystr) (v : pyval) :
  nonempty (dict_setitem d k v) = true.
Proof.
  destruct d as [|[k' v'] d]; simpl; [reflexivity|].
  now destruct (pystr_eqb k' k).
Qed.

Lemma dict_of_items_nonempty (items : list (pystr * pyval)) :
  nonempty (dict_of_items items) = nonempty items.
Proof.
  unfold dict_of_items. destruct items as [|[k v] items]; [reflexivity|].
  simpl.
  enough (H : forall acc, nonempty acc = true ->
                          nonempty (fold_left
                                      (fun d kv => dict_setitem d (fst kv) (snd kv))
                                      items acc) = true)
    by now apply H.
  induction items as [|[k' v'] items IH]; intros acc Hacc; simpl; [exact Hacc|].
  apply IH, dict_setitem_nonempty.
Qed.

Lemma row_at_nonempty (rb : RecordBatch) (i : nat) :
  nonempty (row_at rb i) = match columns rb with [] => false | _ => true end.
Proof.
  unfold row_at. rewrite dict_of_items_nonempty. now destruct (columns rb).
Qed.

(** X8: a batch with at least one column is written with one fragment
    per row, [num_rows] in all; a batch with no column yields nothing,
    however many rows it has. *)
Theorem write_batch_length {libs : Libraries} (limit : nat) (rb : RecordBatch) :
  length (write_batch limit rb)
  = match columns rb with
    | [] => 0
    | _ :: _ => num_rows rb
    end.
Proof.
  rewrite write_batch_rows, length_map. unfold to_pylist.
  assert (H : forall l,
             filter nonempty (map (row_at rb) l)
             = match columns rb with [] => [] | _ => map (row_at rb) l end).
  { induction l as [|i l IH]; simpl; [now destruct (columns rb)|].
    rewrite row_at_nonempty, IH. now destruct (columns rb). }
  rewrite H. destruct (columns rb); [reflexivity|].
  now rewrite length_map, length_seq.
Qed.

(** X9: with [include_inserted_at] set, a batch whose column names are
    distinct is written with all its columns, whether or not it has an
    [_inserted_at] column. *)
Theorem transform_batch_keeps_all_columns
        {libs : Libraries} (limit : nat) (t : StreamTransformer) (rb : RecordBatch) :
  include_inserted_at t = true ->
  NoDup (column_names rb) ->
  transform_batch limit t rb = Ok (write_batch limit rb).
Proof.
  intros Hinc Hnd. unfold transform_batch. rewrite Hinc. cbn [rbind].
  unfold column_names. rewrite select_sublist; [|exact Hnd | apply incl_refl].
  now destruct rb.
Qed.

Lemma transform_batch_keeps_all_columns_witness :
  let t := @new_transformer sample_libs JSONLStreamTransformer None true in
  rbind (transform_batch 255 t two_rows) (fun g => run_generator g t)
  = Ok ([line_a x31; line_a x32], t).
Proof.
  intros t.
  rewrite (@transform_batch_keeps_all_columns sample_libs 255 t two_rows eq_refl).
  - vm_compute. reflexivity.
  - repeat constructor. intros [].
Defined.

Lemma occurrences_pop (names : list pystr) (x : pystr) :
  forall i, 2 <= length (filter (fun n => pystr_eqb n x) names) ->
            In x (pop names i).
Proof.
  induction names as [|n names IH]; intros i H; simpl in *; [lia|].
  destruct (pystr_eqb n x) eqn:E.
  - apply pystr_eqb_eq in E. subst n. simpl in H.
    destruct i as [|i].
    + destruct (filter (fun n => pystr_eqb n x) names) as [|y l] eqn:F;
        [simpl in H; lia|].
      assert (Hy : In y (filter (fun n => pystr_eqb n x) names))
        by (rewrite F; now left).
      apply filter_In in Hy. destruct Hy as [Hin Hy].
      apply pystr_eqb_eq in Hy. now subst.
    + now left.
  - destruct i as [|i]; [|right; now apply IH].
    destruct (filter (fun n => pystr_eqb n x) names) as [|y l] eqn:F;
      [simpl in H; lia|].
    assert (Hy : In y (filter (fun n => pystr_eqb n x) names))
      by (rewrite F; now left).
    apply filter_In in Hy. destruct Hy as [Hin Hy].
    apply pystr_eqb_eq in Hy. now subst.
Qed.

Lemma mapM_raises {A B} (f : A -> result B) (l : list A) (a : A) :
  In a l -> (exists e, f a = Raise e) -> exists e, mapM f l = Raise e.
Proof.
  intros Hin [e He]. induction l as [|x l IH]; [contradiction|].
  simpl. destruct (f x) as [y|e'] eqn:Hx; [|now eexists].
  destruct Hin as [->|Hin]; [congruence|].
  destruct (IH Hin) as [e'' ->]. simpl. now eexists.
Qed.

Lemma field_indices_names (rb : RecordBatch) (x : pystr) :
  length (field_indices rb x)
  = length (filter (fun n => pystr_eqb n x) (column_names rb)).
Proof.
  unfold field_indices, column_names.
  induction (columns rb) as [|c cols IH]; simpl; [reflexivity|].
  destruct (pystr_eqb (fst c) x); simpl; now rewrite IH.
Qed.

(** X10: a batch in which some name denotes two columns or more cannot
    be transformed: [transform_batch] raises, with [include_inserted_at]
    or without it, and yields nothing. *)
Theorem transform_batch_ambiguous_column
        {libs : Libraries} (limit : nat) (t : StreamTransformer)
        (rb : RecordBatch) (x : pystr) :
  2 <= length (field_indices rb x) ->
  exists e, transform_batch limit t rb = Raise e.
Proof.
  intros H.
  assert (Hcol : exists e, select_column rb x = Raise e).
  { unfold select_column. destruct (field_indices rb x) as [|c [|c' l]];
      simpl in H; try lia. now eexists. }
  rewrite field_indices_names in H.
  assert (Hsel : forall names, In x names -> exists e, select rb names = Raise e).
  { intros names Hin. unfold select.
    destruct (mapM_raises (select_column rb) names x Hin) as [e He];
      [exact Hcol|].
    rewrite He. now eexists. }
  unfold transform_batch. destruct (include_inserted_at t).
  - cbn [rbind]. destruct (Hsel (column_names rb)) as [e ->]; [|now eexists].
    destruct (filter (fun n => pystr_eqb n x) (column_names rb)) as [|y l] eqn:F;
      [simpl in H; lia|].
    assert (Hy : In y (filter (fun n => pystr_eqb n x) (column_names rb)))
      by (rewrite F; now left).
    apply filter_In in Hy. destruct Hy as [Hin Hy].
    apply pystr_eqb_eq in Hy. now subst.
  - destruct (index (column_names rb) (u "_inserted_at")) as [i|e];
      [|now eexists].
    cbn [rbind].
    destruct (Hsel (pop (column_names rb) i)) as [e ->]; [|now eexists].
    now apply occurrences_pop.
Qed.

Lemma transform_batch_ambiguous_column_witness :
  let t := @new_transformer sample_libs JSONLStreamTransformer None false in
  transform_batch 255 t
    {| num_rows := 1;
       columns := [(u "_inserted_at", [PInt 1]); (u "_inserted_at", [PInt 2])] |}
  = Raise (KeyError (u "Field " ++ [quote] ++ u "_inserted_at" ++ [quote]
                       ++ u " exists 2 times in schema")).
Proof.
  intros t.
  destruct (@transform_batch_ambiguous_column sample_libs 255 t
              {| num_rows := 1;
                 columns := [(u "_inserted_at", [PInt 1]);
                             (u "_inserted_at", [PInt 2])] |}
              (u "_inserted_at")) as [e He].
  - vm_compute. lia.
  - rewrite He. vm_compute in He. now injection He as <-.
Defined.

(** ** Compression *)

Lemma get_stream_transformer_new
      {libs : Libraries} (format : pystr) (compression : option pystr)
      (schema : option Schema) (include_inserted_at : bool)
      (t : StreamTransformer) :
  get_stream_transformer format compression schema include_inserted_at = Ok t ->
  exists cls, t = new_transformer cls compression include_inserted_at.
Proof.
  unfold get_stream_transformer.
  destruct (pystr_eqb (lower format) (u "jsonlines")).
  - intros [= <-]. now eexists.
  - destruct (pystr_eqb (lower format) (u "parquet")); [|discriminate].
    destruct schema; [|discriminate]. intros [= <-]. now eexists.
Qed.

Lemma stateless_not_brotli
      {libs : Libraries} (t : StreamTransformer) (f : bytes -> bytes) :
  stateless_compress t = Some f -> compression_is t "brotli" = false.
Proof.
  unfold stateless_compress, compression_is.
  destruct (compression t) as [name|]; [|reflexivity].
  destruct (pystr_eqb name (u "gzip")) eqn:E; [|discriminate].
  apply pystr_eqb_eq in E. now subst.
Qed.

(** X11: a transformer the factory builds with no compression name, or an
    empty one, returns the bytes it is given; built with [gzip] in any
    casing it returns their gzip compression; in both cases [compress]
    leaves the transformer as it was, [finalize] writes nothing and
    [finish_brotli_compressor] raises [ValueError]. *)
Theorem factory_stateless_compression
        {libs : Libraries} (format : pystr) (compression : option pystr)
        (schema : option Schema) (include_inserted_at : bool)
        (t : StreamTransformer) :
  get_stream_transformer format compression schema include_inserted_at = Ok t ->
  compression = None \/ compression = Some []
  \/ (exists name, compression = Some name /\ lower name = u "gzip") ->
  (forall bs,
      compress t (CBytes bs)
      = Ok (match compression with
            | Some (_ :: _) => gzip_compress bs
            | _ => bs
            end, t))
  /\ finalize t = Ok ([], t)
  /\ exists msg, finish_brotli_compressor t = Raise (ValueError msg).
Proof.
  intros Hget Hname.
  destruct (get_stream_transformer_new _ _ _ _ _ Hget) as [cls Ht].
  assert (Hs : stateless_compress t
               = Some (fun bs => match compression with
                                 | Some (_ :: _) => gzip_compress bs
                                 | _ => bs
                                 end)).
  { subst t. unfold stateless_compress.
    destruct Hname as [->|[->|[name [-> Hlow]]]]; try reflexivity.
    destruct name as [|c s]; [discriminate|].
    cbn [new_transformer compression]. now rewrite Hlow. }
  pose proof (stateless_not_brotli _ _ Hs) as Hnb.
  split; [|split].
  - intros bs. now rewrite (compress_stateless _ _ bs Hs).
  - now apply finalize_not_brotli.
  - rewrite (finish_brotli_compressor_not_brotli _ Hnb). now eexists.
Qed.

Lemma factory_stateless_compression_witness :
  exists t,
    @get_stream_transformer sample_libs (u "JSONLines") (Some (u "GZip")) None false
    = Ok t
    /\ compress t (CBytes [x41]) = Ok ([x1f; x8b; x41], t).
Proof.
  destruct (@get_stream_transformer sample_libs (u "JSONLines") (Some (u "GZip"))
              None false) as [t|e] eqn:E; [|vm_compute in E; discriminate].
  exists t. split; [reflexivity|].
  destruct (@factory_stateless_compression sample_libs (u "JSONLines")
              (Some (u "GZip")) None false t E) as [H _].
  - right. right. exists (u "GZip"). split; reflexivity.
  - apply H.
Defined.

Lemma str_encode_strict_surrogate (s : pystr) :
  existsb is_surrogate s = true -> str_encode Strict s = Raise UnicodeEncodeError.
Proof.
  induction s as [|c s IH]; simpl; [discriminate|].
  destruct (is_surrogate c); [reflexivity|]. simpl. intros H.
  now rewrite (IH H).
Qed.

Lemma str_encode_strict_decode (s : pystr) (bs : bytes) :
  valid_str s -> str_encode Strict s = Ok bs -> bytes_decode bs = Ok s.
Proof.
  intros Hv. revert bs. induction Hv as [|c s Hc Hs IH]; simpl; intros bs H.
  - now injection H as <-.
  - destruct (is_surrogate c) eqn:E; [discriminate|].
    destruct (str_encode Strict s) as [r|]; [|discriminate]. simpl in H.
    injection H as <-.
    rewrite bytes_decode_encode_cp by assumption. now rewrite (IH r eq_refl).
Qed.

Lemma str_encode_strict_clean (s : pystr) :
  existsb is_surrogate s = false -> exists bs, str_encode Strict s = Ok bs.
Proof.
  induction s as [|c s IH]; simpl; intros H; [now eexists|].
  apply orb_false_iff in H. destruct H as [Hc Hs]. rewrite Hc.
  destruct (IH Hs) as [r ->]. simpl. now eexists.
Qed.

(** X12: [compress] given a [str] encodes it to UTF-8 first: with a lone
    surrogate in it the call raises [UnicodeEncodeError] whatever the
    compression, an unsupported one included; otherwise it does what it
    does on the encoded bytes, and those bytes decode back to the
    [str]. *)
Theorem compress_str
        {libs : Libraries} (t : StreamTransformer) (s : pystr) :
  valid_str s ->
  (existsb is_surrogate s = true ->
   compress t (CStr s) = Raise UnicodeEncodeError)
  /\ (existsb is_surrogate s = false ->
      exists bs,
        str_encode Strict s = Ok bs
        /\ compress t (CStr s) = compress t (CBytes bs)
        /\ bytes_decode bs = Ok s).
Proof.
  intros Hv. split; intros Hs.
  - unfold compress. now rewrite str_encode_strict_surrogate.
  - destruct (str_encode_strict_clean s Hs) as [bs Hbs]. exists bs.
    split; [exact Hbs|]. split.
    + unfold compress. now rewrite Hbs.
    + now apply str_encode_strict_decode.
Qed.

Lemma compress_str_witness :
  let t := @new_transformer sample_libs JSONLStreamTransformer (Some (u "zstd")) false in
  compress t (CStr [104; 0xD83D]%N) = Raise UnicodeEncodeError
  /\ exists bs, str_encode Strict [104; 0xE9; 0x20AC; 0x1F600]%N = Ok bs
                /\ bytes_decode bs = Ok [104; 0xE9; 0x20AC; 0x1F600]%N.
Proof.
  intros t. split.
  - apply (@compress_str sample_libs t [104; 0xD83D]%N).
    + repeat constructor; vm_compute; discriminate.
    + reflexivity.
  - destruct (@compress_str sample_libs t [104; 0xE9; 0x20AC; 0x1F600]%N)
      as [_ H].
    + repeat constructor; vm_compute; discriminate.
    + destruct (H eq_refl) as [bs [H1 [_ H2]]]. exists bs. now split.
Defined.

(** ** The segment controller *)

Lemma over_limit_zero (size : Z) : over_limit 0 size = false.
Proof. reflexivity. Qed.

Lemma segmented_unbounded (size : Z) (tr : list emitted) :
  segmented 0 size tr -> Forall (fun e => snd (chunk_of e) = false) tr.
Proof.
  induction 1 as [size fin | size c rest _ _ IH
                  | size c fin rest Hover _ _ | size c Hover].
  - apply Forall_map. now apply Forall_forall.
  - constructor; [reflexivity | exact IH].
  - discriminate Hover.
  - discriminate Hover.
Qed.

Lemma yield_chunks_unbounded (chunks : list bytes) :
  forall size,
    yield_chunks 0 chunks size
    = (map not_boundary chunks, (size + total chunks)%Z).
Proof.
  induction chunks as [|c chunks IH]; intros size; cbn [yield_chunks map].
  - f_equal. change (total []) with 0%Z. lia.
  - rewrite over_limit_zero, IH.
    change (total (c :: chunks)) with (blen c + total chunks)%Z.
    apply f_equal2; [reflexivity | lia].
Qed.

(** X13: with a limit of zero no boundary is ever yielded, whatever the
    subclass and the batches: every chunk of the stream is a
    non-boundary chunk, and the consumer of the pipeline yields the
    chunks of a job as they are. *)
Theorem no_boundary_without_limit
        (T : Type)
        (transform_batch : T -> RecordBatch -> result (list (T -> result (bytes * T))))
        (finalize : T -> result (list bytes * T))
        (record_batches : list RecordBatch) (t : T) :
  Forall (fun c : chunk => snd c = false)
         (fst (iter_transformed_record_batches transform_batch finalize
                 record_batches 0 t))
  /\ forall chunks size,
      fst (yield_chunks 0 chunks size) = map not_boundary chunks.
Proof.
  split.
  - rewrite iter_marked. cbn [fst]. apply Forall_map.
    apply segmented_unbounded with (size := 0%Z).
    apply marked_iter_segmented.
  - intros chunks size. now rewrite yield_chunks_unbounded.
Qed.

Lemma yield_chunks_payload (max : Z) (chunks : list bytes) :
  forall size,
    map fst (filter (fun c : chunk => negb (snd c))
                    (fst (yield_chunks max chunks size)))
    = chunks
    /\ Forall (fun c : chunk => snd c = true -> fst c = [])
              (fst (yield_chunks max chunks size)).
Proof.
  induction chunks as [|c chunks IH]; intros size; cbn [yield_chunks];
    [split; constructor|].
  destruct (over_limit max (size + blen c)).
  - destruct (IH 0%Z) as [H1 H2].
    destruct (yield_chunks max chunks 0) as [out s].
    cbn [fst snd filter map negb] in *.
    split; [f_equal; exact H1|].
    constructor; [discriminate|]. constructor; [reflexivity | exact H2].
  - destruct (IH (size + blen c)%Z) as [H1 H2].
    destruct (yield_chunks max chunks (size + blen c)) as [out s].
    cbn [fst snd filter map negb] in *.
    split; [f_equal; exact H1|]. constructor; [discriminate | exact H2].
Qed.

Lemma consume_payload (max : Z) (results : list (list bytes)) :
  forall size,
    map fst (filter (fun c : chunk => negb (snd c))
                    (fst (consume max results size)))
    = concat results
    /\ Forall (fun c : chunk => snd c = true -> fst c = [])
              (fst (consume max results size)).
Proof.
  induction results as [|r results IH]; intros size; cbn [consume concat];
    [split; constructor|].
  destruct (yield_chunks_payload max r size) as [H1 H2].
  destruct (yield_chunks max r size) as [out s1]. cbn [fst] in H1, H2.
  destruct (IH s1) as [H3 H4].
  destruct (consume max results s1) as [out' s2]. cbn [fst] in H3, H4 |- *.
  split.
  - rewrite filter_app, map_app. apply f_equal2; assumption.
  - apply Forall_app. now split.
Qed.

(** X14: segmenting loses and reorders nothing. For a JSONL transformer
    without brotli and batches that all transform, the stream of the
    base class, for any limit, is the fragments of the rows in order
    with boundaries put in between: leaving the boundary chunks out
    gives exactly the fragments, a boundary chunk carries no bytes, and
    the transformer ends as it started. *)
Theorem boundaries_only_mark
        {libs : Libraries} (limit : nat) (max_file_size_bytes : Z)
        (self : StreamTransformer) (batches : list RecordBatch)
        (results : list (list bytes)) :
  compression_is self "brotli" = false ->
  mapM (transformed limit self) batches = Ok results ->
  exists out,
    sequential limit batches max_file_size_bytes self = (out, Ok (tt, self))
    /\ map fst (filter (fun c : chunk => negb (snd c)) out) = concat results
    /\ Forall (fun c : chunk => snd c = true -> fst c = []) out.
Proof.
  intros Hnb Hres. eexists. split.
  - apply (sequential_consume limit max_file_size_bytes self Hnb batches results Hres).
  - apply consume_payload.
Qed.

Lemma boundaries_only_mark_witness :
  let self := @new_transformer sample_libs JSONLStreamTransformer None true in
  exists out,
    sequential 255 [two_rows; two_rows] 10 self = (out, Ok (tt, self))
    /\ map fst (filter (fun c : chunk => negb (snd c)) out)
       = [line_a x31; line_a x32; line_a x31; line_a x32].
Proof.
  intros self.
  destruct (@boundaries_only_mark sample_libs 255 10 self [two_rows; two_rows]
              [[line_a x31; line_a x32]; [line_a x31; line_a x32]])
    as [out [H1 [H2 _]]].
  - reflexivity.
  - vm_compute. reflexivity.
  - exists out. split; [exact H1 | exact H2].
Defined.

Lemma yield_chunks_app (max : Z) (a c : list bytes) :
  forall size,
    yield_chunks max (a ++ c) size
    = (fst (yield_chunks max a size)
         ++ fst (yield_chunks max c (snd (yield_chunks max a size))),
       snd (yield_chunks max c (snd (yield_chunks max a size)))).
Proof.
  induction a as [|x a IH]; intros size; simpl.
  - now destruct (yield_chunks max c size).
  - destruct (over_limit max (size + blen x)).
    + rewrite IH. destruct (yield_chunks max a 0) as [o s]. reflexivity.
    + rewrite IH. destruct (yield_chunks max a (size + blen x)) as [o s].
      reflexivity.
Qed.

(** X15: where the consumer of the pipeline puts the boundaries depends
    on the sequence of chunks only, not on the jobs they come from:
    yielding the chunk lists of successive jobs one after the other is
    yielding their concatenation. *)
Theorem consume_concat (max_file_size_bytes : Z) (results : list (list bytes)) :
  forall size,
    consume max_file_size_bytes results size
    = yield_chunks max_file_size_bytes (concat results) size.
Proof.
  induction results as [|r results IH]; intros size; simpl; [reflexivity|].
  rewrite yield_chunks_app.
  destruct (yield_chunks max_file_size_bytes r size) as [out s1]. cbn [fst snd].
  rewrite IH.
  now destruct (yield_chunks max_file_size_bytes (concat results) s1).
Qed.

(** ** The pipeline: regions in use *)

Section InFlight.
Context {libs : Libraries}.
Variable recursion_limit : nat.
Variable cast_record_batch_json_columns : RecordBatch -> RecordBatch.
Variable self : StreamTransformer.
Variable max_file_size_bytes : Z.

Local Notation "'act'" :=
  (perform recursion_limit cast_record_batch_json_columns self max_file_size_bytes).
Local Notation "'reaches'" :=
  (steps recursion_limit cast_record_batch_json_columns self max_file_size_bytes).

Lemma filter_indices {A : Type} (p : A -> bool) (l : list A) :
  forall k,
    length (filter p l)
    = length (filter (fun i => match nth_error l (i - k) with
                               | Some x => p x
                               | None => false
                               end) (seq k (length l))).
Proof.
  induction l as [|a l IH]; intros k; [reflexivity|].
  cbn [length seq filter]. rewrite Nat.sub_diag. cbn [nth_error].
  assert (Hrest :
            filter (fun i => match nth_error (a :: l) (i - k) with
                             | Some x => p x
                             | None => false
                             end) (seq (S k) (length l))
            = filter (fun i => match nth_error l (i - S k) with
                               | Some x => p x
                               | None => false
                               end) (seq (S k) (length l))).
  { apply filter_ext_in. intros i Hi. apply in_seq in Hi.
    replace (i - k) with (S (i - S k)) by lia. reflexivity. }
  destruct (p a); cbn [length]; rewrite Hrest, <- IH; reflexivity.
Qed.

(** The region of a job the consumer has taken the chunks of is
    unlinked, by the worker, once. *)
Lemma consumed_unlinked (batches : list RecordBatch) (s : pipeline) (done i : nat) :
  invariant recursion_limit cast_record_batch_json_columns self
            max_file_size_bytes batches s done ->
  i < done ->
  (exists rb, nth_error (regions (memory s)) i
              = Some {| buf := rb; linked := false |})
  /\ unlinked_by Worker i (calls (memory s)) = 1.
Proof.
  intros Hinv Hi.
  destruct (inv_consumed Hinv Hi) as [chunks Hfut].
  assert (Hlt : i < length (futures s))
    by (apply nth_error_Some; congruence).
  destruct (submitted_batch _ _ _ _ _ _ _ _ Hinv Hlt) as [rb [_ Hjob]].
  destruct Hjob as [[Hsub _]|[Hfin [Hreg [Hun _]]]]; [congruence|].
  rewrite Hfut in Hfin. injection Hfin as Hres. symmetry in Hres.
  apply job_result_ok in Hres. unfold released in Hun.
  rewrite Hres in Hreg, Hun. cbn in Hreg, Hun.
  split; [now exists rb | exact Hun].
Qed.

Lemma linked_regions_not_consumed
      (batches : list RecordBatch) (s : pipeline) (done : nat) :
  invariant recursion_limit cast_record_batch_json_columns self
            max_file_size_bytes batches s done ->
  linked_regions (memory s) <= length (futures s) - done.
Proof.
  intros Hinv. unfold linked_regions.
  rewrite (filter_indices linked (regions (memory s)) 0).
  rewrite <- (length_seq (length (futures s) - done) done).
  apply NoDup_incl_length.
  - apply NoDup_filter, seq_NoDup.
  - intros i Hi. apply filter_In in Hi. destruct Hi as [Hi Hl].
    apply in_seq in Hi. rewrite Nat.sub_0_r in Hl.
    rewrite (inv_regions Hinv) in Hi. apply in_seq.
    destruct (Nat.lt_ge_cases i done) as [Hlt|Hge]; [|lia].
    destruct (consumed_unlinked _ _ _ _ Hinv Hlt) as [[rb Hreg] _].
    rewrite Hreg in Hl. discriminate.
Qed.

Lemma not_consumed_bound (batches : list RecordBatch) (s : pipeline) (done : nat) :
  invariant recursion_limit cast_record_batch_json_columns self
            max_file_size_bytes batches s done ->
  length (futures s) - done <= max_workers + 2.
Proof.
  intros Hinv.
  pose proof (inv_queue Hinv) as Hq. apply (f_equal (@length nat)) in Hq.
  rewrite length_seq in Hq.
  pose proof (inv_queue_bound Hinv) as Hb.
  assert (Hfut : length (futures s) <= S (enqueued s)).
  { unfold enqueued. destruct (producer_task s) as [|fut name| |e0] eqn:Hp;
      try lia.
    destruct (inv_put Hinv Hp). lia. }
  assert (Haw : awaited (consumer s) <= 1) by (destruct (consumer s); cbn; lia).
  destruct (consumer s) as [|fut| |e] eqn:Hc; cbn [awaited] in *.
  - lia.
  - lia.
  - lia.
  - destruct (inv_raised Hinv Hc) as [[_ Hlt]|[_ [Hdn _]]]; lia.
Qed.

Lemma awaited_submitted (batches : list RecordBatch) (s : pipeline) (done fut : nat) :
  invariant recursion_limit cast_record_batch_json_columns self
            max_file_size_bytes batches s done ->
  consumer s = CAwait fut ->
  fut = done /\ fut < length (futures s).
Proof.
  intros Hinv Hc. pose proof (inv_await Hinv Hc) as ->.
  pose proof (inv_queue_le Hinv) as Hle. rewrite Hc in Hle. cbn in Hle.
  specialize (Hle ltac:(intros e; discriminate)).
  pose proof (enqueued_le _ _ _ _ _ _ _ Hinv). split; [reflexivity | lia].
Qed.

(** What the consumer raises: the exception of the first job, in the
    order of submission, that failed, or that of the producer. *)
Lemma raised_is_first_failure
      (batches : list RecordBatch) (s : pipeline) (done : nat) (e : exn) :
  invariant recursion_limit cast_record_batch_json_columns self
            max_file_size_bytes batches s done ->
  consumer s = CRaised e ->
  (e = BufferError
   /\ exists n rb e0 results,
        nth_error batches n = Some rb
        /\ transformed recursion_limit self
             (received cast_record_batch_json_columns rb) = Raise e0
        /\ mapM (fun rb => transformed recursion_limit self
                             (received cast_record_batch_json_columns rb))
                (firstn n batches) = Ok results
        /\ yielded s = fst (consume max_file_size_bytes results 0))
  \/ (producer_task s = PFailed e
      /\ task_queue s = []
      /\ exists results,
           mapM (fun rb => transformed recursion_limit self
                             (received cast_record_batch_json_columns rb))
                (firstn (length (futures s)) batches) = Ok results
           /\ yielded s = fst (consume max_file_size_bytes results 0)).
Proof.
  intros Hinv Hc.
  destruct (inv_yielded Hinv) as [results [Hres Hout]].
  destruct (inv_raised Hinv Hc) as [[Hfut Hlt]|[Hp [Hdn Hq]]].
  - left.
    pose proof (enqueued_le _ _ _ _ _ _ _ Hinv) as Hle.
    destruct (submitted_batch _ _ _ _ _ _ _ _ Hinv (Nat.lt_le_trans _ _ _ Hlt Hle))
      as [rb [Hrb Hjob]].
    destruct Hjob as [[Hsub _]|[Hfin _]]; [congruence|].
    rewrite Hfut in Hfin. injection Hfin as Hr. symmetry in Hr.
    destruct (job_result_raise _ _ _ _ _ Hr) as [-> [e0 He0]].
    split; [reflexivity|].
    exists done, rb, e0, results. repeat split; try assumption.
    now rewrite Hout.
  - right. split; [exact Hp|]. split; [exact Hq|].
    exists results. rewrite <- Hdn. split; [exact Hres | now rewrite Hout].
Qed.

Lemma some_action_enabled (batches : list RecordBatch) (s : pipeline) (done : nat) :
  invariant recursion_limit cast_record_batch_json_columns self
            max_file_size_bytes batches s done ->
  consumer s <> CDone -> (forall e, consumer s <> CRaised e) ->
  exists a s', act a s = Some s'.
Proof.
  intros Hinv Hnd Hnr.
  assert (Hconsumer :
            task_queue s <> [] \/ producer_task s = PDone
            \/ (exists e, producer_task s = PFailed e) ->
            exists a s', act a s = Some s').
  { intros Hq. destruct (consumer s) as [|fut| |e] eqn:Hc.
    - exists ConsumerGet. cbn [perform]. unfold consumer_get. rewrite Hc.
      destruct (task_queue s) as [|x q]; [|eauto].
      destruct Hq as [Hq|[Hq|[e Hq]]]; [congruence| |]; rewrite Hq; eauto.
    - destruct (awaited_submitted _ _ _ _ Hinv Hc) as [_ Hlt].
      apply nth_error_Some in Hlt.
      destruct (nth_error (futures s) fut) as [[name|[chunks|e]]|] eqn:Hfut;
        [| | |congruence].
      + exists (WorkerRun fut). cbn [perform]. unfold worker_run. rewrite Hfut.
        destruct (transform_record_batch_from_shared_memory
                    recursion_limit cast_record_batch_json_columns name self (memory s)).
        eauto.
      + exists ConsumerAwait. cbn [perform]. unfold consumer_await.
        rewrite Hc, Hfut.
        destruct (yield_chunks max_file_size_bytes chunks (current_file_size s)).
        eauto.
      + exists ConsumerAwait. cbn [perform]. unfold consumer_await.
        rewrite Hc, Hfut. eauto.
    - congruence.
    - exfalso. exact (Hnr e eq_refl). }
  destruct (producer_task s) as [|fut name| |e] eqn:Hp.
  - destruct (record_batches s) as [|rb rest] eqn:Hb.
    + exists ProducerReturn. cbn [perform]. unfold producer_return.
      rewrite Hp, Hb. eauto.
    + exists ProducerSubmit. cbn [perform]. unfold producer_submit.
      rewrite Hp, Hb. cbn. eauto.
  - destruct (length (task_queue s) <? max_workers) eqn:Hlt.
    + exists ProducerPut. cbn [perform]. unfold producer_put. rewrite Hp, Hlt. eauto.
    + apply Hconsumer. left. apply Nat.ltb_ge in Hlt. unfold max_workers in Hlt.
      destruct (task_queue s); [cbn in Hlt; lia | discriminate].
  - apply Hconsumer. right. now left.
  - apply Hconsumer. right. right. now exists e.
Qed.

(** The worker on a region: what its outcome says of the region. *)
Lemma worker_outcome (name : nat) (t : StreamTransformer) (m : shared_memory) :
  let first := transform_record_batch_from_shared_memory
                 recursion_limit cast_record_batch_json_columns name t m in
  (fst first = Raise (FileNotFoundError name) /\ snd first = m
   /\ fst (shm_open Worker name m) = Raise (FileNotFoundError name))
  \/ (exists rb chunks,
         fst first = Ok chunks
         /\ nth_error (regions m) name = Some {| buf := rb; linked := true |}
         /\ snd first
            = shm_unlink Worker name
                (shm_close Worker name
                   {| regions := regions m;
                      calls := calls m ++ [ShmOpen Worker name] |}))
  \/ (exists rb e,
         fst first = Raise BufferError
         /\ nth_error (regions m) name = Some {| buf := rb; linked := true |}
         /\ transformed recursion_limit t
              (received cast_record_batch_json_columns rb) = Raise e
         /\ snd first = {| regions := regions m;
                           calls := calls m ++ [ShmOpen Worker name] |}).
Proof.
  cbv zeta. unfold transform_record_batch_from_shared_memory, shm_open.
  destruct (nth_error (regions m) name) as [[rb l]|] eqn:Hr;
    [|left; repeat split].
  cbn [linked buf]. destruct l; [|left; repeat split].
  unfold transformed, received.
  destruct (rbind (transform_batch recursion_limit t
                     (cast_record_batch_json_columns (ipc_roundtrip rb)))
                  (fun g => rbind (run_generator g t) (fun out => Ok (fst out))))
    as [chunks|e] eqn:Ht.
  - right. left. exists rb, chunks. repeat split.
  - right. right. exists rb, e. repeat split. exact Ht.
Qed.
End InFlight.

(** X16: the bounded queue bounds the shared memory in use. In every
    state the pipeline reaches, the queue holds [max_workers] futures at
    most, and at most [max_workers + 2] regions exist under a name: those
    of the jobs of the queue, of the job the consumer awaits and of the
    job the producer is about to put. *)
Theorem shared_memory_bounded
        {libs : Libraries} (recursion_limit : nat)
        (cast_record_batch_json_columns : RecordBatch -> RecordBatch)
        (self : StreamTransformer) (max_file_size_bytes : Z)
        (batches : list RecordBatch) (s : pipeline) :
  steps recursion_limit cast_record_batch_json_columns self max_file_size_bytes
        (start batches) s ->
  length (task_queue s) <= max_workers
  /\ linked_regions (memory s) <= max_workers + 2.
Proof.
  intros Hsteps.
  destruct (invariant_reachable _ _ _ _ _ _ Hsteps) as [done Hinv].
  split; [exact (inv_queue_bound Hinv)|].
  pose proof (linked_regions_not_consumed _ _ _ _ _ _ _ Hinv).
  pose proof (not_consumed_bound _ _ _ _ _ _ _ Hinv). lia.
Qed.

Lemma shared_memory_bounded_witness :
  let self := @new_transformer sample_libs JSONLStreamTransformer None true in
  exists s,
    run_schedule 255 (fun rb => rb) self 0
      [ProducerSubmit; ProducerPut; ProducerSubmit; ProducerPut; ConsumerGet;
       ProducerSubmit; ProducerPut; ProducerSubmit]
      (start [two_rows; two_rows; two_rows; two_rows; two_rows])
    = Some s
    /\ length (task_queue s) = 2
    /\ linked_regions (memory s) = 4
    /\ linked_regions (memory s) <= max_workers + 2.
Proof.
  intros self. eexists. split; [vm_compute; reflexivity|].
  split; [reflexivity|]. split; [reflexivity|].
  apply (@shared_memory_bounded sample_libs 255 (fun rb => rb) self 0
           [two_rows; two_rows; two_rows; two_rows; two_rows]).
  apply (run_schedule_steps 255 (fun rb => rb) self 0
           [ProducerSubmit; ProducerPut; ProducerSubmit; ProducerPut; ConsumerGet;
            ProducerSubmit; ProducerPut; ProducerSubmit]).
  vm_compute. reflexivity.
Defined.

(** X17: nothing is left in shared memory when the stream ends normally.
    Once the consumer has left its loop, every batch has been given a
    region, no region exists under a name any more, and each has been
    unlinked by a worker, once. *)
Theorem no_region_left_at_completion
        {libs : Libraries} (recursion_limit : nat)
        (cast_record_batch_json_columns : RecordBatch -> RecordBatch)
        (self : StreamTransformer) (max_file_size_bytes : Z)
        (batches : list RecordBatch) (s : pipeline) :
  steps recursion_limit cast_record_batch_json_columns self max_file_size_bytes
        (start batches) s ->
  consumer s = CDone ->
  length (regions (memory s)) = length batches
  /\ linked_regions (memory s) = 0
  /\ forall name, name < length batches ->
                  unlinked_by Worker name (calls (memory s)) = 1.
Proof.
  intros Hsteps Hc.
  destruct (invariant_reachable _ _ _ _ _ _ Hsteps) as [done Hinv].
  destruct (all_consumed _ _ _ _ _ _ _ Hinv Hc) as [Hdn Hlen].
  split; [rewrite (inv_regions Hinv); exact Hlen|]. split.
  - pose proof (linked_regions_not_consumed _ _ _ _ _ _ _ Hinv) as Hle. lia.
  - intros name Hname. rewrite <- Hdn in Hname.
    exact (proj2 (consumed_unlinked _ _ _ _ _ _ _ _ Hinv Hname)).
Qed.

Lemma no_region_left_at_completion_witness :
  let self := @new_transformer sample_libs JSONLStreamTransformer None true in
  exists s,
    run_schedule 255 (fun rb => rb) self 0
      [ProducerSubmit; ProducerPut; ProducerSubmit; ProducerPut;
       WorkerRun 1; WorkerRun 0; ConsumerGet; ConsumerAwait;
       ConsumerGet; ConsumerAwait; ProducerReturn; ConsumerGet]
      (start [two_rows; two_rows])
    = Some s
    /\ length (regions (memory s)) = 2
    /\ linked_regions (memory s) = 0.
Proof.
  intros self. eexists. split; [vm_compute; reflexivity|].
  match goal with
  | |- length (regions (memory ?s)) = _ /\ _ =>
      destruct (@no_region_left_at_completion sample_libs 255 (fun rb => rb)
                  self 0 [two_rows; two_rows] s) as [H1 [H2 _]]
  end.
  - apply (run_schedule_steps 255 (fun rb => rb) self 0
             [ProducerSubmit; ProducerPut; ProducerSubmit; ProducerPut;
              WorkerRun 1; WorkerRun 0; ConsumerGet; ConsumerAwait;
              ConsumerGet; ConsumerAwait; ProducerReturn; ConsumerGet]).
    vm_compute. reflexivity.
  - reflexivity.
  - split; [exact H1 | exact H2].
Defined.

(** X18: what the consumer raises, and when. It is the exception of a
    job or that of the producer. In the first case the job is that of
    the first batch, in the order of submission, whose transformation
    fails, whichever worker failed first in time, and the exception is
    not that of the transformation but the [BufferError] with which the
    worker's [close] replaced it; what has been yielded by then is the
    output of the batches before it, and nothing of a later batch. In
    the second case the queue is empty, every batch that was submitted
    has been transformed, and its output yielded. *)
Theorem consumer_raises_first_failure
        {libs : Libraries} (recursion_limit : nat)
        (cast_record_batch_json_columns : RecordBatch -> RecordBatch)
        (self : StreamTransformer) (max_file_size_bytes : Z)
        (batches : list RecordBatch) (s : pipeline) (e : exn) :
  steps recursion_limit cast_record_batch_json_columns self max_file_size_bytes
        (start batches) s ->
  consumer s = CRaised e ->
  (e = BufferError
   /\ exists n rb e0 results,
        nth_error batches n = Some rb
        /\ transformed recursion_limit self
             (received cast_record_batch_json_columns rb) = Raise e0
        /\ mapM (fun rb => transformed recursion_limit self
                             (received cast_record_batch_json_columns rb))
                (firstn n batches) = Ok results
        /\ yielded s = fst (consume max_file_size_bytes results 0))
  \/ (producer_task s = PFailed e
      /\ task_queue s = []
      /\ exists results,
           mapM (fun rb => transformed recursion_limit self
                             (received cast_record_batch_json_columns rb))
                (firstn (length (futures s)) batches) = Ok results
           /\ yielded s = fst (consume max_file_size_bytes results 0)).
Proof.
  intros Hsteps Hc.
  destruct (invariant_reachable _ _ _ _ _ _ Hsteps) as [done Hinv].
  exact (raised_is_first_failure _ _ _ _ _ _ _ _ Hinv Hc).
Qed.

(** Three batches, of which the second and the third cannot be
    transformed; the worker of the third fails first. And one batch
    after which the iterator of the batches fails. *)
Lemma consumer_raises_first_failure_witness :
  let self := @new_transformer sample_libs JSONLStreamTransformer None false in
  let good := {| num_rows := 1;
                 columns := [(u "a", [PInt 1]); (u "_inserted_at", [PInt 0])] |} in
  let twice := {| num_rows := 1;
                  columns := [(u "_inserted_at", [PInt 1]);
                              (u "_inserted_at", [PInt 2])] |} in
  (exists s,
      run_schedule 255 (fun rb => rb) self 0
        [ProducerSubmit; ProducerPut; ProducerSubmit; ProducerPut; ConsumerGet;
         ProducerSubmit; ProducerPut; WorkerRun 2; WorkerRun 1; WorkerRun 0;
         ConsumerAwait; ConsumerGet; ConsumerAwait]
        (start [good; two_rows; twice])
      = Some s
      /\ transformed 255 self two_rows
         = Raise (ValueError (u "'_inserted_at' is not in list"))
      /\ consumer s = CRaised BufferError
      /\ yielded s = [(line_a x31, false)]
      /\ exists n rb e0 results,
           nth_error [good; two_rows; twice] n = Some rb
           /\ transformed 255 self rb = Raise e0
           /\ mapM (fun rb => transformed 255 self rb)
                   (firstn n [good; two_rows; twice]) = Ok results
           /\ yielded s = fst (consume 0 results 0))
  /\ (exists s,
         run_schedule 255 (fun rb => rb) self 0
           (one_batch 0 ++ [ProducerRaise (ValueError (u "iterator")); ConsumerGet])
           (start [good; two_rows])
         = Some s
         /\ consumer s = CRaised (ValueError (u "iterator"))
         /\ producer_task s = PFailed (ValueError (u "iterator"))
         /\ yielded s = [(line_a x31, false)]).
Proof.
  intros self good twice. split.
  - eexists. split; [vm_compute; reflexivity|].
    split; [vm_compute; reflexivity|]. split; [reflexivity|].
    split; [reflexivity|].
    match goal with
    | |- context [yielded ?s = fst _] =>
        destruct (@consumer_raises_first_failure sample_libs 255 (fun rb => rb)
                    self 0 [good; two_rows; twice] s BufferError)
          as [[_ H]|[H _]]
    end.
    + apply (run_schedule_steps 255 (fun rb => rb) self 0
               [ProducerSubmit; ProducerPut; ProducerSubmit; ProducerPut;
                ConsumerGet; ProducerSubmit; ProducerPut; WorkerRun 2;
                WorkerRun 1; WorkerRun 0; ConsumerAwait; ConsumerGet;
                ConsumerAwait]).
      vm_compute. reflexivity.
    + reflexivity.
    + exact H.
    + discriminate H.
  - eexists. split; [vm_compute; reflexivity|].
    split; [reflexivity|]. split; [reflexivity|].
    match goal with
    | |- yielded ?s = _ =>
        destruct (@consumer_raises_first_failure sample_libs 255 (fun rb => rb)
                    self 0 [good; two_rows] s (ValueError (u "iterator")))
          as [[H _]|[_ [_ [results [Hres Hy]]]]]
    end.
    + apply (run_schedule_steps 255 (fun rb => rb) self 0
               (one_batch 0 ++ [ProducerRaise (ValueError (u "iterator"));
                                ConsumerGet])).
      vm_compute. reflexivity.
    + reflexivity.
    + discriminate H.
    + rewrite Hy. vm_compute in Hres. injection Hres as <-. reflexivity.
Defined.

(** X19: the pipeline cannot come to a halt before its end. In every
    state it reaches in which the consumer has neither left its loop nor
    raised, the producer, a worker or the consumer can move: the queue
    being full never blocks for good, and the consumer never awaits a job
    that was not submitted. *)
Theorem pipeline_never_stuck
        {libs : Libraries} (recursion_limit : nat)
        (cast_record_batch_json_columns : RecordBatch -> RecordBatch)
        (self : StreamTransformer) (max_file_size_bytes : Z)
        (batches : list RecordBatch) (s : pipeline) :
  steps recursion_limit cast_record_batch_json_columns self max_file_size_bytes
        (start batches) s ->
  consumer s <> CDone -> (forall e, consumer s <> CRaised e) ->
  exists s',
    step recursion_limit cast_record_batch_json_columns self max_file_size_bytes
         s s'.
Proof.
  intros Hsteps Hnd Hnr.
  destruct (invariant_reachable _ _ _ _ _ _ Hsteps) as [done Hinv].
  destruct (some_action_enabled _ _ _ _ _ _ _ Hinv Hnd Hnr) as [a [s' H]].
  exists s'. now apply step_perform with (a := a).
Qed.

Lemma pipeline_never_stuck_witness :
  let self := @new_transformer sample_libs JSONLStreamTransformer None true in
  exists s s',
    run_schedule 255 (fun rb => rb) self 0
      [ProducerSubmit; ProducerPut; ProducerSubmit; ProducerPut; ProducerSubmit;
       ConsumerGet]
      (start [two_rows; two_rows; two_rows])
    = Some s
    /\ length (task_queue s) = 1
    /\ step 255 (fun rb => rb) self 0 s s'.
Proof.
  intros self. eexists.
  match goal with
  | |- exists s', run_schedule _ _ _ _ ?sched ?s0 = Some ?s /\ _ =>
      assert (Hrun : run_schedule 255 (fun rb => rb) self 0 sched s0 = Some s)
  end.
  { vm_compute. reflexivity. }
  destruct (@pipeline_never_stuck sample_libs 255 (fun rb => rb) self 0
              [two_rows; two_rows; two_rows] _
              (run_schedule_steps 255 (fun rb => rb) self 0 _ _ _ Hrun))
    as [s' Hstep].
  - discriminate.
  - intros e. discriminate.
  - exists s'. split; [exact Hrun|]. split; [reflexivity | exact Hstep].
Defined.

(** X20: a region is handed to one run of the worker when that run
    succeeds. After a run of the worker that returned its chunks, or
    whose opening failed, a second run on the same name raises
    [FileNotFoundError] from the opening and makes no call on the shared
    memory: nothing is closed or unlinked that was not opened. After a
    run whose transformation failed the region is as it was, linked, with
    one more handle opened on it: a second run with the same transformer
    opens it again and fails in the same way. *)
Theorem worker_runs_once
        {libs : Libraries} (recursion_limit : nat)
        (cast_record_batch_json_columns : RecordBatch -> RecordBatch)
        (name : nat) (t t' : StreamTransformer) (m : shared_memory) :
  let first := transform_record_batch_from_shared_memory
                 recursion_limit cast_record_batch_json_columns name t m in
  (fst first <> Raise BufferError ->
   transform_record_batch_from_shared_memory
     recursion_limit cast_record_batch_json_columns name t' (snd first)
   = (Raise (FileNotFoundError name), snd first))
  /\ (fst first = Raise BufferError ->
      regions (snd first) = regions m
      /\ calls (snd first) = calls m ++ [ShmOpen Worker name]
      /\ transform_record_batch_from_shared_memory
           recursion_limit cast_record_batch_json_columns name t (snd first)
         = (Raise BufferError,
            {| regions := regions m;
               calls := calls m ++ [ShmOpen Worker name; ShmOpen Worker name] |})).
Proof.
  cbv zeta.
  destruct (worker_outcome recursion_limit cast_record_batch_json_columns name t m)
    as [[Hf [Hm Hopen]]|[[rb [chunks [Hf [Hr Hm]]]]|[rb [e [Hf [Hr [Ht Hm]]]]]]].
  - split; [|intros H; rewrite Hf in H; discriminate].
    intros _. rewrite Hm.
    unfold transform_record_batch_from_shared_memory.
    destruct (shm_open Worker name m) as [[stream|e0] m1] eqn:Ho;
      cbn [fst] in Hopen; [discriminate|].
    injection Hopen as ->.
    unfold shm_open in Ho.
    destruct (nth_error (regions m) name) as [r|];
      [destruct (linked r); [discriminate|]|]; now injection Ho as <-.
  - split; [|intros H; rewrite Hf in H; discriminate].
    intros _. rewrite Hm.
    unfold transform_record_batch_from_shared_memory at 1, shm_open.
    cbn [shm_unlink shm_close regions calls].
    rewrite (nth_error_set_unlinked_same _ _ _ Hr). reflexivity.
  - split; [intros H; now rewrite Hf in H|].
    intros _. rewrite Hm. cbn [regions calls].
    split; [reflexivity|]. split; [reflexivity|].
    unfold transform_record_batch_from_shared_memory, shm_open.
    cbn [regions calls]. rewrite Hr. cbn [linked buf].
    unfold transformed, received in Ht. rewrite Ht.
    now rewrite <- app_assoc.
Qed.

Lemma worker_runs_once_witness :
  let m := {| regions := [{| buf := two_rows; linked := true |}];
              calls := [ShmCreate Producer 0; ShmClose Producer 0] |} in
  let keeps := @new_transformer sample_libs JSONLStreamTransformer None true in
  let drops := @new_transformer sample_libs JSONLStreamTransformer None false in
  (exists m1,
      transform_record_batch_from_shared_memory 255 (fun rb => rb) 0 keeps m
      = (Ok [line_a x31; line_a x32], m1)
      /\ transform_record_batch_from_shared_memory 255 (fun rb => rb) 0 drops m1
         = (Raise (FileNotFoundError 0), m1))
  /\ (exists m1,
         transform_record_batch_from_shared_memory 255 (fun rb => rb) 0 drops m
         = (Raise BufferError, m1)
         /\ regions m1 = [{| buf := two_rows; linked := true |}]
         /\ fst (transform_record_batch_from_shared_memory
                   255 (fun rb => rb) 0 drops m1)
            = Raise BufferError).
Proof.
  intros m keeps drops. split.
  - eexists. split; [vm_compute; reflexivity|].
    destruct (@worker_runs_once sample_libs 255 (fun rb => rb) 0 keeps drops m)
      as [H _].
    apply H. vm_compute. discriminate.
  - eexists. split; [vm_compute; reflexivity|].
    destruct (@worker_runs_once sample_libs 255 (fun rb => rb) 0 drops drops m)
      as [_ H].
    destruct (H eq_refl) as [Hr [_ Hagain]].
    split; [exact Hr | exact (f_equal fst Hagain)].
Defined.

(** ** The pipeline: termination *)

Section Termination.
Context {libs : Libraries}.
Variable recursion_limit : nat.
Variable cast_record_batch_json_columns : RecordBatch -> RecordBatch.
Variable self : StreamTransformer.
Variable max_file_size_bytes : Z.

Local Notation "'act'" :=
  (perform recursion_limit cast_record_batch_json_columns self max_file_size_bytes).
Local Notation "'run'" :=
  (run_schedule recursion_limit cast_record_batch_json_columns self
                max_file_size_bytes).

Lemma submitted_set_finished (fs : list future) :
  forall i name r,
    nth_error fs i = Some (Submitted name) ->
    length (filter is_submitted fs)
    = S (length (filter is_submitted (set_future fs i (Finished r)))).
Proof.
  induction fs as [|f fs IH]; intros [|i] name r H; try discriminate.
  - cbn in H. injection H as ->. reflexivity.
  - cbn [nth_error] in H. cbn [set_future filter].
    destruct (is_submitted f); cbn [length]; now rewrite (IH i name r H).
Qed.

(** Every move takes one from the moves left, but for the await of a
    failed job, after which the consumer makes no move at all. *)
Lemma moves_left_step (a : action) (s s' : pipeline) :
  act a s = Some s' ->
  moves_left s' < moves_left s
  /\ ((forall e, consumer s' <> CRaised e) -> moves_left s = S (moves_left s'))
  /\ (forall e, consumer s = CRaised e -> consumer s' = CRaised e).
Proof.
  intros H. unfold moves_left. destruct a; cbn [perform] in H.
  - unfold producer_submit in H.
    destruct (producer_task s); try discriminate.
    destruct (record_batches s); try discriminate.
    cbn in H. injection H as <-. cbn [record_batches producer_task task_queue
                                       consumer futures length].
    rewrite filter_app, length_app. cbn. repeat split; try lia. auto.
  - unfold producer_put in H.
    destruct (producer_task s); try discriminate.
    destruct (length (task_queue s) <? max_workers); try discriminate.
    injection H as <-. cbn [record_batches producer_task task_queue
                              consumer futures].
    rewrite length_app. cbn. repeat split; try lia. auto.
  - unfold producer_return in H.
    destruct (producer_task s); try discriminate.
    destruct (record_batches s) eqn:Hb; try discriminate.
    injection H as <-. cbn [record_batches producer_task task_queue
                              consumer futures length].
    repeat split; try lia. auto.
  - unfold worker_run in H.
    destruct (nth_error (futures s) fut) as [[name|r]|] eqn:Hfut; try discriminate.
    destruct (transform_record_batch_from_shared_memory
                recursion_limit cast_record_batch_json_columns name self (memory s))
      as [r m].
    injection H as <-. cbn [record_batches producer_task task_queue
                              consumer futures].
    rewrite (submitted_set_finished _ _ _ r Hfut). repeat split; try lia. auto.
  - unfold consumer_get in H.
    destruct (consumer s) eqn:Hc; try discriminate.
    destruct (task_queue s) as [|x q].
    + destruct (producer_task s) as [| | |e0] eqn:Hp; try discriminate.
      * injection H as <-. cbn [record_batches producer_task task_queue
                                  consumer futures length].
        repeat split; try lia. intros e He. discriminate.
      * injection H as <-. cbn [record_batches producer_task task_queue
                                  consumer futures length].
        repeat split; try lia. intros e He. discriminate.
    + injection H as <-. cbn [record_batches producer_task task_queue
                                consumer futures length].
      repeat split; try lia. intros e He. discriminate.
  - unfold consumer_await in H.
    destruct (consumer s) eqn:Hc; try discriminate.
    destruct (nth_error (futures s) fut) as [[name|[chunks|e0]]|]; try discriminate.
    + destruct (yield_chunks max_file_size_bytes chunks (current_file_size s)).
      injection H as <-. cbn [record_batches producer_task task_queue
                                consumer futures].
      repeat split; try lia. intros e He. discriminate.
    + injection H as <-. cbn [record_batches producer_task task_queue
                                consumer futures].
      repeat split; try lia.
      * intros Hne. exfalso. exact (Hne e0 eq_refl).
      * intros e He. discriminate.
  - unfold producer_raise in H.
    destruct (producer_task s); try discriminate.
    injection H as <-. cbn [record_batches producer_task task_queue
                              consumer futures length].
    repeat split; try lia. auto.
Qed.

Lemma raised_for_good (sched : list action) :
  forall s s' e,
    run sched s = Some s' -> consumer s = CRaised e -> consumer s' = CRaised e.
Proof.
  induction sched as [|a sched IH]; intros s s' e H He; cbn [run_schedule] in H.
  - now injection H as <-.
  - destruct (act a s) as [s1|] eqn:Ha; [|discriminate].
    apply (IH _ _ _ H). now apply (moves_left_step _ _ _ Ha).
Qed.

Lemma moves_left_run (sched : list action) :
  forall s s',
    run sched s = Some s' ->
    length sched + moves_left s' <= moves_left s
    /\ ((forall e, consumer s' <> CRaised e) ->
        moves_left s = length sched + moves_left s').
Proof.
  induction sched as [|a sched IH]; intros s s' H; cbn [run_schedule] in H.
  - injection H as <-. cbn. split; [lia | reflexivity].
  - destruct (act a s) as [s1|] eqn:Ha; [|discriminate].
    destruct (moves_left_step _ _ _ Ha) as [Hlt [Heq Hraised]].
    destruct (IH _ _ H) as [Hle Heq']. cbn [length]. split; [lia|].
    intros Hne. rewrite Heq, (Heq' Hne); [lia|].
    intros e He. apply (Hne e). exact (raised_for_good _ _ _ _ H He).
Qed.

Lemma moves_left_done (batches : list RecordBatch) (s : pipeline) :
  steps recursion_limit cast_record_batch_json_columns self max_file_size_bytes
        (start batches) s ->
  consumer s = CDone -> moves_left s = 0.
Proof.
  intros Hsteps Hc.
  destruct (invariant_reachable _ _ _ _ _ _ Hsteps) as [done Hinv].
  destruct (inv_done Hinv Hc) as [Hp Hq].
  destruct (all_consumed _ _ _ _ _ _ _ Hinv Hc) as [Hdn Hlen].
  unfold moves_left. rewrite (inv_return Hinv Hp), Hp, Hq, Hc. cbn.
  assert (Hnone : filter is_submitted (futures s) = []).
  { destruct (filter is_submitted (futures s)) as [|f l] eqn:Hf; [reflexivity|].
    assert (Hin : In f (filter is_submitted (futures s))) by (rewrite Hf; now left).
    apply filter_In in Hin. destruct Hin as [Hin Hsub].
    destruct f as [name|r]; [|discriminate].
    apply In_nth_error in Hin. destruct Hin as [i Hi].
    assert (Hlt : i < done).
    { rewrite Hdn, <- Hlen. apply nth_error_Some. congruence. }
    destruct (inv_consumed Hinv Hlt) as [chunks Hfin]. congruence. }
  now rewrite Hnone.
Qed.
End Termination.

(** X21: the pipeline comes to an end. The producer, the workers and the
    consumer make, between them, at most five moves a batch and two more;
    a run at the end of which the consumer has left its loop is made of
    exactly that many. *)
Theorem pipeline_terminates
        {libs : Libraries} (recursion_limit : nat)
        (cast_record_batch_json_columns : RecordBatch -> RecordBatch)
        (self : StreamTransformer) (max_file_size_bytes : Z)
        (batches : list RecordBatch) (sched : list action) (s : pipeline) :
  run_schedule recursion_limit cast_record_batch_json_columns self
               max_file_size_bytes sched (start batches) = Some s ->
  length sched <= 5 * length batches + 2
  /\ (consumer s = CDone -> length sched = 5 * length batches + 2).
Proof.
  intros Hrun.
  destruct (moves_left_run _ _ _ _ _ _ _ Hrun) as [Hle Heq].
  assert (Hstart : moves_left (start batches) = 5 * length batches + 2).
  { unfold moves_left. cbn. lia. }
  split; [lia|]. intros Hc.
  rewrite Heq in Hstart by (intros e He; congruence).
  pose proof (moves_left_done recursion_limit cast_record_batch_json_columns self
                max_file_size_bytes batches s
                (run_schedule_steps _ _ _ _ _ _ _ Hrun) Hc).
  lia.
Qed.

Lemma pipeline_terminates_witness :
  let self := @new_transformer sample_libs JSONLStreamTransformer None true in
  let sched := [ProducerSubmit; ProducerPut; ProducerSubmit; ProducerPut;
                WorkerRun 1; WorkerRun 0; ConsumerGet; ConsumerAwait;
                ConsumerGet; ConsumerAwait; ProducerReturn; ConsumerGet] in
  exists s,
    run_schedule 255 (fun rb => rb) self 0 sched (start [two_rows; two_rows])
    = Some s
    /\ length sched = 5 * length [two_rows; two_rows] + 2.
Proof.
  intros self sched. eexists.
  match goal with
  | |- run_schedule _ _ _ _ _ ?s0 = Some ?s /\ _ =>
      assert (Hrun : run_schedule 255 (fun rb => rb) self 0 sched s0 = Some s)
  end.
  { vm_compute. reflexivity. }
  split; [exact Hrun|].
  apply (proj2 (@pipeline_terminates sample_libs 255 (fun rb => rb) self 0
                  _ _ _ Hrun)).
  reflexivity.
Defined.

(** ** The Parquet transformer *)

Section ControllerSteps.
Variable T : Type.
Variable transform_batch : T -> RecordBatch -> result (list (T -> result (bytes * T))).
Variable finalize : T -> result (list bytes * T).
Variable max : Z.

Lemma for_chunks_single (next : T -> result (bytes * T)) (size : Z) (t : T) :
  for_chunks finalize max [next] size t
  = match next t with
    | Raise e => ([], Raise e)
    | Ok (c, t1) =>
        if over_limit max (size + blen c) then
          match finalize t1 with
          | Ok (fin, t2) =>
              ((c, false) :: map not_boundary fin ++ [([], true)], Ok (0%Z, t2))
          | Raise e => ([(c, false)], Raise e)
          end
        else ([(c, false)], Ok ((size + blen c)%Z, t1))
    end.
Proof.
  cbn [for_chunks]. rewrite gbind_glift.
  destruct (next t) as [[c t1]|e]; [|reflexivity].
  rewrite gbind_gyield. destruct (over_limit max (size + blen c)); [|reflexivity].
  rewrite gbind_glift. destruct (finalize t1) as [[fin t2]|e]; [|reflexivity].
  rewrite gbind_gyield_all, gbind_gyield. reflexivity.
Qed.

Lemma for_batches_cons {A : Type} (rb : RecordBatch) (rest : list RecordBatch)
      (size : Z) (k : Z -> G T chunk A) (t : T) :
  gbind (for_batches transform_batch finalize max (rb :: rest) size) k t
  = match transform_batch t rb with
    | Raise e => ([], Raise e)
    | Ok g =>
        match snd (for_chunks finalize max g size t) with
        | Ok (size', t') =>
            (fst (for_chunks finalize max g size t)
               ++ fst (gbind (for_batches transform_batch finalize max rest size') k t'),
             snd (gbind (for_batches transform_batch finalize max rest size') k t'))
        | Raise e => (fst (for_chunks finalize max g size t), Raise e)
        end
    end.
Proof.
  rewrite gbind_run. cbn [for_batches]. rewrite gbind_glift.
  destruct (transform_batch t rb) as [g|e]; [|reflexivity]. cbn [rbind].
  rewrite gbind_run.
  destruct (snd (for_chunks finalize max g size t)) as [[size' t']|e];
    [|reflexivity].
  cbn [fst snd]. rewrite gbind_run.
  destruct (snd (for_batches transform_batch finalize max rest size' t'))
    as [[size'' t'']|e]; cbn [fst snd]; [|reflexivity].
  now rewrite app_assoc.
Qed.
End ControllerSteps.

Section ParquetStream.
Context {libs : Libraries} {pq : ParquetLibrary}.
Variable b0 : StreamTransformer.
Variable sch : Schema.
Variable lvl : option Z.
Variable max : Z.
Hypothesis not_brotli : compression_is b0 "brotli" = false.

Local Notation "'St' w" := (Build_ParquetTransformer b0 sch lvl w [])
  (at level 10, w at level 9).
Local Notation "'is_open'" := (file_open sch (codec b0) lvl).
Local Notation "'closes'" := (file_closed sch (codec b0) lvl).

Lemma pq_write_all_snoc (w w1 w2 : writer_state) (cur : list RecordBatch)
      (rb : RecordBatch) (body data : bytes) :
  pq_write_all w cur = Ok (body, w1) ->
  pq_write_batch w1 rb = Ok (data, w2) ->
  pq_write_all w (cur ++ [rb]) = Ok (body ++ data, w2).
Proof.
  revert w body. induction cur as [|x cur IH]; intros w body H Hrb.
  - injection H as <- <-. cbn. rewrite Hrb. cbn. now rewrite app_nil_r.
  - cbn [pq_write_all app] in *.
    destruct (pq_write_batch w x) as [[d wx]|e]; [|discriminate]. cbn in *.
    destruct (pq_write_all wx cur) as [[body' w']|e] eqn:Hcur; [|discriminate].
    cbn in H. injection H as <- <-.
    rewrite (IH wx body' Hcur Hrb). cbn. now rewrite app_assoc.
Qed.

Lemma parquet_write_batch_step
      (w : option ParquetWriter) (cur : list RecordBatch) (pre : bytes)
      (selected : RecordBatch) (next : ParquetTransformer -> result (bytes * ParquetTransformer))
      (data : bytes) (t1 : ParquetTransformer) :
  is_open w cur pre ->
  parquet_write_batch selected = [next] ->
  next (St w) = Ok (data, t1) ->
  exists rb w1,
    select selected sch = Ok rb
    /\ t1 = St (Some w1)
    /\ is_open (Some w1) (cur ++ [rb]) (pre ++ data).
Proof.
  intros Hopen Hnext H. injection Hnext as <-.
  destruct w as [w|].
  - destruct Hopen as [Hsch [Hne [header [w0 [body [Hw [Hall Hpre]]]]]]].
    cbn in H. rewrite Hsch in H.
    destruct (select selected sch) as [rb|e]; [|discriminate]. cbn in H.
    destruct (pq_write_batch (writer w) rb) as [[d w']|e] eqn:Hrb; [|discriminate].
    cbn in H. injection H as <- <-.
    exists rb, {| writer_schema := sch; writer := w' |}.
    split; [reflexivity|]. split; [reflexivity|].
    split; [reflexivity|]. split; [now destruct cur|].
    exists header, w0, (body ++ d). split; [exact Hw|].
    split; [exact (pq_write_all_snoc _ _ _ _ _ _ _ Hall Hrb)|].
    subst pre. now rewrite app_assoc.
  - destruct Hopen as [-> ->]. cbn in H.
    destruct (pq_ParquetWriter sch (codec b0) lvl) as [[header w0]|e] eqn:Hw;
      [|discriminate].
    cbn in H.
    destruct (select selected sch) as [rb|e]; [|discriminate]. cbn in H.
    destruct (pq_write_batch w0 rb) as [[d w']|e] eqn:Hrb; [|discriminate].
    cbn in H. injection H as <- <-.
    exists rb, {| writer_schema := sch; writer := w' |}.
    split; [reflexivity|]. split; [reflexivity|].
    split; [reflexivity|]. split; [discriminate|].
    exists header, w0, d. split; [exact Hw|]. split; [|reflexivity].
    cbn. rewrite Hrb. cbn. now rewrite app_nil_r.
Qed.

Lemma parquet_finalize_closes
      (w : option ParquetWriter) (cur : list RecordBatch) (pre : bytes)
      (fin : list bytes) (t2 : ParquetTransformer) :
  is_open w cur pre ->
  parquet_finalize (St w) = Ok (fin, t2) ->
  t2 = St None /\ closes cur pre [] fin.
Proof.
  intros Hopen H. unfold parquet_finalize in H. cbn [base] in H.
  rewrite (finalize_not_brotli _ not_brotli) in H. cbn [rbind fst snd] in H.
  unfold file_closed. rewrite app_nil_r.
  destruct w as [w|]; cbn in H.
  - destruct Hopen as [Hsch [Hne [header [w0 [body [Hw [Hall Hpre]]]]]]].
    destruct (pq_close (writer w)) as [footer|e] eqn:Hclose; [|discriminate].
    cbn in H. injection H as <- <-. split; [reflexivity|].
    destruct cur as [|x cur]; [congruence|].
    unfold parquet_file. rewrite Hw. cbn [rbind snd fst]. rewrite Hall.
    cbn [rbind snd fst]. rewrite Hclose. cbn [rbind]. subst pre.
    destruct footer; cbn; now rewrite ?app_nil_r, <- ?app_assoc.
  - destruct Hopen as [-> ->]. injection H as <- <-. split; reflexivity.
Qed.

Lemma parquet_transform_batch_prepared
      (w : option ParquetWriter) (rb : RecordBatch)
      (g : list (ParquetTransformer -> result (bytes * ParquetTransformer))) :
  parquet_transform_batch (St w) rb = Ok g ->
  exists selected next,
    g = [next]
    /\ parquet_write_batch selected = [next]
    /\ prepared (include_inserted_at b0) sch rb = select selected sch.
Proof.
  unfold parquet_transform_batch, prepared. cbn [base].
  destruct (if include_inserted_at b0
            then Ok (column_names rb)
            else rbind (index (column_names rb) (u "_inserted_at"))
                       (fun i => Ok (pop (column_names rb) i))) as [names|e];
    [|discriminate].
  cbn [rbind].
  destruct (select rb names) as [selected|e]; [|discriminate]. cbn [rbind].
  intros [= <-]. exists selected. eexists. split; [reflexivity|].
  split; reflexivity.
Qed.

Lemma joined_cons_chunk (c : bytes) (seg : list bytes) (segs : list (list bytes)) :
  joined ((c :: seg) :: segs) = (c, false) :: joined (seg :: segs).
Proof. destruct segs; reflexivity. Qed.

Lemma parquet_stream_files (batches : list RecordBatch) :
  forall (size : Z) (w : option ParquetWriter) (cur : list RecordBatch)
         (pre : bytes) (out : list chunk) (t' : ParquetTransformer),
    is_open w cur pre ->
    gbind (for_batches parquet_transform_batch parquet_finalize max batches size)
          (fun _ => gbind (glift parquet_finalize)
                          (fun fin => gyield_all (map not_boundary fin)))
          (St w)
    = (out, Ok (tt, t')) ->
    exists group groups seg segs,
      out = joined (seg :: segs)
      /\ mapM (prepared (include_inserted_at b0) sch) batches
         = Ok (concat (group :: groups))
      /\ closes cur pre group seg
      /\ Forall2 (holds_file sch (codec b0) lvl) groups segs
      /\ t' = St None.
Proof.
  induction batches as [|rb rest IH]; intros size w cur pre out t' Hopen H.
  - cbn [for_batches] in H. unfold gbind at 1, gret in H.
    rewrite gbind_glift in H.
    destruct (parquet_finalize (St w)) as [[fin t2]|e] eqn:Hfin; [|discriminate].
    rewrite gyield_all_run in H. injection H as <- <-.
    destruct (parquet_finalize_closes _ _ _ _ _ Hopen Hfin) as [-> Hclosed].
    exists [], [], fin, []. cbn [joined app]. split; [reflexivity|].
    split; [reflexivity|]. split; [exact Hclosed|]. split; [constructor | reflexivity].
  - rewrite for_batches_cons in H.
    destruct (parquet_transform_batch (St w) rb) as [g|e] eqn:Hg; [|discriminate].
    destruct (parquet_transform_batch_prepared _ _ _ Hg)
      as [selected [next [-> [Hnext Hprep]]]].
    rewrite for_chunks_single in H.
    destruct (next (St w)) as [[data t1]|e] eqn:Hdata; [|discriminate].
    destruct (parquet_write_batch_step _ _ _ _ _ _ _ Hopen Hnext Hdata)
      as [rb2 [w1 [Hsel [-> Hopen1]]]].
    rewrite Hsel in Hprep.
    destruct (over_limit max (size + blen data)).
    + destruct (parquet_finalize (St (Some w1))) as [[fin t2]|e] eqn:Hfin;
        [|discriminate].
      destruct (parquet_finalize_closes _ _ _ _ _ Hopen1 Hfin) as [-> Hclosed].
      cbn [fst snd] in H.
      destruct (gbind (for_batches parquet_transform_batch parquet_finalize max rest 0)
                      (fun _ => gbind (glift parquet_finalize)
                                      (fun fin => gyield_all (map not_boundary fin)))
                      (St None)) as [out' r] eqn:Hrest.
      cbn [fst snd] in H. injection H as <- ->.
      destruct (IH 0%Z None [] [] out' t' (conj eq_refl eq_refl) Hrest)
        as [group [groups [seg [segs [-> [Hmap [Hcl [Hall ->]]]]]]]].
      exists [rb2], (group :: groups), (data :: fin), (seg :: segs).
      split.
      { cbn [joined map]. rewrite <- app_assoc. reflexivity. }
      split.
      { cbn [mapM]. rewrite Hprep, Hmap. reflexivity. }
      split.
      { unfold file_closed in *. rewrite app_nil_r in Hclosed.
        destruct (cur ++ [rb2]) eqn:Hcur; [now destruct cur|].
        rewrite Hclosed. cbn [concat]. now rewrite app_assoc. }
      split; [|reflexivity].
      constructor; [destruct group; exact Hcl | exact Hall].
    + cbn [fst snd] in H.
      destruct (gbind (for_batches parquet_transform_batch parquet_finalize max rest
                                   (size + blen data))
                      (fun _ => gbind (glift parquet_finalize)
                                      (fun fin => gyield_all (map not_boundary fin)))
                      (St (Some w1))) as [out' r] eqn:Hrest.
      cbn [fst snd] in H. injection H as <- ->.
      destruct (IH _ _ _ _ out' t' Hopen1 Hrest)
        as [group [groups [seg [segs [-> [Hmap [Hcl [Hall ->]]]]]]]].
      exists (rb2 :: group), groups, (data :: seg), segs.
      split; [now rewrite joined_cons_chunk|].
      split.
      { cbn [mapM]. rewrite Hprep, Hmap. reflexivity. }
      split; [|split; [exact Hall | reflexivity]].
      unfold file_closed in *. rewrite <- app_assoc in Hcl. cbn [app] in Hcl.
      destruct (cur ++ rb2 :: group) eqn:Hcur; [now destruct cur|].
      rewrite Hcl. cbn [concat]. now rewrite !app_assoc.
Qed.
End ParquetStream.

(** X22: every segment of a Parquet stream is a file of its own. For a
    Parquet transformer that holds no writer and whose compression is not
    brotli, and any limit, a stream that comes to its end is made of
    segments with one boundary between two of them; the batches, their
    columns chosen, fall into as many groups, in order, none left out;
    the chunks of a segment, put end to end, are the file a writer
    writes when it is made, given the batches of the group and closed;
    a group without a batch takes no byte at all. The transformer ends
    as it started. *)
Theorem parquet_segments_are_files
        {libs : Libraries} {pq : ParquetLibrary}
        (self : ParquetTransformer) (record_batches : list RecordBatch)
        (max_file_size_bytes : Z) (out : list chunk) (t' : ParquetTransformer) :
  _parquet_writer self = None ->
  _parquet_buffer self = [] ->
  compression_is (base self) "brotli" = false ->
  parquet_iter record_batches max_file_size_bytes self = (out, Ok (tt, t')) ->
  exists groups segments,
    out = joined segments
    /\ mapM (prepared (include_inserted_at (base self)) (schema self)) record_batches
       = Ok (concat groups)
    /\ Forall2 (holds_file (schema self) (codec (base self)) (compression_level self))
               groups segments
    /\ t' = self.
Proof.
  destruct self as [b0 sch lvl w buffer]. cbn [_parquet_writer _parquet_buffer base
                                                schema compression_level].
  intros -> -> Hnb H.
  destruct (parquet_stream_files b0 sch lvl max_file_size_bytes Hnb record_batches
              0%Z None [] [] out t' (conj eq_refl eq_refl) H)
    as [group [groups [seg [segs [Hout [Hmap [Hcl [Hall Ht]]]]]]]].
  exists (group :: groups), (seg :: segs).
  split; [exact Hout|]. split; [exact Hmap|]. split; [|exact Ht].
  constructor; [destruct group; exact Hcl | exact Hall].
Qed.

Lemma parquet_segments_are_files_witness :
  let self := @new_parquet_transformer sample_libs sample_parquet
                [u "a"] None None true in
  parquet_iter [two_rows; two_rows; two_rows] 5 self
  = ([(sample_magic ++ [x02], false); ([x02], false); (sample_magic, false);
      ([], true);
      (sample_magic ++ [x02], false); (sample_magic, false)],
     Ok (tt, self))
  /\ exists groups segments,
      [(sample_magic ++ [x02], false); ([x02], false); (sample_magic, false);
       ([], true);
       (sample_magic ++ [x02], false); (sample_magic, false)]
      = joined segments
      /\ mapM (prepared true [u "a"]) [two_rows; two_rows; two_rows]
         = Ok (concat groups)
      /\ Forall2 (holds_file [u "a"] (u "none") None) groups segments.
Proof.
  intros self.
  assert (Hrun : parquet_iter [two_rows; two_rows; two_rows] 5 self
                 = ([(sample_magic ++ [x02], false); ([x02], false);
                     (sample_magic, false); ([], true);
                     (sample_magic ++ [x02], false); (sample_magic, false)],
                    Ok (tt, self))) by (vm_compute; reflexivity).
  split; [exact Hrun|].
  destruct (@parquet_segments_are_files sample_libs sample_parquet self
              [two_rows; two_rows; two_rows] 5 _ _ eq_refl eq_refl eq_refl Hrun)
    as [groups [segments [H1 [H2 [H3 _]]]]].
  exists groups, segments. split; [exact H1|]. split; [exact H2 | exact H3].
Defined.

(** X23: finalizing twice is finalizing once. For a Parquet transformer
    whose compression is not brotli, a [finalize] that returns leaves no
    writer and an empty buffer when there was a writer, and a second
    [finalize] yields nothing and changes nothing. *)
Theorem parquet_finalize_twice
        {libs : Libraries} {pq : ParquetLibrary}
        (self t' : ParquetTransformer) (fin : list bytes) :
  compression_is (base self) "brotli" = false ->
  parquet_finalize self = Ok (fin, t') ->
  _parquet_writer t' = None
  /\ (_parquet_writer self <> None -> _parquet_buffer t' = [])
  /\ parquet_finalize t' = Ok ([], t').
Proof.
  intros Hnb H. unfold parquet_finalize in H.
  rewrite (finalize_not_brotli _ Hnb) in H. cbn [rbind fst snd] in H.
  destruct self as [b0 sch lvl w buffer]. cbn in H, Hnb.
  destruct w as [w|].
  - destruct (pq_close (writer w)) as [footer|e]; [|discriminate].
    cbn in H. injection H as <- <-.
    split; [reflexivity|]. split; [reflexivity|].
    unfold parquet_finalize. cbn [base _parquet_writer set_parquet].
    rewrite (finalize_not_brotli _ Hnb). reflexivity.
  - injection H as <- <-.
    split; [reflexivity|]. split; [cbn; congruence|].
    unfold parquet_finalize. cbn [base _parquet_writer set_parquet].
    rewrite (finalize_not_brotli _ Hnb). reflexivity.
Qed.

Lemma parquet_finalize_twice_witness :
  let self := @new_parquet_transformer sample_libs sample_parquet
                [u "a"] None None true in
  let t1 := set_parquet self (base self)
                        (Some {| writer_schema := [u "a"]; writer := tt |}) [] in
  parquet_finalize t1 = Ok ([sample_magic], self)
  /\ parquet_finalize self = Ok ([], self).
Proof.
  intros self t1.
  assert (H : parquet_finalize t1 = Ok ([sample_magic], self))
    by (vm_compute; reflexivity).
  split; [exact H|].
  refine (proj2 (proj2 (@parquet_finalize_twice sample_libs sample_parquet
                          _ _ _ _ H))).
  reflexivity.
Defined.

Section ParquetBrotli.
Context {libs : Libraries} {pq : ParquetLibrary}.
Variable b0 : StreamTransformer.
Variable sch : Schema.
Variable lvl : option Z.
Hypothesis brotli : compression_is b0 "brotli" = true.
Hypothesis unused : _brotli_compressor b0 = None.

Local Notation "'St' w" := (Build_ParquetTransformer b0 sch lvl w [])
  (at level 10, w at level 9).

Lemma parquet_brotli_stream (batches : list RecordBatch) :
  forall (size : Z) (w : option ParquetWriter) (cur : list RecordBatch)
         (pre : bytes) (out : list chunk) (t' : ParquetTransformer),
    file_open sch (codec b0) lvl w cur pre ->
    gbind (for_batches parquet_transform_batch parquet_finalize 0 batches size)
          (fun _ => gbind (glift parquet_finalize)
                          (fun fin => gyield_all (map not_boundary fin)))
          (St w)
    = (out, Ok (tt, t')) ->
    exists trailer c rbs,
      brotli_finish brotli_Compressor = Ok (trailer, c)
      /\ mapM (prepared (include_inserted_at b0) sch) batches = Ok rbs
      /\ match cur ++ rbs with
         | [] => out = [(trailer, false)]
         | all =>
             exists header w0 body w1 footer,
               pq_ParquetWriter sch (codec b0) lvl = Ok (header, w0)
               /\ pq_write_all w0 all = Ok (body, w1)
               /\ pq_close w1 = Ok footer
               /\ pre ++ concat (map fst out) = header ++ body ++ trailer ++ footer
         end.
Proof.
  induction batches as [|rb rest IH]; intros size w cur pre out t' Hopen H.
  - cbn [for_batches] in H. unfold gbind at 1, gret in H.
    rewrite gbind_glift in H.
    destruct (parquet_finalize (St w)) as [[fin t2]|e] eqn:Hfin; [|discriminate].
    rewrite gyield_all_run in H. injection H as <- <-.
    unfold parquet_finalize in Hfin. cbn [base _parquet_writer _parquet_buffer] in Hfin.
    unfold finalize, brotli_compressor in Hfin. rewrite brotli, unused in Hfin.
    destruct (brotli_finish brotli_Compressor) as [[trailer c]|e]; [|discriminate].
    cbn [rbind fst snd] in Hfin.
    exists trailer, c, []. split; [reflexivity|]. split; [reflexivity|].
    rewrite app_nil_r. destruct w as [w|].
    + destruct Hopen as [Hsch [Hne [header [w0 [body [Hw [Hall Hpre]]]]]]].
      destruct (pq_close (writer w)) as [footer|e] eqn:Hclose; [|discriminate].
      cbn in Hfin. injection Hfin as <- <-.
      destruct cur as [|x cur]; [congruence|].
      exists header, w0, body, (writer w), footer.
      split; [exact Hw|]. split; [exact Hall|]. split; [exact Hclose|].
      subst pre. destruct footer; cbn; now rewrite ?app_nil_r, <- ?app_assoc.
    + destruct Hopen as [-> ->]. injection Hfin as <- <-. reflexivity.
  - rewrite for_batches_cons in H.
    destruct (parquet_transform_batch (St w) rb) as [g|e] eqn:Hg; [|discriminate].
    destruct (parquet_transform_batch_prepared _ _ _ _ _ _ Hg)
      as [selected [next [-> [Hnext Hprep]]]].
    rewrite for_chunks_single in H.
    destruct (next (St w)) as [[data t1]|e] eqn:Hdata; [|discriminate].
    destruct (parquet_write_batch_step _ _ _ _ _ _ _ _ _ _ Hopen Hnext Hdata)
      as [rb2 [w1 [Hsel [-> Hopen1]]]].
    rewrite Hsel in Hprep. rewrite over_limit_zero in H. cbn [fst snd] in H.
    destruct (gbind (for_batches parquet_transform_batch parquet_finalize 0 rest
                                 (size + blen data))
                    (fun _ => gbind (glift parquet_finalize)
                                    (fun fin => gyield_all (map not_boundary fin)))
                    (St (Some w1))) as [out' r] eqn:Hrest.
    cbn [fst snd] in H. injection H as <- ->.
    destruct (IH _ _ _ _ out' t' Hopen1 Hrest)
      as [trailer [c [rbs [Hfinish [Hmap Hfile]]]]].
    exists trailer, c, (rb2 :: rbs). split; [exact Hfinish|].
    split; [cbn [mapM]; rewrite Hprep, Hmap; reflexivity|].
    rewrite <- app_assoc in Hfile. cbn [app] in Hfile.
    destruct (cur ++ rb2 :: rbs) eqn:Hcur; [now destruct cur|].
    destruct Hfile as [header [w0 [body [w2 [footer [Hw [Hall [Hclose Hbytes]]]]]]]].
    exists header, w0, body, w2, footer.
    split; [exact Hw|]. split; [exact Hall|]. split; [exact Hclose|].
    cbn [map fst concat app]. rewrite <- Hbytes. now rewrite !app_assoc.
Qed.
End ParquetBrotli.

(** X24: with brotli the end of an empty brotli stream goes into the
    Parquet file. The Parquet transformer never compresses through
    [compress], and yet, when its compression is brotli, its [finalize]
    starts with that of the base class, which finishes a compressor that
    was given nothing: without a limit, the chunks of the stream, put
    end to end, are what the writer wrote for the batches, then that
    trailer, then the footer; and for no batch at all the stream is the
    trailer alone. *)
Theorem parquet_brotli_trailer
        {libs : Libraries} {pq : ParquetLibrary}
        (self : ParquetTransformer) (record_batches : list RecordBatch)
        (out : list chunk) (t' : ParquetTransformer) :
  _parquet_writer self = None ->
  _parquet_buffer self = [] ->
  compression_is (base self) "brotli" = true ->
  _brotli_compressor (base self) = None ->
  parquet_iter record_batches 0 self = (out, Ok (tt, t')) ->
  exists trailer c rbs,
    brotli_finish brotli_Compressor = Ok (trailer, c)
    /\ mapM (prepared (include_inserted_at (base self)) (schema self)) record_batches
       = Ok rbs
    /\ match rbs with
       | [] => out = [(trailer, false)]
       | _ =>
           exists header w0 body w1 footer,
             pq_ParquetWriter (schema self) (codec (base self))
                              (compression_level self) = Ok (header, w0)
             /\ pq_write_all w0 rbs = Ok (body, w1)
             /\ pq_close w1 = Ok footer
             /\ concat (map fst out) = header ++ body ++ trailer ++ footer
       end.
Proof.
  destruct self as [b0 sch lvl w buffer]. cbn [_parquet_writer _parquet_buffer base
                                                schema compression_level].
  intros -> -> Hb Hc H.
  destruct (parquet_brotli_stream b0 sch lvl Hb Hc record_batches
              0%Z None [] [] out t' (conj eq_refl eq_refl) H)
    as [trailer [c [rbs [Hfinish [Hmap Hfile]]]]].
  exists trailer, c, rbs. split; [exact Hfinish|]. split; [exact Hmap|].
  cbn [app] in Hfile. destruct rbs; exact Hfile.
Qed.

Lemma parquet_brotli_trailer_witness :
  let self := @new_parquet_transformer sample_libs sample_parquet
                [u "a"] (Some (u "brotli")) None true in
  exists t',
    parquet_iter [two_rows] 0 self
    = ([(sample_magic ++ [x02], false); ([x03], false); (sample_magic, false)],
       Ok (tt, t'))
    /\ exists trailer c rbs,
        sample_finish ([], false) = Ok (trailer, c)
        /\ mapM (prepared true [u "a"]) [two_rows] = Ok rbs
        /\ match rbs with
           | [] => True
           | _ =>
               exists header w0 body w1 footer,
                 @pq_ParquetWriter sample_parquet [u "a"] (u "brotli") None
                 = Ok (header, w0)
                 /\ pq_write_all w0 rbs = Ok (body, w1)
                 /\ pq_close w1 = Ok footer
                 /\ sample_magic ++ [x02] ++ [x03] ++ sample_magic
                    = header ++ body ++ trailer ++ footer
           end.
Proof.
  intros self. eexists.
  match goal with
  | |- ?run = (?out, Ok (tt, ?t')) /\ _ =>
      assert (Hrun : run = (out, Ok (tt, t'))) by (vm_compute; reflexivity)
  end.
  split; [exact Hrun|].
  destruct (@parquet_brotli_trailer sample_libs sample_parquet self [two_rows] _ _
              eq_refl eq_refl eq_refl eq_refl Hrun)
    as [trailer [c [rbs [H1 [H2 H3]]]]].
  exists trailer, c, rbs. split; [exact H1|]. split; [exact H2|].
  destruct rbs; [exact I | exact H3].
Defined.

(** *** A schema that names the dropped column *)

Lemma pop_index_twice (names : list pystr) (x : pystr) :
  forall i, index names x = Ok i -> In x (pop names i) ->
            2 <= length (filter (fun n => pystr_eqb n x) names).
Proof.
  induction names as [|n names IH]; intros i Hi Hin; [discriminate|].
  cbn [index] in Hi. cbn [filter].
  destruct (pystr_eqb n x) eqn:E.
  - injection Hi as <-. cbn [pop] in Hin. cbn [length].
    destruct (filter (fun n => pystr_eqb n x) names) as [|y l] eqn:F;
      [|cbn; lia].
    exfalso.
    assert (Hx : In x (filter (fun n => pystr_eqb n x) names)).
    { apply filter_In. split; [exact Hin | apply pystr_eqb_refl]. }
    now rewrite F in Hx.
  - destruct (index names x) as [j|e] eqn:Hj; [|discriminate].
    cbn in Hi. injection Hi as <-. cbn [pop] in Hin.
    destruct Hin as [->|Hin]; [now rewrite pystr_eqb_refl in E|].
    exact (IH j eq_refl Hin).
Qed.

Lemma mapM_ok_In {A B} (f : A -> result B) (l : list A) (ys : list B) (y : B) :
  mapM f l = Ok ys -> In y ys -> exists a, In a l /\ f a = Ok y.
Proof.
  revert ys. induction l as [|a l IH]; intros ys H Hin.
  - injection H as <-. contradiction.
  - cbn [mapM] in H. destruct (f a) as [z|e] eqn:Ha; [|discriminate].
    cbn [rbind] in H. destruct (mapM f l) as [zs|e]; [|discriminate].
    cbn [rbind] in H. injection H as <-.
    destruct Hin as [->|Hin]; [exists a; split; [now left | exact Ha]|].
    destruct (IH zs eq_refl Hin) as [a' [Ha' Hf]].
    exists a'. split; [now right | exact Hf].
Qed.

Lemma select_column_name (rb : RecordBatch) (name : pystr) (col : pystr * list pyval) :
  select_column rb name = Ok col ->
  fst col = name /\ length (field_indices rb name) = 1.
Proof.
  unfold select_column.
  destruct (field_indices rb name) as [|c [|c' l]] eqn:F; try discriminate.
  intros [= <-]. split; [|reflexivity].
  assert (Hc : In c (field_indices rb name)) by (rewrite F; now left).
  apply filter_In in Hc. now apply pystr_eqb_eq.
Qed.

Lemma select_after_pop (rb selected : RecordBatch) (x : pystr) (i : nat)
      (names : list pystr) :
  index (column_names rb) x = Ok i ->
  select rb (pop (column_names rb) i) = Ok selected ->
  In x names ->
  exists e, select selected names = Raise e.
Proof.
  intros Hi Hsel Hx. unfold select in Hsel.
  destruct (mapM (select_column rb) (pop (column_names rb) i)) as [cols|e] eqn:Hcols;
    [|discriminate].
  cbn [rbind] in Hsel. injection Hsel as <-.
  assert (Hnone : field_indices {| num_rows := num_rows rb; columns := cols |} x = []).
  { unfold field_indices. cbn [columns].
    destruct (filter (fun col => pystr_eqb (fst col) x) cols) as [|c l] eqn:F;
      [reflexivity|].
    exfalso.
    assert (Hc : In c (filter (fun col => pystr_eqb (fst col) x) cols))
      by (rewrite F; now left).
    apply filter_In in Hc. destruct Hc as [Hc Hname].
    apply pystr_eqb_eq in Hname.
    destruct (mapM_ok_In _ _ _ _ Hcols Hc) as [n [Hn Hcol]].
    destruct (select_column_name _ _ _ Hcol) as [Hfst Hone].
    rewrite Hname in Hfst. subst n.
    pose proof (pop_index_twice _ _ _ Hi Hn) as Htwo.
    rewrite <- field_indices_names in Htwo. lia. }
  unfold select.
  destruct (mapM_raises (select_column {| num_rows := num_rows rb; columns := cols |})
                        names x Hx) as [e He].
  - eexists. unfold select_column. rewrite Hnone. reflexivity.
  - rewrite He. now eexists.
Qed.

(** X25: a schema that names [_inserted_at] cannot be written without
    [include_inserted_at]. The column is dropped before the batch is
    given to [write_batch], which then selects the columns of the schema:
    the first batch raises, whatever its columns, and the stream yields
    nothing. *)
Theorem parquet_schema_names_dropped_column
        {libs : Libraries} {pq : ParquetLibrary}
        (self : ParquetTransformer) (rb : RecordBatch) (rest : list RecordBatch)
        (max_file_size_bytes : Z) :
  include_inserted_at (base self) = false ->
  In (u "_inserted_at") (schema self) ->
  _parquet_writer self = None ->
  exists e, parquet_iter (rb :: rest) max_file_size_bytes self = ([], Raise e).
Proof.
  intros Hincl Hin Hw. unfold parquet_iter, iter_transformed_record_batches.
  rewrite for_batches_cons. unfold parquet_transform_batch. rewrite Hincl.
  destruct (index (column_names rb) (u "_inserted_at")) as [i|e] eqn:Hi;
    [|now eexists].
  cbn [rbind].
  destruct (select rb (pop (column_names rb) i)) as [selected|e] eqn:Hsel;
    [|now eexists].
  cbn [rbind]. unfold parquet_write_batch.
  match goal with
  | |- context [for_chunks _ _ [?next] _ _] =>
      assert (Hnext : exists e, next self = Raise e)
  end.
  { cbn beta. unfold parquet_writer at 1. rewrite Hw.
    destruct (pq_ParquetWriter (schema self) (codec (base self))
                               (compression_level self)) as [[header w0]|e];
      [|cbn; now eexists].
    cbn.
    destruct (select_after_pop _ _ _ _ (schema self) Hi Hsel Hin) as [e ->].
    cbn. now eexists. }
  destruct Hnext as [e He]. rewrite for_chunks_single, He. cbn [fst snd].
  now eexists.
Qed.

Lemma parquet_schema_names_dropped_column_witness :
  let self := @new_parquet_transformer sample_libs sample_parquet
                [u "a"; u "_inserted_at"] None None false in
  let rb := {| num_rows := 1;
               columns := [(u "a", [PInt 1]); (u "_inserted_at", [PInt 0])] |} in
  parquet_iter [rb] 0 self
  = ([], Raise (KeyError (u "Field " ++ [quote] ++ u "_inserted_at" ++ [quote]
                            ++ u " does not exist in schema"))).
Proof.
  intros self rb.
  destruct (@parquet_schema_names_dropped_column sample_libs sample_parquet
              self rb [] 0 eq_refl) as [e He].
  - right. now left.
  - reflexivity.
  - rewrite He. vm_compute in He. now injection He as <-.
Defined.

(** ** Brotli: one compressor for all rows *)

Lemma run_rows_brotli {libs : Libraries} (limit : nat) (rows : list pydict) :
  forall (t : StreamTransformer) (lines : list bytes),
    compression_is t "brotli" = true ->
    mapM (encode_row limit) rows = Ok lines ->
    run_generator (map (_write_dict limit) rows) t
    = rbind (brotli_flushes (fst (brotli_compressor t)) lines)
            (fun r => Ok (fst r, match lines with
                                 | [] => t
                                 | _ => set_brotli t (Some (snd r))
                                 end)).
Proof.
  induction rows as [|d rows IH]; intros t lines Hb Hlines.
  - injection Hlines as <-. reflexivity.
  - cbn [mapM] in Hlines.
    destruct (encode_row limit d) as [line|e] eqn:Hd; [|discriminate].
    cbn [rbind] in Hlines.
    destruct (mapM (encode_row limit) rows) as [lines'|e] eqn:Hrows; [|discriminate].
    cbn [rbind] in Hlines. injection Hlines as <-.
    cbn [map run_generator brotli_flushes]. unfold _write_dict at 1.
    rewrite Hd. cbn [rbind]. unfold _write. rewrite (compress_brotli _ _ Hb).
    destruct (brotli_process (fst (brotli_compressor t)) line) as [[o1 c1]|e];
      [|reflexivity].
    cbn [rbind snd fst].
    destruct (brotli_flush c1) as [[o2 c2]|e]; [|reflexivity].
    cbn [rbind snd fst].
    rewrite (IH (set_brotli t (Some c2)) lines' Hb eq_refl).
    cbn [brotli_compressor set_brotli _brotli_compressor fst].
    destruct (brotli_flushes c2 lines') as [[outs c3]|e] eqn:Hrest; [|reflexivity].
    cbn [rbind fst snd]. destruct lines'; [|reflexivity].
    cbn in Hrest. injection Hrest as <- <-. reflexivity.
Qed.

(** X26: with brotli all the rows of a batch go through one compressor.
    When every row of the batch has its line, the fragments of the batch
    are what the compressor of the transformer, made at the first row if
    there was none, returns when it is given the lines one by one and
    flushed after each; the transformer keeps that compressor for the
    next batch, and a batch without a row makes none. *)
Theorem write_batch_one_brotli_stream
        {libs : Libraries} (limit : nat) (t : StreamTransformer)
        (rb : RecordBatch) (lines : list bytes) :
  compression_is t "brotli" = true ->
  mapM (encode_row limit) (filter nonempty (to_pylist rb)) = Ok lines ->
  run_generator (write_batch limit rb) t
  = rbind (brotli_flushes (fst (brotli_compressor t)) lines)
          (fun r => Ok (fst r, match lines with
                               | [] => t
                               | _ => set_brotli t (Some (snd r))
                               end)).
Proof.
  intros Hb Hlines. rewrite write_batch_rows.
  exact (run_rows_brotli limit _ t lines Hb Hlines).
Qed.

Lemma write_batch_one_brotli_stream_witness :
  let t := @new_transformer sample_libs JSONLStreamTransformer
             (Some (u "brotli")) true in
  run_generator (write_batch 255 two_rows) t
  = Ok ([line_a x31; line_a x32], set_brotli t (Some ([], false))).
Proof.
  intros t.
  rewrite (@write_batch_one_brotli_stream sample_libs 255 t two_rows
             [line_a x31; line_a x32]).
  - vm_compute. reflexivity.
  - reflexivity.
  - vm_compute. reflexivity.
Defined.
